(** * Simulated annealing and parallel tempering: a model of [AbstractSA.py]

    The development follows the Python module class by class: [SA] is the
    single-replica annealer, [PTSA] the replica-exchange variant that runs
    one process per replica and synchronises them with MPI collectives.

    Numbers.  Costs and temperatures are Python floats in the program.  The
    model has two layers.

    - In [SA] and [PTSA] they are real numbers.  This layer carries what
      does not depend on how a product or a quotient is rounded: which
      attributes a statement writes, the order of the draws, the
      comparisons of costs, the rearrangement of the temperatures by the
      sweep, the faults.  Division by zero is kept: Python's [/] on Python
      numbers raises [ZeroDivisionError], and [pydiv] returns that fault.

    - In [SA64] and [PTSA64] they are binary64 numbers, the primitive
      floats of the kernel, whose [+], [-], [*], [/] and comparisons are
      those of IEEE 754 with rounding to nearest even, as Python's are.
      This layer carries what depends on the values computed: the number of
      passes of [SA.run], the cancellation in the exchange rate, the
      quotient by a zero temperature.  The one operation of the program
      that IEEE 754 does not define, [np.exp], is a parameter of this
      layer, a function on binary64 numbers.

    Randomness.  Every process owns a generator; [np.random.rand()] and
    [np.random.random()] read the next value of a fixed stream and advance
    a cursor.

    Processes.  The MPI ranks of a [PTSA] run advance in lock step (every
    collective blocks until all ranks have arrived), so one run is a
    function on the list of the per-rank objects and generators.

    Collaborators.  Logging only reads the state; the rows that rank 0
    hands to the logger in [PTSA.run] are modelled in [Progress], before
    formatting, and the reader of the log in [ProcessOutput].  The verbose
    trace of [step] (verbosity 2) formats attributes and is left out.  The
    pickling of [best_x] by [save_var] at the end of every outer iteration
    is modelled by its outcome. *)

From Stdlib Require Import Reals Lra Lia ZArith Floats.
From stdpp Require Import base list sorting.

Local Open Scope R_scope.
Set Default Proof Using "Type".

(** ** Faults and the error monad *)

Inductive Fault : Type :=
| ZeroDivisionError
| IndexError
| NameError
| TypeError
| CollectiveMismatch.

Inductive result (A : Type) : Type :=
| Ok (a : A)
| Raise (e : Fault).

Arguments Ok {A} a.
Arguments Raise {A} e.

Definition bind {A B : Type} (m : result A) (k : A -> result B) : result B :=
  match m with
  | Ok a => k a
  | Raise e => Raise e
  end.

Notation "'let*' p ':=' m 'in' k" := (bind m (fun p => k))
  (at level 10, p pattern, m at level 100, k at level 200).


(** Python's true division [a / b] on Python numbers, the types that
    [SA.__init__] declares for the costs and the temperatures (lines 26-31):
    a zero divisor raises.  When an operand is a numpy scalar the quotient
    by zero is an infinity or a NaN and nothing is raised; that case is
    [B64.quotient] with [numpy_costs] set. *)
Definition pydiv (a b : R) : result R :=
  if Req_dec_T b 0 then Raise ZeroDivisionError else Ok (a / b).

(** Python's list indexing with an index that is in range or not. *)
Definition getitem {A : Type} (l : list A) (i : nat) : result A :=
  match l !! i with
  | Some a => Ok a
  | None => Raise IndexError
  end.

(** ** The random generator of one process *)

Record Rng : Type := mkRng { stream : nat -> R; cursor : nat }.

Definition rand (g : Rng) : R * Rng :=
  (stream g (cursor g), mkRng (stream g) (S (cursor g))).

(** Draws of [np.random.rand] lie in [[0,1)]. *)
Definition uniform (g : Rng) : Prop := forall n, 0 <= stream g n < 1.

(** ** Class [SA] *)

Module SA.
Section Defs.

Context {State : Type}.

(** The attributes set by [__init__] that the algorithm reads or writes. *)
Record t : Type := mk {
  x0 : State;
  x : State;
  y : R;
  best_x : State;
  best_y : R;
  T_i : R;
  T_f : R;
  T : R;
  _reps : Z;
  _iters : Z;
  _decay : R;
  _verbose : Z
}.

(** [obj] is the objective stored at construction, [transition] the
    abstract method: it reads the object and may draw random numbers. *)
Variable obj : State -> R.
Variable transition : t -> Rng -> State * Rng.

Definition init (x0 : State) (T_i T_f decay : R) (reps iters verbose : Z) : t :=
  {| x0 := x0; x := x0; y := obj x0; best_x := x0; best_y := obj x0;
     T_i := T_i; T_f := T_f; T := T_i;
     _reps := reps; _iters := iters; _decay := decay; _verbose := verbose |}.

Definition set_current (s : t) (x_new : State) (y_new : R) : t :=
  {| x0 := x0 s; x := x_new; y := y_new; best_x := best_x s; best_y := best_y s;
     T_i := T_i s; T_f := T_f s; T := T s;
     _reps := _reps s; _iters := _iters s; _decay := _decay s;
     _verbose := _verbose s |}.

Definition set_best (s : t) (x_new : State) (y_new : R) : t :=
  {| x0 := x0 s; x := x s; y := y s; best_x := x_new; best_y := y_new;
     T_i := T_i s; T_f := T_f s; T := T s;
     _reps := _reps s; _iters := _iters s; _decay := _decay s;
     _verbose := _verbose s |}.

Definition set_T (s : t) (T_new : R) : t :=
  {| x0 := x0 s; x := x s; y := y s; best_x := best_x s; best_y := best_y s;
     T_i := T_i s; T_f := T_f s; T := T_new;
     _reps := _reps s; _iters := _iters s; _decay := _decay s;
     _verbose := _verbose s |}.

(** The test [df < 0 or np.exp(-df / self.T) > np.random.rand()].  [or]
    short-circuits, so the quotient and the draw happen only when
    [df < 0] fails; the quotient is evaluated before the draw. *)
Definition accepts (s : t) (df : R) (g : Rng) : result (bool * Rng) :=
  if Rlt_dec df 0 then Ok (true, g)
  else
    let* q := pydiv (- df) (T s) in
    let '(u, g') := rand g in
    Ok (if Rgt_dec (exp q) u then true else false, g').

(** Lines 77-79: the assignments of an accepted trial.  Values are
    immutable here, so [copy.deepcopy] is the identity. *)
Definition accept (s : t) (x_new : State) (y_new : R) : t :=
  let s1 := set_current s x_new y_new in
  if Rlt_dec y_new (best_y s1) then set_best s1 x_new y_new else s1.

(** Lines 74-79 (and, word for word, 138-143 of [PTSA.step]): the Metropolis
    decision for a proposal [x_new] of cost [y_new]. *)
Definition metropolis (s : t) (x_new : State) (y_new : R) (g : Rng)
  : result (t * Rng) :=
  let df := y_new - y s in
  let* (acc, g') := accepts s df g in
  if acc : bool then Ok (accept s x_new y_new, g') else Ok (s, g').

(** One pass of the [for] loop of [step]. *)
Definition trial (s : t) (g : Rng) : result (t * Rng) :=
  let '(x_new, g1) := transition s g in
  let y_new := obj x_new in
  metropolis s x_new y_new g1.

Fixpoint trials (n : nat) (s : t) (g : Rng) : result (t * Rng) :=
  match n with
  | O => Ok (s, g)
  | S n' => let* (s', g') := trial s g in trials n' s' g'
  end.

(** [for i in range(self._reps)]: a non-positive count gives no trial. *)
Definition step (s : t) (g : Rng) : result (t * Rng) :=
  trials (Z.to_nat (_reps s)) s g.

(** [self.T *= self._decay], here the exact product; the rounded one is
    [SA64.cool_down]. *)
Definition cool_down (s : t) : t := set_T s (T s * _decay s).

(** [while self.T > self.T_f: step; cool_down].  The loop is bounded by
    [fuel]; [None] means the bound was reached.  The last component counts
    the passes of the loop body; how many passes the program makes depends
    on the rounded products and is stated on [SA64.run_loop]. *)
Fixpoint run_loop (fuel : nat) (s : t) (g : Rng) (passes : nat)
  : option (result (t * Rng * nat)) :=
  if Rgt_dec (T s) (T_f s) then
    match fuel with
    | O => None
    | S fuel' =>
        match step s g with
        | Raise e => Some (Raise e)
        | Ok (s1, g1) => run_loop fuel' (cool_down s1) g1 (S passes)
        end
    end
  else Some (Ok (s, g, passes)).

Definition run (fuel : nat) (s : t) (g : Rng) : option (result (State * R)) :=
  match run_loop fuel s g 0 with
  | None => None
  | Some (Raise e) => Some (Raise e)
  | Some (Ok (s', _, _)) => Some (Ok (best_x s', best_y s'))
  end.

(** The loop the specification calls plain SA driven by an iteration
    budget: [n] passes of [step] then [cool_down], whatever the
    temperature. *)
Fixpoint run_budget (n : nat) (s : t) (g : Rng) : result (t * Rng) :=
  match n with
  | O => Ok (s, g)
  | S n' =>
      let* (s1, g1) := step s g in
      run_budget n' (cool_down s1) g1
  end.

End Defs.
Arguments t : clear implicits.
End SA.

(** ** [np.argsort] *)

(** Indices ordered by ascending key, equal keys in index order.  (For
    equal keys numpy's default sort promises no order; nothing below
    depends on the order among equal keys.) *)
Definition key (Ts : list R) (i : nat) : R := default 0 (Ts !! i).

Fixpoint insert_sorted (Ts : list R) (i : nat) (sorted : list nat) : list nat :=
  match sorted with
  | [] => [i]
  | j :: rest =>
      if Rle_dec (key Ts i) (key Ts j) then i :: j :: rest
      else j :: insert_sorted Ts i rest
  end.

Definition argsort (Ts : list R) : list nat :=
  foldr (insert_sorted Ts) [] (seq 0 (length Ts)).

(** ** Progress rows written by rank 0 in [PTSA.run] *)

Module Progress.
Section Defs.

(** [(i == best_rank) * " **"] on line 166.  [best_rank] is the numpy
    integer that [np.argmin] returns, so the comparison is a numpy bool,
    and whether a numpy bool can be multiplied by a [str] depends on the
    numpy that is installed: where it can, the product is [" **"] for
    [True] and the empty string for [False]; where it cannot, the product
    raises [TypeError].  The module does not pin a version, so this is a
    parameter. *)
Variable marker_defined : bool.

(** [np.argmin]: the first index at which the least value occurs; numpy
    raises [ValueError] on an empty array, which is [None] here. *)
Fixpoint argmin_scan (l : list R) (i best : nat) (least : R) : nat :=
  match l with
  | [] => best
  | v :: l' =>
      if Rlt_dec v least then argmin_scan l' (S i) i v
      else argmin_scan l' (S i) best least
  end.

Definition argmin (l : list R) : option nat :=
  match l with
  | [] => None
  | v :: l' => Some (argmin_scan l' 1 0 v)
  end.

(** What is handed to the logger, before formatting: a rule of [=] signs,
    the column titles, or a row [rank | iteration | temperature | loss]
    with or without the [**] marker. *)
Inductive line : Type :=
| Rule (width : nat)
| Titles
| Row (rank iteration : nat) (T loss : R) (marker : bool).

Definition row_of (m : R * R * nat) (it : nat) (marker : bool) : line :=
  Row m.2 (it + 1) m.1.1 m.1.2 marker.

(** Lines 160-172, for the gathered [msg] at the pass with counter [it]:
    the lines logged, or [None] when an exception is raised ([np.argmin] on
    no message, an index out of range, or the product of line 166 where it
    is not defined; the message is not empty there, so the first row
    already raises). *)
Definition report (verbose : Z) (it : nat) (msg : list (R * R * nat))
  : option (list line) :=
  match argmin (map (fun m => m.1.2) msg) with
  | None => None
  | Some best_rank =>
      if Z.eqb verbose 1 then
        if marker_defined then
          Some ([Rule 41; Titles; Rule 41] ++
                imap (fun i m => row_of m it (Nat.eqb i best_rank)) msg)
        else None
      else if Z.eqb verbose 0 then
        match msg !! best_rank with
        | Some m => Some [Rule 41; Titles; Rule 41; row_of m it false]
        | None => None
        end
      else Some [Rule 41; Titles; Rule 41]
  end.

End Defs.
End Progress.

(** ** Class [PTSA] *)

Module PTSA.
Section Defs.

Context {State : Type}.

(** A [PTSA] object is an [SA] object with two more attributes. *)
Record t : Type := mk {
  base : SA.t State;
  theta : R;
  rank : nat
}.

Variable obj : State -> R.
Variable transition : t -> Rng -> State * Rng.

(** Whether the numpy that is installed multiplies a numpy bool by a [str]
    (see [Progress]). *)
Variable marker_defined : bool.

Definition init (x0 : State) (T_i T_f decay : R) (reps iters verbose : Z)
  (theta : R) : t :=
  {| base := SA.init obj x0 T_i T_f decay reps iters verbose;
     theta := theta; rank := 0 |}.

Definition set_base (p : t) (s : SA.t State) : t :=
  {| base := s; theta := theta p; rank := rank p |}.

Definition set_rank (p : t) (r : nat) : t :=
  {| base := base p; theta := theta p; rank := r |}.

(** One pass of the [for] loop of [PTSA.step]. *)
Definition trial (p : t) (g : Rng) : result (t * Rng) :=
  let '(x_new, g1) := transition p g in
  let y_new := obj x_new in
  let* (s', g2) := SA.metropolis (base p) x_new y_new g1 in
  Ok (set_base p s', g2).

Fixpoint trials (n : nat) (p : t) (g : Rng) : result (t * Rng) :=
  match n with
  | O => Ok (p, g)
  | S n' => let* (p', g') := trial p g in trials n' p' g'
  end.

Definition step (p : t) (g : Rng) : result (t * Rng) :=
  trials (Z.to_nat (SA._reps (base p))) p g.

(** [cool_down] is inherited. *)
Definition cool_down (p : t) : t := set_base p (SA.cool_down (base p)).

(** *** The exchange sweep on rank 0 *)

(** [np.exp(-fx[sol2] / T[sol1] - fx[sol1] / T[sol2] + fx[sol2] / T[sol2]
    + fx[sol1] / T[sol1])], operands evaluated left to right, here in exact
    arithmetic; the rounded exponent is [PTSA64.exponent]. *)
Definition accept_rate (Ts fx : list R) (sol1 sol2 : nat) : result R :=
  let* f2 := getitem fx sol2 in
  let* t1 := getitem Ts sol1 in
  let* a := pydiv (- f2) t1 in
  let* f1 := getitem fx sol1 in
  let* t2 := getitem Ts sol2 in
  let* b := pydiv f1 t2 in
  let* c := pydiv f2 t2 in
  let* d := pydiv f1 t1 in
  Ok (exp (a - b + c + d)).

(** The body of [for i in range(SIZE - 1)], acting on the list [T] (updated
    in place by the program) and on the generator of rank 0.  [fx] and
    [index] are never written. *)
Definition exchange_pair (th : R) (fx : list R) (index : list nat) (i : nat)
  (st : list R * Rng) : result (list R * Rng) :=
  let '(Ts, g) := st in
  let* sol1 := getitem index i in
  let* sol2 := getitem index (i + 1)%nat in
  let '(u, g1) := rand g in
  if Rgt_dec u th then
    let* rate := accept_rate Ts fx sol1 sol2 in
    let '(v, g2) := rand g1 in
    if Rgt_dec rate v then
      let* t2 := getitem Ts sol2 in
      let* t1 := getitem Ts sol1 in
      Ok (<[sol2 := t1]> (<[sol1 := t2]> Ts), g2)
    else Ok (Ts, g2)
  else Ok (Ts, g1).

Fixpoint sweep_pairs (th : R) (fx : list R) (index : list nat)
  (positions : list nat) (st : list R * Rng) : result (list R * Rng) :=
  match positions with
  | [] => Ok st
  | i :: rest =>
      let* st' := exchange_pair th fx index i st in
      sweep_pairs th fx index rest st'
  end.

(** Lines 174-186: [T] and [fx] as gathered, [index = np.argsort(T)], then
    the loop over the [SIZE - 1] adjacent positions. *)
Definition sweep (th : R) (Ts fx : list R) (g : Rng) : result (list R * Rng) :=
  sweep_pairs th fx (argsort Ts) (seq 0 (length Ts - 1)) (Ts, g).

(** The state of the list [T] and of the generator when the loop reaches
    position [i], that is after the pairs at positions [0 .. i-1]. *)
Definition sweep_upto (th : R) (Ts fx : list R) (g : Rng) (i : nat)
  : result (list R * Rng) :=
  sweep_pairs th fx (argsort Ts) (seq 0 i) (Ts, g).

(** The four numbers that [accept_rate] reads at position [i]:
    [(T[sol1], fx[sol1], T[sol2], fx[sol2])]. *)
Definition pair_inputs (Ts fx : list R) (index : list nat) (i : nat)
  : option (R * R * R * R) :=
  match index !! i, index !! (i + 1)%nat with
  | Some sol1, Some sol2 =>
      match Ts !! sol1, fx !! sol1, Ts !! sol2, fx !! sol2 with
      | Some t1, Some f1, Some t2, Some f2 => Some (t1, f1, t2, f2)
      | _, _, _, _ => None
      end
  | _, _ => None
  end.

(** *** The processes of one run *)

(** One entry per MPI rank, in rank order: the object and the generator of
    that process. *)
Definition world : Type := list (t * Rng).

(** [self.step()] on every rank; a fault on one rank ends the run. *)
Fixpoint step_all (w : world) : result world :=
  match w with
  | [] => Ok []
  | (p, g) :: w' =>
      let* pg := step p g in
      let* rest := step_all w' in
      Ok (pg :: rest)
  end.

(** [COMM.gather([self.T, self.best_y, self.rank], root=0)]. *)
Definition gather (w : world) : list (R * R * nat) :=
  map (fun pg => (SA.T (base pg.1), SA.best_y (base pg.1), rank pg.1)) w.

(** Rank 0 between gather and scatter: returns [data] and the world with
    the generator of rank 0 advanced. *)
Definition exchange (w : world) : result (list R * world) :=
  match w with
  | [] => Ok ([], [])
  | (p0, g0) :: rest =>
      let msg := gather w in
      let Ts := map (fun m => m.1.1) msg in
      let fx := map (fun m => m.1.2) msg in
      let* (data, g0') := sweep (theta p0) Ts fx g0 in
      Ok (data, (p0, g0') :: rest)
  end.

(** [self.T = COMM.scatter(data, root=0)]: one value per rank. *)
Fixpoint scatter (data : list R) (w : world) : result world :=
  match data, w with
  | [], [] => Ok []
  | T_new :: data', (p, g) :: w' =>
      let* rest := scatter data' w' in
      Ok ((set_base p (SA.set_T (base p) T_new), g) :: rest)
  | _, _ => Raise CollectiveMismatch
  end.

(** Lines 160-172 on rank 0: the progress rows of the pass with counter
    [it].  The gathered message holds one entry per rank, so the only
    exception this part can raise is the [TypeError] of the marker. *)
Definition log_progress (it : nat) (w : world) : result unit :=
  match w with
  | [] => Ok tt
  | (p0, _) :: _ =>
      match Progress.report marker_defined (SA._verbose (base p0)) it (gather w)
      with
      | Some _ => Ok tt
      | None => Raise TypeError
      end
  end.

(** [save_var(save_name, self.best_x)], lines 195-196 and 217-219.  The
    body opens the file and calls [pk.dump], and the module binds no name
    [pk] (lines 1-8 import [copy], [numpy], [abc], [pandas], [mpi4py],
    [pathlib] and [logging]), so the call raises [NameError] once the file
    is open; no attribute of the object is written.  The file name, which
    holds the rank, is represented by the rank. *)
Definition save_var (filename : nat) (action_trees_sa : State) : result unit :=
  Raise NameError.

(** The call on every rank. *)
Fixpoint save_all (w : world) : result unit :=
  match w with
  | [] => Ok tt
  | (p, _) :: w' =>
      let* _ := save_var (rank p) (SA.best_x (base p)) in
      save_all w'
  end.

(** Lines 156-192, on all ranks: one pass of the [while] loop of [run] up
    to and including [cool_down]. *)
Definition iteration_body (it : nat) (w : world) : result world :=
  let* w1 := step_all w in
  let* _ := log_progress it w1 in
  let* (data, w2) := exchange w1 in
  let* w3 := scatter data w2 in
  Ok (map (fun pg => (cool_down pg.1, pg.2)) w3).

(** One pass of the [while] loop of [run], on all ranks: the body above,
    then lines 195-196. *)
Definition iteration (it : nat) (w : world) : result world :=
  let* w' := iteration_body it w in
  let* _ := save_all w' in
  Ok w'.

(** [while it < self._iters], with [n] passes left and [it] the counter. *)
Fixpoint loop (n : nat) (it : nat) (w : world) : result world :=
  match n with
  | O => Ok w
  | S n' => let* w' := iteration it w in loop n' (S it) w'
  end.

(** [run] on all ranks.  Every rank sets [self.rank], then loops
    [self._iters] times; ranks that disagree on [_iters] leave the group
    waiting at a collective. *)
Definition run (w : world) : result (list (State * R)) :=
  let w0 := imap (fun r pg => (set_rank pg.1 r, pg.2)) w in
  match w0 with
  | [] => Ok []
  | (p0, _) :: _ =>
      let iters := SA._iters (base p0) in
      if forallb (fun pg => Z.eqb (SA._iters (base pg.1)) iters) w0 then
        let* w' := loop (Z.to_nat iters) 0 w0 in
        Ok (map (fun pg => (SA.best_x (base pg.1), SA.best_y (base pg.1))) w')
      else Raise CollectiveMismatch
  end.

End Defs.
Arguments t : clear implicits.
Arguments world : clear implicits.
End PTSA.

(** ** [PTSA.process_output] *)

(** The log is read as text: a file is the list of its lines, a line a
    list of characters.  The character type, [str.isspace] and the
    character [|] are parameters.  The pandas table is the list of its
    rows, each a label and one cell per column [Rank0 .. Rank(SIZE-1)],
    [None] being a cell not yet assigned; the function returns the table
    it hands to [to_csv]. *)
Module ProcessOutput.
Section Defs.

Context {Char : Type} `{EqDecision Char}.
Variable is_space : Char -> bool.
Variable bar : Char.

(** [line.split('|')]. *)
Fixpoint split (s : list Char) : list (list Char) :=
  match s with
  | [] => [[]]
  | c :: s' =>
      if decide (c = bar) then [] :: split s'
      else
        match split s' with
        | field :: fields => (c :: field) :: fields
        | [] => [[c]]
        end
  end.

Fixpoint lstrip (s : list Char) : list Char :=
  match s with
  | [] => []
  | c :: s' => if is_space c then lstrip s' else s
  end.

(** [_.strip()]. *)
Definition strip (s : list Char) : list Char :=
  reverse (lstrip (reverse (lstrip s))).

(** [f.readline()]: the next line, or the empty string at the end of the
    file. *)
Definition readline (f : list (list Char)) : list Char * list (list Char) :=
  match f with
  | [] => ([], [])
  | line :: f' => (line, f')
  end.

Definition frame : Type := list (nat * list (option (list Char))).

(** [df.loc[label, f"Rank{col}"] = v]: assigns in the row of that label, or
    appends a row with that label when there is none. *)
Definition loc_set (SIZE : nat) (df : frame) (label col : nat) (v : list Char)
  : frame :=
  if existsb (fun row => Nat.eqb row.1 label) df then
    map (fun row =>
           if Nat.eqb row.1 label then (row.1, <[col := Some v]> row.2)
           else row) df
  else df ++ [(label, <[col := Some v]> (replicate SIZE None))].

(** [for i in range(SIZE)], with [n] passes left and [i] the next column. *)
Fixpoint read_rows (SIZE n i iter : nat) (f : list (list Char)) (df : frame)
  : result (list (list Char) * frame) :=
  match n with
  | O => Ok (f, df)
  | S n' =>
      let '(line, f') := readline f in
      let info := map strip (split line) in
      let* cell := getitem info 3 in
      read_rows SIZE n' (S i) iter f' (loc_set SIZE df iter i cell)
  end.

(** [while f.readline(): ...].  Every pass reads at least one line, so
    [fuel] above the number of lines left is never used up. *)
Fixpoint process_loop (fuel SIZE : nat) (f : list (list Char)) (iter : nat)
  (df : frame) : result frame :=
  match fuel with
  | O => Ok df
  | S fuel' =>
      let '(line, f1) := readline f in
      match line with
      | [] => Ok df
      | _ :: _ =>
          let iter' := S iter in
          let '(_, f2) := readline f1 in
          let '(_, f3) := readline f2 in
          let* (f4, df') := read_rows SIZE SIZE 0 iter' f3 df in
          process_loop fuel' SIZE f4 iter' df'
      end
  end.

Definition process_output (SIZE : Z) (f : list (list Char)) : result frame :=
  process_loop (S (length f)) (Z.to_nat SIZE) f 0 [].

End Defs.
End ProcessOutput.

(** * The binary64 layer *)

(** ** Binary64 numbers *)

Module B64.

(** The real number that a finite binary64 number stands for.  Infinities
    and NaN stand for none and are given 0; the definitions below test for
    them before they use the value. *)
Definition to_R (x : float) : R :=
  match Prim2SF x with
  | S754_finite s m e =>
      if s then - (IZR (Z.pos m) * powerRZ 2 e)
      else IZR (Z.pos m) * powerRZ 2 e
  | _ => 0
  end.

(** The generator of one process, with binary64 draws. *)
Record Rng : Type := mkRng { stream : nat -> float; cursor : nat }.

Definition rand (g : Rng) : float * Rng :=
  (stream g (cursor g), mkRng (stream g) (S (cursor g))).

(** Draws of [np.random.rand] lie in [[0,1)]. *)
Definition uniform (g : Rng) : Prop :=
  forall n, (0 <=? stream g n)%float = true /\ (stream g n <? 1)%float = true.

(** [a / b] on costs and temperatures.  On Python numbers a zero divisor
    ([0.0] or [-0.0]) raises [ZeroDivisionError].  When one of the operands
    is a numpy scalar, which is the case when the objective returns numpy
    scalars, the division is the IEEE 754 one for every divisor: numpy
    warns and the quotient by zero is an infinity or a NaN. *)
Definition quotient (numpy_costs : bool) (a b : float) : result float :=
  if numpy_costs then Ok (a / b)%float
  else if (b =? 0)%float then Raise ZeroDivisionError
  else Ok (a / b)%float.

End B64.

(** ** Class [SA] in binary64 *)

Module SA64.
Section Defs.

Context {State : Type}.

Record t : Type := mk {
  x0 : State;
  x : State;
  y : float;
  best_x : State;
  best_y : float;
  T_i : float;
  T_f : float;
  T : float;
  _reps : Z;
  _iters : Z;
  _decay : float;
  _verbose : Z
}.

Variable obj : State -> float.
Variable transition : t -> B64.Rng -> State * B64.Rng.

(** [np.exp] on binary64 numbers.  IEEE 754 does not define it and numpy
    does not promise a correctly rounded result, so it is a parameter. *)
Variable np_exp : float -> float.

(** Whether the costs are numpy scalars (see [B64.quotient]). *)
Variable numpy_costs : bool.

Definition init (x0 : State) (T_i T_f decay : float) (reps iters verbose : Z)
  : t :=
  {| x0 := x0; x := x0; y := obj x0; best_x := x0; best_y := obj x0;
     T_i := T_i; T_f := T_f; T := T_i;
     _reps := reps; _iters := iters; _decay := decay; _verbose := verbose |}.

Definition set_current (s : t) (x_new : State) (y_new : float) : t :=
  {| x0 := x0 s; x := x_new; y := y_new; best_x := best_x s; best_y := best_y s;
     T_i := T_i s; T_f := T_f s; T := T s;
     _reps := _reps s; _iters := _iters s; _decay := _decay s;
     _verbose := _verbose s |}.

Definition set_best (s : t) (x_new : State) (y_new : float) : t :=
  {| x0 := x0 s; x := x s; y := y s; best_x := x_new; best_y := y_new;
     T_i := T_i s; T_f := T_f s; T := T s;
     _reps := _reps s; _iters := _iters s; _decay := _decay s;
     _verbose := _verbose s |}.

Definition set_T (s : t) (T_new : float) : t :=
  {| x0 := x0 s; x := x s; y := y s; best_x := best_x s; best_y := best_y s;
     T_i := T_i s; T_f := T_f s; T := T_new;
     _reps := _reps s; _iters := _iters s; _decay := _decay s;
     _verbose := _verbose s |}.

(** [df < 0 or np.exp(-df / self.T) > np.random.rand()], line 76. *)
Definition accepts (s : t) (df : float) (g : B64.Rng) : result (bool * B64.Rng) :=
  if (df <? 0)%float then Ok (true, g)
  else
    let* q := B64.quotient numpy_costs (- df)%float (T s) in
    let '(u, g') := B64.rand g in
    Ok ((u <? np_exp q)%float, g').

(** Lines 77-79. *)
Definition accept (s : t) (x_new : State) (y_new : float) : t :=
  let s1 := set_current s x_new y_new in
  if (y_new <? best_y s1)%float then set_best s1 x_new y_new else s1.

(** Lines 74-79. *)
Definition metropolis (s : t) (x_new : State) (y_new : float) (g : B64.Rng)
  : result (t * B64.Rng) :=
  let df := (y_new - y s)%float in
  let* (acc, g') := accepts s df g in
  if acc : bool then Ok (accept s x_new y_new, g') else Ok (s, g').

Definition trial (s : t) (g : B64.Rng) : result (t * B64.Rng) :=
  let '(x_new, g1) := transition s g in
  let y_new := obj x_new in
  metropolis s x_new y_new g1.

Fixpoint trials (n : nat) (s : t) (g : B64.Rng) : result (t * B64.Rng) :=
  match n with
  | O => Ok (s, g)
  | S n' => let* (s', g') := trial s g in trials n' s' g'
  end.

Definition step (s : t) (g : B64.Rng) : result (t * B64.Rng) :=
  trials (Z.to_nat (_reps s)) s g.

(** [self.T *= self._decay], line 96: one rounded product. *)
Definition cool_down (s : t) : t := set_T s (T s * _decay s)%float.

(** [while self.T > self.T_f: step; cool_down], lines 102-104, bounded by
    [fuel]; [None] means the bound was reached.  The last component counts
    the passes of the loop body. *)
Fixpoint run_loop (fuel : nat) (s : t) (g : B64.Rng) (passes : nat)
  : option (result (t * B64.Rng * nat)) :=
  if (T_f s <? T s)%float then
    match fuel with
    | O => None
    | S fuel' =>
        match step s g with
        | Raise e => Some (Raise e)
        | Ok (s1, g1) => run_loop fuel' (cool_down s1) g1 (S passes)
        end
    end
  else Some (Ok (s, g, passes)).

Definition run (fuel : nat) (s : t) (g : B64.Rng)
  : option (result (State * float)) :=
  match run_loop fuel s g 0 with
  | None => None
  | Some (Raise e) => Some (Raise e)
  | Some (Ok (s', _, _)) => Some (Ok (best_x s', best_y s'))
  end.

End Defs.
Arguments t : clear implicits.
End SA64.

(** ** The exchange of a pair in binary64 *)

Module PTSA64.

(** The argument of [np.exp] on line 182, [-fx[sol2] / T[sol1] - fx[sol1] /
    T[sol2] + fx[sol2] / T[sol2] + fx[sol1] / T[sol1]]: four rounded
    quotients, then a difference and two sums, each rounded, from left to
    right. *)
Definition exponent (numpy_costs : bool) (Ts fx : list float) (sol1 sol2 : nat)
  : result float :=
  let* f2 := getitem fx sol2 in
  let* t1 := getitem Ts sol1 in
  let* a := B64.quotient numpy_costs (- f2)%float t1 in
  let* f1 := getitem fx sol1 in
  let* t2 := getitem Ts sol2 in
  let* b := B64.quotient numpy_costs f1 t2 in
  let* c := B64.quotient numpy_costs f2 t2 in
  let* d := B64.quotient numpy_costs f1 t1 in
  Ok (a - b + c + d)%float.

(** Lines 179-185: the body of [for i in range(SIZE - 1)] on the list [T]
    and the generator of rank 0; [np_exp] is [np.exp]. *)
Definition exchange_pair (np_exp : float -> float) (numpy_costs : bool)
  (th : float) (fx : list float) (index : list nat) (i : nat)
  (st : list float * B64.Rng) : result (list float * B64.Rng) :=
  let '(Ts, g) := st in
  let* sol1 := getitem index i in
  let* sol2 := getitem index (i + 1)%nat in
  let '(u, g1) := B64.rand g in
  if (th <? u)%float then
    let* e := exponent numpy_costs Ts fx sol1 sol2 in
    let '(v, g2) := B64.rand g1 in
    if (v <? np_exp e)%float then
      let* t2 := getitem Ts sol2 in
      let* t1 := getitem Ts sol1 in
      Ok (<[sol2 := t1]> (<[sol1 := t2]> Ts), g2)
    else Ok (Ts, g2)
  else Ok (Ts, g1).

End PTSA64.
(** * Vocabulary of the statements *)

(** What a trial never writes. *)
Definition same_parameters {State : Type} (s s' : SA.t State) : Prop :=
  SA.T s' = SA.T s /\ SA.T_i s' = SA.T_i s /\ SA.T_f s' = SA.T_f s
  /\ SA._decay s' = SA._decay s /\ SA._reps s' = SA._reps s
  /\ SA._iters s' = SA._iters s /\ SA._verbose s' = SA._verbose s
  /\ SA.x0 s' = SA.x0 s.

(** The acceptance condition of a trial whose proposal costs [cost'], with
    [g1] the generator after the proposal was made. *)
Definition accepted {State : Type} (s : SA.t State) (cost' : R) (g1 : Rng) : Prop :=
  cost' - SA.y s < 0
  \/ stream g1 (cursor g1) < exp (- (cost' - SA.y s) / SA.T s).

(** The effect of an accepted trial on the four fields it may write. *)
Definition moved_to {State : Type} (s : SA.t State) (x' : State) (cost' : R)
  (s' : SA.t State) : Prop :=
  SA.x s' = x' /\ SA.y s' = cost'
  /\ (cost' < SA.best_y s -> SA.best_x s' = x' /\ SA.best_y s' = cost')
  /\ (~ cost' < SA.best_y s ->
      SA.best_x s' = SA.best_x s /\ SA.best_y s' = SA.best_y s).

(** The proposal of a [PTSA] object is the proposal of the annealer it
    extends: [transition] reads no attribute that [PTSA] adds. *)
Definition proposals_agree {State : Type}
  (transition : SA.t State -> Rng -> State * Rng)
  (ptransition : PTSA.t State -> Rng -> State * Rng) : Prop :=
  forall p g, ptransition p g = transition (PTSA.base p) g.

(** The relation between an object before and after any number of trials:
    the parameters are untouched, the best cost has not grown, and
    [best_y <= y] is kept. *)
Definition anneals {State : Type} (s s' : SA.t State) : Prop :=
  same_parameters s s'
  /\ SA.best_y s' <= SA.best_y s
  /\ (SA.best_y s <= SA.y s -> SA.best_y s' <= SA.y s').

Definition panneals {State : Type} (p p' : PTSA.t State) : Prop :=
  anneals (PTSA.base p) (PTSA.base p')
  /\ PTSA.theta p' = PTSA.theta p /\ PTSA.rank p' = PTSA.rank p.

(** The relation between an object before and after a step that writes the
    temperature only. *)
Definition retempered {State : Type} (p p' : PTSA.t State) : Prop :=
  exists T_new, p' = PTSA.set_base p (SA.set_T (PTSA.base p) T_new).

(** On the processes of a run: the best cost of a rank has not grown, and
    the invariant [best_y <= y] is kept. *)
Definition never_worse {State : Type} (pg pg' : PTSA.t State * Rng) : Prop :=
  SA.best_y (PTSA.base pg'.1) <= SA.best_y (PTSA.base pg.1)
  /\ (SA.best_y (PTSA.base pg.1) <= SA.y (PTSA.base pg.1) ->
      SA.best_y (PTSA.base pg'.1) <= SA.y (PTSA.base pg'.1)).

(** The temperatures of the processes, in rank order. *)
Definition temperatures {State : Type} (w : PTSA.world State) : list R :=
  map (fun pg => SA.T (PTSA.base pg.1)) w.

Definition best_costs {State : Type} (w : PTSA.world State) : list R :=
  map (fun pg => SA.best_y (PTSA.base pg.1)) w.

Definition decays {State : Type} (w : PTSA.world State) : list R :=
  map (fun pg => SA._decay (PTSA.base pg.1)) w.

(** Rank 0 can log its rows: its verbosity is not 1, or the marker of line
    166 is defined. *)
Definition reports {State : Type} (marker_defined : bool)
  (w : PTSA.world State) : Prop :=
  match w with
  | [] => True
  | (p0, _) :: _ =>
      SA._verbose (PTSA.base p0) <> 1%Z \/ marker_defined = true
  end.

(** Python's [sorted] on a list of numbers: the ascending rearrangement. *)
#[local] Instance Rle_decision : RelDecision Rle := Rle_dec.

Definition sorted (l : list R) : list R := merge_sort Rle l.

(** C1 as the specification words it: the four inputs of the pair at
    position [i] are read from the lists as gathered, whatever the earlier
    pairs of the sweep did. *)
Definition uses_gathered_inputs (th : R) (Ts fx : list R) (g : Rng) (i : nat)
  : Prop :=
  forall Ts_i g_i,
    PTSA.sweep_upto th Ts fx g i = Ok (Ts_i, g_i) ->
    PTSA.pair_inputs Ts_i fx (argsort Ts) i
    = PTSA.pair_inputs Ts fx (argsort Ts) i.

(** ** A concrete problem, used to run the model

    States are real numbers and the cost of a state is the state itself.
    [walk] proposes a random step of at most one half, [climb] always
    proposes a state one unit worse. *)
Definition cost_id (v : R) : R := v.

Definition walk (s : SA.t R) (g : Rng) : R * Rng :=
  let '(u, g') := rand g in (SA.x s + (u - 1 / 2), g').

Definition climb (s : SA.t R) (g : Rng) : R * Rng := (SA.x s + 1, g).

Definition pwalk (p : PTSA.t R) (g : Rng) : R * Rng := walk (PTSA.base p) g.

Definition pclimb (p : PTSA.t R) (g : Rng) : R * Rng := climb (PTSA.base p) g.

(** A generator whose every draw is [1/4], and one whose every draw is [1/2]. *)
Definition quarter : Rng := mkRng (fun _ => 1 / 4) 0.
Definition half : Rng := mkRng (fun _ => 1 / 2) 0.

(** An annealer started at state 1 with [T_i = 100], [T_f = 1], [d = 0.9],
    and one constructed with [T_i = 0]. *)
Definition warm : SA.t R := SA.init cost_id 1 100 1 (9 / 10) 3 2 0.
Definition frozen : SA.t R := SA.init cost_id 1 0 0 (9 / 10) 3 2 0.

Definition pwarm : PTSA.t R := PTSA.init cost_id 1 100 1 (9 / 10) 3 2 0 (1 / 10).
Definition pfrozen : PTSA.t R := PTSA.init cost_id 1 0 0 (9 / 10) 3 2 0 (1 / 10).

(** Unfolding of the concrete problem. *)
Ltac concrete :=
  unfold pwalk, pclimb, pwarm, pfrozen, PTSA.init;
  unfold walk, climb, warm, frozen, quarter, half, SA.init;
  simpl; unfold cost_id; simpl.


(** ** Vocabulary of the further statements *)

(** The cached costs are the costs of the cached states. *)
Definition consistent {State : Type} (obj : State -> R) (s : SA.t State) : Prop :=
  SA.y s = obj (SA.x s) /\ SA.best_y s = obj (SA.best_x s).

(** The generator [g'] continues the stream of [g], [lo] to [hi] draws
    later. *)
Definition advanced (g g' : Rng) (lo hi : nat) : Prop :=
  stream g' = stream g
  /\ (cursor g + lo <= cursor g')%nat /\ (cursor g' <= cursor g + hi)%nat.

(** Two ranks of a run: the warm annealer at temperature 100 and a second
    one started at state 2 with temperature 50, each with its generator. *)
Definition pcool : PTSA.t R := PTSA.init cost_id 2 50 1 (9 / 10) 3 2 0 (1 / 10).

Definition two_ranks : PTSA.world R := [(pwarm, quarter); (pcool, half)].




(** The cell that [process_output] takes from a line: [info[3]], if the
    line has that many fields. *)
Definition fourth_field {Char : Type} `{EqDecision Char}
  (is_space : Char -> bool) (bar : Char) (line : list Char)
  : option (list Char) :=
  map (ProcessOutput.strip is_space) (ProcessOutput.split bar line) !! 3%nat.

(** One record of the log: three title lines, then the row lines. *)
Definition block_lines {Char : Type}
  (b : list Char * list Char * list Char * list (list Char))
  : list (list Char) :=
  b.1.1.1 :: b.1.1.2 :: b.1.2 :: b.2.

(** A record that [process_output] can read with [SIZE] columns. *)
Definition readable {Char : Type} `{EqDecision Char}
  (is_space : Char -> bool) (bar : Char) (SIZE : nat)
  (b : list Char * list Char * list Char * list (list Char)) : Prop :=
  b.1.1.1 <> [] /\ length b.2 = SIZE
  /\ Forall (fun line => is_Some (fourth_field is_space bar line)) b.2.

(** Characters as code points, for running the parser: the bar is 124 and
    the white space is the blank and the line feed. *)
Definition blank_or_newline (c : nat) : bool := Nat.eqb c 32 || Nat.eqb c 10.

(** The number of bars in a line. *)
Definition bars {Char : Type} `{EqDecision Char} (bar : Char) (line : list Char)
  : nat :=
  length (filter (fun c => c = bar) line).

(** A record of a log with two ranks, as code points: a rule [===], the
    titles, a rule, then the rows [0|1|2| 5 **] and [1|1|3|7], every line
    ending in a line feed. *)
Definition rule_line : list nat := [61; 61; 61; 10]%nat.
Definition titles_line : list nat := [82; 10]%nat.
Definition marked_row : list nat :=
  [48; 124; 49; 124; 50; 124; 32; 53; 32; 42; 42; 10]%nat.
Definition plain_row : list nat := [49; 124; 49; 124; 51; 124; 55; 10]%nat.

Definition example_record
  : list nat * list nat * list nat * list (list nat) :=
  (rule_line, titles_line, rule_line, [marked_row; plain_row]).


(** ** Vocabulary of the binary64 statements *)

(** The temperature after [n] coolings: [n] rounded products. *)
Fixpoint cooled (n : nat) (T d : float) : float :=
  match n with
  | O => T
  | S n' => cooled n' (T * d)%float d
  end.

(** The temperatures before each of the first [n] coolings all exceed
    [T_f]. *)
Fixpoint stays_above (n : nat) (T_f T d : float) : bool :=
  match n with
  | O => true
  | S n' => (T_f <? T)%float && stays_above n' T_f (T * d)%float d
  end.

(** No trial of a run can divide by zero: the division is numpy's, or the
    floor [T_f] is not negative, so that a temperature above it is not
    zero. *)
Definition divides_safely (numpy_costs : bool) (T_f : float) : Prop :=
  numpy_costs = true \/ (0 <=? T_f)%float = true.

(** What a trial never writes, among the attributes that [run] reads. *)
Definition same_schedule {State : Type} (s s' : SA64.t State) : Prop :=
  SA64.T s' = SA64.T s /\ SA64.T_f s' = SA64.T_f s
  /\ SA64._decay s' = SA64._decay s /\ SA64._reps s' = SA64._reps s.

(** ** A concrete problem in binary64

    States are binary64 numbers and the cost of a state is the state
    itself.  [slide] proposes the state one unit lower, so every proposal
    lowers the cost. *)
Definition cost64 (v : float) : float := v.

Definition slide (s : SA64.t float) (g : B64.Rng) : float * B64.Rng :=
  ((SA64.x s - 1)%float, g).

(** The binary64 numbers nearest to 0.9, 0.1, 1.1 and 0.3, which is what
    Python reads these literals as. *)
Definition nine_tenths : float := 0x1.ccccccccccccdp-1%float.
Definition one_tenth : float := 0x1.999999999999ap-4%float.
Definition eleven_tenths : float := 0x1.199999999999ap+0%float.
Definition three_tenths : float := 0x1.3333333333333p-2%float.

(** [1 - 2^-29] and [1 - 2^-30], the least positive binary64 number
    [2^-1074] (Python prints it as [5e-324]), and the largest binary64
    number below 1, [1 - 2^-53]. *)
Definition floor_29 : float := 0x1.fffffffp-1%float.
Definition decay_30 : float := 0x1.fffffff8p-1%float.
Definition tiniest : float := 0x1p-1074%float.
Definition below_one : float := 0x1.fffffffffffffp-1%float.

(** A generator whose every draw is one half, and one whose first draw is
    one half and whose later draws are [1 - 2^-53]. *)
Definition halves : B64.Rng := B64.mkRng (fun _ => 0.5%float) 0.

Definition high_draws : B64.Rng :=
  B64.mkRng (fun n => match n with O => 0.5%float | S _ => below_one end) 0.

(** Annealers started at state 0: with [T_i = 100], [T_f = 1], [d = 0.9];
    with [T_i = 1], [T_f = 1 - 2^-29], [d = 1 - 2^-30]; and with [T_i = 1],
    [T_f = 2^-1074], [d = 0.9]. *)
Definition warm64 : SA64.t float :=
  SA64.init cost64 0%float 100 1 nine_tenths 3 2 0.

Definition slow64 : SA64.t float :=
  SA64.init cost64 0%float 1 floor_29 decay_30 3 2 0.

Definition stuck64 : SA64.t float :=
  SA64.init cost64 0%float 1 tiniest nine_tenths 3 2 0.


(** [-2^-51]. *)
Definition minus_2_51 : float := (- 0x1p-51)%float.


(** [1 - 2^-51]. *)
Definition rate_2_51 : float := 0x1.ffffffffffffcp-1%float.

(** [np.exp] at the arguments it receives in the runs below: at [-2^-51] it
    is [1 - 2^-51] (Python prints [0.9999999999999996]), at 1 it is
    [2.718281828459045], at minus infinity it is [0.0].  At every other
    argument the table holds a NaN, and no run below reads it. *)
Definition exp_table (q : float) : float :=
  if (q =? minus_2_51)%float then rate_2_51
  else if (q =? 1)%float then 0x1.5bf0a8b145769p+1%float
  else if (q =? neg_infinity)%float then 0%float
  else nan.

(** * Properties *)

(** ** The progress rows of [PTSA.run] *)

Section ProgressLemmas.

Variable marker_defined : bool.

Implicit Types (l : list R) (msg : list (R * R * nat)).

(** The scan keeps the first least value of what it has seen. *)
Lemma argmin_scan_spec (pre rest : list R) (best : nat) (least : R) :
  pre !! best = Some least ->
  (forall j v, pre !! j = Some v -> least <= v) ->
  (forall j v, (j < best)%nat -> pre !! j = Some v -> least < v) ->
  exists least',
    (pre ++ rest) !! Progress.argmin_scan rest (length pre) best least
    = Some least'
    /\ (forall j v, (pre ++ rest) !! j = Some v -> least' <= v)
    /\ (forall j v,
          (j < Progress.argmin_scan rest (length pre) best least)%nat ->
          (pre ++ rest) !! j = Some v -> least' < v).
Proof.
  revert pre best least. induction rest as [|v rest IH];
    intros pre best least Hbest Hall Hfirst; simpl.
  - rewrite app_nil_r. exists least. auto.
  - replace (pre ++ v :: rest) with ((pre ++ [v]) ++ rest)
      by (rewrite <- app_assoc; reflexivity).
    replace (S (length pre)) with (length (pre ++ [v]))
      by (rewrite length_app; simpl; lia).
    destruct (Rlt_dec v least) as [Hlt|Hge].
    + replace (length pre) with (length (pre ++ [v]) - 1)%nat at 2
        by (rewrite length_app; simpl; lia).
      replace (length (pre ++ [v]) - 1)%nat with (length pre)
        by (rewrite length_app; simpl; lia).
      apply IH.
      * rewrite lookup_app_r by lia. rewrite Nat.sub_diag. reflexivity.
      * intros j w Hj. apply lookup_app_Some in Hj as [Hj | [Hlen Hj]].
        -- pose proof (Hall _ _ Hj). lra.
        -- apply list_lookup_singleton_Some in Hj as [_ <-]. lra.
      * intros j w Hlt' Hj. rewrite lookup_app_l in Hj by exact Hlt'.
        pose proof (Hall _ _ Hj). lra.
    + apply IH.
      * rewrite lookup_app_l by exact (lookup_lt_Some _ _ _ Hbest). exact Hbest.
      * intros j w Hj. apply lookup_app_Some in Hj as [Hj | [Hlen Hj]].
        -- exact (Hall _ _ Hj).
        -- apply list_lookup_singleton_Some in Hj as [_ <-]. lra.
      * intros j w Hlt' Hj.
        rewrite lookup_app_l in Hj
          by (pose proof (lookup_lt_Some _ _ _ Hbest); lia).
        exact (Hfirst _ _ Hlt' Hj).
Qed.

Lemma argmin_spec l (best : nat) :
  Progress.argmin l = Some best ->
  exists least,
    l !! best = Some least
    /\ (forall j v, l !! j = Some v -> least <= v)
    /\ (forall j v, (j < best)%nat -> l !! j = Some v -> least < v).
Proof.
  destruct l as [|v rest]; simpl; [discriminate|]. intros [= <-].
  apply (argmin_scan_spec [v] rest 0 v).
  - reflexivity.
  - intros [|j] w Hj; simpl in Hj; [injection Hj as <-; lra | discriminate Hj].
  - intros j w Hlt. lia.
Qed.

Lemma argmin_defined l : l <> [] -> exists best, Progress.argmin l = Some best.
Proof. destruct l; [contradiction|]. intros _. eexists. reflexivity. Qed.

Lemma report_best_rank (verbose : Z) (it : nat) msg (lines : list Progress.line) :
  Progress.report marker_defined verbose it msg = Some lines ->
  exists (best_rank : nat) (m : R * R * nat),
    Progress.argmin (map (fun m => m.1.2) msg) = Some best_rank
    /\ msg !! best_rank = Some m
    /\ (forall j m', msg !! j = Some m' -> m.1.2 <= m'.1.2)
    /\ (forall j m', (j < best_rank)%nat -> msg !! j = Some m' -> m.1.2 < m'.1.2).
Proof.
  unfold Progress.report. intros H.
  destruct (Progress.argmin _) as [best_rank|] eqn:Hbest; [|discriminate H].
  destruct (argmin_spec _ _ Hbest) as (least & Hl & Hall & Hfirst).
  rewrite list_lookup_fmap in Hl.
  destruct (msg !! best_rank) as [m|] eqn:Hm; [|discriminate Hl].
  simpl in Hl. injection Hl as <-.
  exists best_rank, m. split; [reflexivity|]. split; [exact Hm|]. split.
  - intros j m' Hj. apply (Hall j). rewrite list_lookup_fmap, Hj. reflexivity.
  - intros j m' Hlt Hj. apply (Hfirst j); [exact Hlt|].
    rewrite list_lookup_fmap, Hj. reflexivity.
Qed.

(** With a message from at least one rank the report is produced, unless
    the verbosity is 1 and the marker is not defined. *)
Lemma report_defined (verbose : Z) (it : nat) msg :
  msg <> [] -> verbose <> 1%Z \/ marker_defined = true ->
  exists lines, Progress.report marker_defined verbose it msg = Some lines.
Proof.
  intros Hne Hquiet.
  destruct (argmin_defined (map (fun m => m.1.2) msg)) as [best Hbest].
  { destruct msg; [contradiction | discriminate]. }
  destruct (argmin_spec _ _ Hbest) as (least & Hl & _).
  rewrite list_lookup_fmap in Hl.
  destruct (msg !! best) as [m|] eqn:Hm; [|discriminate Hl].
  unfold Progress.report. rewrite Hbest, Hm.
  destruct (Z.eqb_spec verbose 1) as [H1|H1].
  - destruct Hquiet as [Hq| ->]; [contradiction|]. eexists. reflexivity.
  - destruct (Z.eqb verbose 0); eexists; reflexivity.
Qed.

Lemma report_raises (it : nat) msg :
  marker_defined = false -> msg <> [] ->
  Progress.report marker_defined 1 it msg = None.
Proof.
  intros -> Hne. unfold Progress.report.
  destruct (Progress.argmin _); reflexivity.
Qed.

End ProgressLemmas.

(** ** The error monad *)

Lemma bind_ok_inv {A B : Type} (m : result A) (k : A -> result B) (b : B) :
  bind m k = Ok b -> exists a, m = Ok a /\ k a = Ok b.
Proof.
  destruct m as [a|e]; simpl; intros H.
  - exists a. split; [reflexivity | exact H].
  - discriminate H.
Qed.

Lemma pydiv_nonzero (a b : R) : b <> 0 -> pydiv a b = Ok (a / b).
Proof. intros Hb. unfold pydiv. destruct (Req_dec_T b 0); [contradiction | reflexivity]. Qed.


Lemma getitem_Some {A : Type} (l : list A) (i : nat) (a : A) :
  l !! i = Some a -> getitem l i = Ok a.
Proof. intros H. unfold getitem. rewrite H. reflexivity. Qed.

(** ** Metropolis trials *)

Section Metropolis.

Context {State : Type}.
Implicit Types (s : SA.t State) (g : Rng) (x_new : State) (y_new df : R).

Lemma accepts_downhill s df g : df < 0 -> SA.accepts s df g = Ok (true, g).
Proof. intros H. unfold SA.accepts. destruct (Rlt_dec df 0); [reflexivity | contradiction]. Qed.


Lemma accepts_uphill s df g :
  ~ df < 0 -> SA.T s <> 0 ->
  SA.accepts s df g =
  Ok (if Rgt_dec (exp (- df / SA.T s)) (stream g (cursor g)) then true else false,
      (rand g).2).
Proof.
  intros H HT. unfold SA.accepts. destruct (Rlt_dec df 0); [contradiction |].
  rewrite pydiv_nonzero by exact HT. reflexivity.
Qed.

(** The three ways a trial can end without a fault. *)
Lemma metropolis_inv s x_new y_new g s' g' :
  SA.metropolis s x_new y_new g = Ok (s', g') ->
  s' = s
  \/ (~ y_new < SA.best_y s /\ s' = SA.set_current s x_new y_new)
  \/ (y_new < SA.best_y s
      /\ s' = SA.set_best (SA.set_current s x_new y_new) x_new y_new).
Proof.
  unfold SA.metropolis. intros H.
  apply bind_ok_inv in H as [[acc g1] [_ H]].
  destruct acc.
  - unfold SA.accept in H. simpl in H.
    destruct (Rlt_dec y_new (SA.best_y s)); inversion H; subst; auto.
  - inversion H; subst; auto.
Qed.

Lemma metropolis_invariant s x_new y_new g s' g' :
  SA.best_y s <= SA.y s ->
  SA.metropolis s x_new y_new g = Ok (s', g') ->
  SA.best_y s' <= SA.y s'.
Proof.
  intros Hinv H.
  destruct (metropolis_inv _ _ _ _ _ _ H) as [-> | [[Hn ->] | [Hl ->]]]; simpl; lra.
Qed.

Lemma metropolis_best_le s x_new y_new g s' g' :
  SA.metropolis s x_new y_new g = Ok (s', g') ->
  SA.best_y s' <= SA.best_y s.
Proof.
  intros H.
  destruct (metropolis_inv _ _ _ _ _ _ H) as [-> | [[Hn ->] | [Hl ->]]]; simpl; lra.
Qed.

Lemma same_parameters_refl s : same_parameters s s.
Proof. repeat split. Qed.

Lemma same_parameters_trans s1 s2 s3 :
  same_parameters s1 s2 -> same_parameters s2 s3 -> same_parameters s1 s3.
Proof.
  unfold same_parameters. intros (?&?&?&?&?&?&?&?) (?&?&?&?&?&?&?&?).
  repeat split; congruence.
Qed.

Lemma metropolis_frame s x_new y_new g s' g' :
  SA.metropolis s x_new y_new g = Ok (s', g') -> same_parameters s s'.
Proof.
  intros H.
  destruct (metropolis_inv _ _ _ _ _ _ H) as [-> | [[Hn ->] | [Hl ->]]];
    repeat split.
Qed.

Lemma metropolis_accepted s x_new y_new g :
  y_new - SA.y s < 0 ->
  SA.metropolis s x_new y_new g = Ok (SA.accept s x_new y_new, g).
Proof.
  intros H. unfold SA.metropolis. rewrite accepts_downhill by exact H. reflexivity.
Qed.




Lemma accept_fields s x_new y_new :
  SA.x (SA.accept s x_new y_new) = x_new
  /\ SA.y (SA.accept s x_new y_new) = y_new
  /\ (y_new < SA.best_y s ->
      SA.best_x (SA.accept s x_new y_new) = x_new
      /\ SA.best_y (SA.accept s x_new y_new) = y_new)
  /\ (~ y_new < SA.best_y s ->
      SA.best_x (SA.accept s x_new y_new) = SA.best_x s
      /\ SA.best_y (SA.accept s x_new y_new) = SA.best_y s).
Proof.
  unfold SA.accept. simpl.
  destruct (Rlt_dec y_new (SA.best_y s)); simpl; repeat split; intros; tauto.
Qed.

Lemma accepts_rule s (cost' : R) (g1 : Rng) :
  cost' - SA.y s < 0 \/ SA.T s <> 0 ->
  exists (acc : bool) g',
    SA.accepts s (cost' - SA.y s) g1 = Ok (acc, g')
    /\ (acc = true <-> accepted s cost' g1).
Proof.
  intros Hok. unfold accepted.
  destruct (Rlt_dec (cost' - SA.y s) 0) as [Hd|Hd].
  - exists true, g1. rewrite accepts_downhill by exact Hd. tauto.
  - destruct Hok as [Hok|HT]; [contradiction|].
    rewrite accepts_uphill by assumption.
    destruct (Rgt_dec _ _) as [Hu|Hu];
      eexists _, _; (split; [reflexivity|]).
    + split; [intros _; right; exact Hu | reflexivity].
    + split; [discriminate | intros [H|H]; [contradiction | elim Hu; exact H]].
Qed.

Lemma metropolis_rule s (x' : State) (cost' : R) (g1 : Rng) :
  cost' - SA.y s < 0 \/ SA.T s <> 0 ->
  exists (acc : bool) s' g',
    SA.accepts s (cost' - SA.y s) g1 = Ok (acc, g')
    /\ (acc = true <-> accepted s cost' g1)
    /\ SA.metropolis s x' cost' g1 = Ok (s', g')
    /\ (acc = true -> moved_to s x' cost' s')
    /\ (acc = false -> s' = s).
Proof.
  intros Hok. destruct (accepts_rule s cost' g1 Hok) as (acc & g' & Hacc & Hiff).
  exists acc, (if acc then SA.accept s x' cost' else s), g'.
  split; [exact Hacc|]. split; [exact Hiff|].
  unfold SA.metropolis. rewrite Hacc. simpl.
  destruct acc.
  - split; [reflexivity|]. split; [|discriminate].
    intros _. exact (accept_fields s x' cost').
  - split; [reflexivity|]. split; [discriminate | reflexivity].
Qed.

(** At a non-zero temperature no trial faults. *)
Lemma metropolis_total s (x' : State) (cost' : R) g :
  SA.T s <> 0 -> exists s' g', SA.metropolis s x' cost' g = Ok (s', g').
Proof.
  intros HT.
  destruct (metropolis_rule s x' cost' g (or_intror HT))
    as (acc & s' & g' & _ & _ & Hm & _).
  exists s', g'. exact Hm.
Qed.

End Metropolis.

(** ** Trials of [SA.step] and [PTSA.step] *)

Section Trials.

Context {State : Type}.
Variable obj : State -> R.
Variable transition : SA.t State -> Rng -> State * Rng.
Variable ptransition : PTSA.t State -> Rng -> State * Rng.

Implicit Types (s : SA.t State) (p : PTSA.t State) (g : Rng).

Lemma trial_unfold s g :
  SA.trial obj transition s g =
  SA.metropolis s (transition s g).1 (obj (transition s g).1) (transition s g).2.
Proof. unfold SA.trial. destruct (transition s g); reflexivity. Qed.

Lemma ptrial_unfold p g :
  PTSA.trial obj ptransition p g =
  let* (s', g2) := SA.metropolis (PTSA.base p) (ptransition p g).1
                     (obj (ptransition p g).1) (ptransition p g).2 in
  Ok (PTSA.set_base p s', g2).
Proof. unfold PTSA.trial. destruct (ptransition p g); reflexivity. Qed.

Lemma ptrial_inv p g p' g' :
  PTSA.trial obj ptransition p g = Ok (p', g') ->
  exists s',
    SA.metropolis (PTSA.base p) (ptransition p g).1
      (obj (ptransition p g).1) (ptransition p g).2 = Ok (s', g')
    /\ p' = PTSA.set_base p s'.
Proof.
  rewrite ptrial_unfold. intros H.
  apply bind_ok_inv in H as [[s' g2] [Hm H]].
  inversion H; subst. exists s'. split; [exact Hm | reflexivity].
Qed.

End Trials.


(** ** Statements about single trials *)

Section TrialClaims.

Context {State : Type}.
Variable obj : State -> R.
Variable transition : SA.t State -> Rng -> State * Rng.
Variable ptransition : PTSA.t State -> Rng -> State * Rng.

Implicit Types (s : SA.t State) (p : PTSA.t State) (g : Rng).


(** C4.  [best_cost <= current_cost]: it holds for a freshly constructed
    object, where current and best state are [x0] and both costs are
    [obj x0], and every trial of [SA.step] and of [PTSA.step] preserves it. *)
Theorem best_le_current :
  (forall x0 T_i T_f d reps iters verbose,
     let s := SA.init obj x0 T_i T_f d reps iters verbose in
     SA.x s = x0 /\ SA.best_x s = x0 /\ SA.y s = obj x0
     /\ SA.best_y s = obj x0 /\ SA.best_y s <= SA.y s)
  /\
  (forall x0 T_i T_f d reps iters verbose th,
     let s := PTSA.base (PTSA.init obj x0 T_i T_f d reps iters verbose th) in
     SA.x s = x0 /\ SA.best_x s = x0 /\ SA.y s = obj x0
     /\ SA.best_y s = obj x0 /\ SA.best_y s <= SA.y s)
  /\
  (forall s g s' g',
     SA.best_y s <= SA.y s ->
     SA.trial obj transition s g = Ok (s', g') ->
     SA.best_y s' <= SA.y s')
  /\
  (forall p g p' g',
     SA.best_y (PTSA.base p) <= SA.y (PTSA.base p) ->
     PTSA.trial obj ptransition p g = Ok (p', g') ->
     SA.best_y (PTSA.base p') <= SA.y (PTSA.base p'))
  /\
  (forall s g,
     SA.T s <> 0 -> SA.best_y s <= SA.y s ->
     exists s' g',
       SA.trial obj transition s g = Ok (s', g') /\ SA.best_y s' <= SA.y s')
  /\
  (forall p g,
     SA.T (PTSA.base p) <> 0 ->
     SA.best_y (PTSA.base p) <= SA.y (PTSA.base p) ->
     exists p' g',
       PTSA.trial obj ptransition p g = Ok (p', g')
       /\ SA.best_y (PTSA.base p') <= SA.y (PTSA.base p')).
Proof.
  split; [|split; [|split; [|split; [|split]]]].
  - intros. simpl. repeat split; apply Rle_refl.
  - intros. simpl. repeat split; apply Rle_refl.
  - intros s g s' g' Hinv H. rewrite trial_unfold in H.
    exact (metropolis_invariant _ _ _ _ _ _ Hinv H).
  - intros p g p' g' Hinv H.
    apply ptrial_inv in H as (s' & Hm & ->). simpl.
    exact (metropolis_invariant _ _ _ _ _ _ Hinv Hm).
  - intros s g HT Hinv. rewrite trial_unfold.
    destruct (metropolis_total s (transition s g).1 (obj (transition s g).1)
                (transition s g).2 HT) as (s' & g' & Hm).
    exists s', g'. split; [exact Hm|].
    exact (metropolis_invariant _ _ _ _ _ _ Hinv Hm).
  - intros p g HT Hinv. rewrite ptrial_unfold.
    destruct (metropolis_total (PTSA.base p) (ptransition p g).1
                (obj (ptransition p g).1) (ptransition p g).2 HT)
      as (s' & g' & Hm).
    exists (PTSA.set_base p s'), g'. rewrite Hm. split; [reflexivity|].
    simpl. exact (metropolis_invariant _ _ _ _ _ _ Hinv Hm).
Qed.


End TrialClaims.

(** ** Steps: any number of trials *)

Section Steps.

Context {State : Type}.
Variable obj : State -> R.
Variable transition : SA.t State -> Rng -> State * Rng.
Variable ptransition : PTSA.t State -> Rng -> State * Rng.

Implicit Types (s : SA.t State) (p : PTSA.t State) (g : Rng).

Lemma anneals_refl s : anneals s s.
Proof.
  split; [apply same_parameters_refl|]. split; [apply Rle_refl | auto].
Qed.

Lemma anneals_trans s1 s2 s3 : anneals s1 s2 -> anneals s2 s3 -> anneals s1 s3.
Proof.
  intros (Hp1 & Hb1 & Hi1) (Hp2 & Hb2 & Hi2).
  split; [exact (same_parameters_trans _ _ _ Hp1 Hp2)|].
  split; [lra | auto].
Qed.

Lemma metropolis_anneals s (x' : State) (cost' : R) g s' g' :
  SA.metropolis s x' cost' g = Ok (s', g') -> anneals s s'.
Proof.
  intros H. split; [exact (metropolis_frame _ _ _ _ _ _ H)|].
  split; [exact (metropolis_best_le _ _ _ _ _ _ H)|].
  intros Hinv. exact (metropolis_invariant _ _ _ _ _ _ Hinv H).
Qed.

Lemma trials_anneals n s g s' g' :
  SA.trials obj transition n s g = Ok (s', g') -> anneals s s'.
Proof.
  revert s g. induction n as [|n IH]; simpl; intros s g H.
  - inversion H; subst. apply anneals_refl.
  - apply bind_ok_inv in H as [[s1 g1] [H1 H2]].
    rewrite trial_unfold in H1.
    exact (anneals_trans _ _ _ (metropolis_anneals _ _ _ _ _ _ H1) (IH _ _ H2)).
Qed.

Lemma step_anneals s g s' g' :
  SA.step obj transition s g = Ok (s', g') -> anneals s s'.
Proof. apply trials_anneals. Qed.

Lemma trials_total n s g :
  SA.T s <> 0 -> exists s' g', SA.trials obj transition n s g = Ok (s', g').
Proof.
  revert s g. induction n as [|n IH]; simpl; intros s g HT.
  - eexists _, _. reflexivity.
  - destruct (metropolis_total s (transition s g).1 (obj (transition s g).1)
                (transition s g).2 HT) as (s1 & g1 & Hm).
    rewrite trial_unfold, Hm. simpl. apply IH.
    destruct (metropolis_frame _ _ _ _ _ _ Hm) as (HT1 & _).
    rewrite HT1. exact HT.
Qed.

Lemma ptrial_panneals p g p' g' :
  PTSA.trial obj ptransition p g = Ok (p', g') -> panneals p p'.
Proof.
  intros H. apply ptrial_inv in H as (s' & Hm & ->).
  split; [exact (metropolis_anneals _ _ _ _ _ _ Hm)|]. split; reflexivity.
Qed.

Lemma panneals_refl p : panneals p p.
Proof. split; [apply anneals_refl|]. split; reflexivity. Qed.

Lemma panneals_trans p1 p2 p3 :
  panneals p1 p2 -> panneals p2 p3 -> panneals p1 p3.
Proof.
  intros (Ha1 & Ht1 & Hr1) (Ha2 & Ht2 & Hr2).
  split; [exact (anneals_trans _ _ _ Ha1 Ha2)|]. split; congruence.
Qed.

Lemma ptrials_panneals n p g p' g' :
  PTSA.trials obj ptransition n p g = Ok (p', g') -> panneals p p'.
Proof.
  revert p g. induction n as [|n IH]; simpl; intros p g H.
  - inversion H; subst. apply panneals_refl.
  - apply bind_ok_inv in H as [[p1 g1] [H1 H2]].
    exact (panneals_trans _ _ _ (ptrial_panneals _ _ _ _ H1) (IH _ _ H2)).
Qed.

Lemma pstep_panneals p g p' g' :
  PTSA.step obj ptransition p g = Ok (p', g') -> panneals p p'.
Proof. apply ptrials_panneals. Qed.

Lemma ptrials_total n p g :
  SA.T (PTSA.base p) <> 0 ->
  exists p' g', PTSA.trials obj ptransition n p g = Ok (p', g').
Proof.
  revert p g. induction n as [|n IH]; simpl; intros p g HT.
  - eexists _, _. reflexivity.
  - destruct (metropolis_total (PTSA.base p) (ptransition p g).1
                (obj (ptransition p g).1) (ptransition p g).2 HT)
      as (s1 & g1 & Hm).
    rewrite ptrial_unfold, Hm. simpl. apply IH. simpl.
    destruct (metropolis_frame _ _ _ _ _ _ Hm) as (HT1 & _).
    rewrite HT1. exact HT.
Qed.

End Steps.

(** ** [argsort] is a rearrangement of the indices *)

Lemma insert_sorted_Permutation (Ts : list R) (i : nat) (l : list nat) :
  insert_sorted Ts i l ≡ₚ i :: l.
Proof.
  induction l as [|j l IH]; simpl.
  - reflexivity.
  - destruct (Rle_dec (key Ts i) (key Ts j)).
    + reflexivity.
    + rewrite IH. apply Permutation_swap.
Qed.

Lemma argsort_Permutation (Ts : list R) : argsort Ts ≡ₚ seq 0 (length Ts).
Proof.
  unfold argsort. induction (seq 0 (length Ts)) as [|i l IH]; simpl.
  - reflexivity.
  - rewrite insert_sorted_Permutation, IH. reflexivity.
Qed.

Lemma argsort_length (Ts : list R) : length (argsort Ts) = length Ts.
Proof. rewrite (Permutation_length (argsort_Permutation Ts)). apply length_seq. Qed.

Lemma argsort_NoDup (Ts : list R) : NoDup (argsort Ts).
Proof. rewrite argsort_Permutation. apply NoDup_seq. Qed.

Lemma argsort_lookup_lt (Ts : list R) (i sol : nat) :
  argsort Ts !! i = Some sol -> (sol < length Ts)%nat.
Proof.
  intros H. apply list_elem_of_lookup_2 in H.
  rewrite argsort_Permutation in H. apply elem_of_seq in H. lia.
Qed.

(** [argsort] orders the keys. *)
Lemma insert_sorted_Sorted (Ts : list R) (i : nat) (l : list nat) :
  Sorted (fun a b => key Ts a <= key Ts b) l ->
  Sorted (fun a b => key Ts a <= key Ts b) (insert_sorted Ts i l).
Proof.
  induction 1 as [|j l Hs IH Hhd]; simpl.
  - repeat constructor.
  - destruct (Rle_dec (key Ts i) (key Ts j)) as [Hle|Hgt].
    + constructor; [constructor; assumption | constructor; exact Hle].
    + constructor; [exact IH|].
      destruct Hhd as [|k l' Hjk]; simpl.
      * constructor. lra.
      * destruct (Rle_dec (key Ts i) (key Ts k)); constructor; lra.
Qed.

Lemma argsort_Sorted (Ts : list R) :
  Sorted (fun a b => key Ts a <= key Ts b) (argsort Ts).
Proof.
  unfold argsort. induction (seq 0 (length Ts)) as [|i l IH]; simpl.
  - constructor.
  - apply insert_sorted_Sorted. exact IH.
Qed.

(** ** One pair of the exchange sweep *)

Section Pair.

Implicit Types (Ts fx : list R) (index : list nat) (g : Rng).

Lemma accept_rate_eval Ts fx (sol1 sol2 : nat) (t1 f1 t2 f2 : R) :
  Ts !! sol1 = Some t1 -> fx !! sol1 = Some f1 ->
  Ts !! sol2 = Some t2 -> fx !! sol2 = Some f2 ->
  t1 <> 0 -> t2 <> 0 ->
  PTSA.accept_rate Ts fx sol1 sol2 =
  Ok (exp (- f2 / t1 - f1 / t2 + f2 / t2 + f1 / t1)).
Proof.
  intros Ht1 Hf1 Ht2 Hf2 Hz1 Hz2. unfold PTSA.accept_rate.
  rewrite (getitem_Some _ _ _ Ht1), (getitem_Some _ _ _ Ht2),
    (getitem_Some _ _ _ Hf1), (getitem_Some _ _ _ Hf2). simpl.
  rewrite !pydiv_nonzero by assumption. reflexivity.
Qed.

Lemma exchange_pair_eval (th : R) fx index (i : nat) Ts g
  (sol1 sol2 : nat) (t1 f1 t2 f2 : R) :
  index !! i = Some sol1 -> index !! (i + 1)%nat = Some sol2 ->
  Ts !! sol1 = Some t1 -> fx !! sol1 = Some f1 ->
  Ts !! sol2 = Some t2 -> fx !! sol2 = Some f2 ->
  t1 <> 0 -> t2 <> 0 ->
  PTSA.exchange_pair th fx index i (Ts, g) =
  if Rgt_dec (stream g (cursor g)) th then
    Ok (if Rgt_dec (exp (- f2 / t1 - f1 / t2 + f2 / t2 + f1 / t1))
             (stream g (S (cursor g)))
        then <[sol2 := t1]> (<[sol1 := t2]> Ts) else Ts,
        mkRng (stream g) (S (S (cursor g))))
  else Ok (Ts, mkRng (stream g) (S (cursor g))).
Proof.
  intros Hi1 Hi2 Ht1 Hf1 Ht2 Hf2 Hz1 Hz2. unfold PTSA.exchange_pair.
  rewrite (getitem_Some _ _ _ Hi1), (getitem_Some _ _ _ Hi2). simpl.
  destruct (Rgt_dec _ th); [|reflexivity].
  rewrite (accept_rate_eval _ _ _ _ _ _ _ _ Ht1 Hf1 Ht2 Hf2 Hz1 Hz2). simpl.
  destruct (Rgt_dec _ _); [|reflexivity].
  rewrite (getitem_Some _ _ _ Ht1), (getitem_Some _ _ _ Ht2). reflexivity.
Qed.

Lemma getitem_inv {A : Type} (l : list A) (i : nat) (a : A) :
  getitem l i = Ok a -> l !! i = Some a.
Proof. unfold getitem. destruct (l !! i); [intros [= ->]; reflexivity | discriminate]. Qed.

(** A pair either leaves [T] as it is or exchanges the two entries. *)
Lemma exchange_pair_inv (th : R) fx index (i : nat) Ts g Ts' g' :
  PTSA.exchange_pair th fx index i (Ts, g) = Ok (Ts', g') ->
  exists sol1 sol2,
    index !! i = Some sol1 /\ index !! (i + 1)%nat = Some sol2
    /\ (Ts' = Ts
        \/ exists t1 t2,
             Ts !! sol1 = Some t1 /\ Ts !! sol2 = Some t2
             /\ Ts' = <[sol2 := t1]> (<[sol1 := t2]> Ts)).
Proof.
  unfold PTSA.exchange_pair. intros H.
  apply bind_ok_inv in H as (sol1 & Hi1 & H).
  apply bind_ok_inv in H as (sol2 & Hi2 & H).
  apply getitem_inv in Hi1, Hi2.
  exists sol1, sol2. split; [exact Hi1|]. split; [exact Hi2|].
  simpl in H. destruct (Rgt_dec _ th).
  - apply bind_ok_inv in H as (rate & _ & H).
    destruct (Rgt_dec rate _).
    + apply bind_ok_inv in H as (t2 & Ht2 & H).
      apply bind_ok_inv in H as (t1 & Ht1 & H).
      apply getitem_inv in Ht1, Ht2. inversion H; subst.
      right. exists t1, t2. auto.
    + inversion H; subst. left; reflexivity.
  - inversion H; subst. left; reflexivity.
Qed.

Lemma exchange_pair_Permutation (th : R) fx index (i : nat) Ts g Ts' g' :
  PTSA.exchange_pair th fx index i (Ts, g) = Ok (Ts', g') -> Ts' ≡ₚ Ts.
Proof.
  intros H. apply exchange_pair_inv in H
    as (sol1 & sol2 & _ & _ & [-> | (t1 & t2 & Ht1 & Ht2 & ->)]).
  - reflexivity.
  - apply Permutation_insert_swap; assumption.
Qed.

Lemma sweep_pairs_Permutation (th : R) fx index (positions : list nat) Ts g Ts' g' :
  PTSA.sweep_pairs th fx index positions (Ts, g) = Ok (Ts', g') -> Ts' ≡ₚ Ts.
Proof.
  revert Ts g. induction positions as [|i rest IH]; simpl; intros Ts g H.
  - inversion H; subst. reflexivity.
  - apply bind_ok_inv in H as ([Ts1 g1] & H1 & H2).
    rewrite (IH _ _ H2). exact (exchange_pair_Permutation _ _ _ _ _ _ _ _ H1).
Qed.

End Pair.

(** ** The whole sweep *)

#[local] Instance Rle_transitive : Transitive Rle.
Proof. intros a b c. apply Rle_trans. Qed.

#[local] Instance Rle_antisymm : AntiSymm (=) Rle.
Proof. intros a b. apply Rle_antisym. Qed.

#[local] Instance Rle_total : Total Rle.
Proof. intros a b. destruct (Rle_dec a b); [left; assumption | right; lra]. Qed.

Lemma sorted_Permutation (l1 l2 : list R) : l1 ≡ₚ l2 -> sorted l1 = sorted l2.
Proof.
  intros H. unfold sorted.
  apply (Sorted_unique Rle); try apply Sorted_merge_sort; try apply _.
  rewrite !merge_sort_Permutation. exact H.
Qed.

Section Sweep.

Implicit Types (Ts fx : list R) (index : list nat) (g : Rng).

Lemma exchange_pair_total (th : R) fx index (i : nat) Ts g :
  (i + 1 < length index)%nat ->
  Forall (fun sol => (sol < length Ts)%nat) index ->
  length fx = length Ts ->
  Forall (fun t => t <> 0) Ts ->
  exists Ts' g', PTSA.exchange_pair th fx index i (Ts, g) = Ok (Ts', g').
Proof.
  intros Hi Hindex Hfx Hnz.
  destruct (lookup_lt_is_Some_2 index i ltac:(lia)) as [sol1 Hs1].
  destruct (lookup_lt_is_Some_2 index (i + 1) Hi) as [sol2 Hs2].
  assert (Hl1 : (sol1 < length Ts)%nat)
    by exact (proj1 (Forall_lookup _ _) Hindex _ _ Hs1).
  assert (Hl2 : (sol2 < length Ts)%nat)
    by exact (proj1 (Forall_lookup _ _) Hindex _ _ Hs2).
  destruct (lookup_lt_is_Some_2 Ts sol1 Hl1) as [t1 Ht1].
  destruct (lookup_lt_is_Some_2 Ts sol2 Hl2) as [t2 Ht2].
  destruct (lookup_lt_is_Some_2 fx sol1 ltac:(lia)) as [f1 Hf1].
  destruct (lookup_lt_is_Some_2 fx sol2 ltac:(lia)) as [f2 Hf2].
  rewrite (exchange_pair_eval th fx index i Ts g sol1 sol2 t1 f1 t2 f2)
    by first [assumption
             | exact (proj1 (Forall_lookup _ _) Hnz _ _ Ht1)
             | exact (proj1 (Forall_lookup _ _) Hnz _ _ Ht2)].
  destruct (Rgt_dec _ th); eexists _, _; reflexivity.
Qed.

Lemma sweep_pairs_total (th : R) fx index (positions : list nat) Ts g :
  Forall (fun i => (i + 1 < length index)%nat) positions ->
  Forall (fun sol => (sol < length Ts)%nat) index ->
  length fx = length Ts ->
  Forall (fun t => t <> 0) Ts ->
  exists Ts' g', PTSA.sweep_pairs th fx index positions (Ts, g) = Ok (Ts', g').
Proof.
  revert Ts g. induction positions as [|i rest IH];
    intros Ts g Hpos Hindex Hfx Hnz.
  - eexists _, _. reflexivity.
  - inversion Hpos as [|? ? Hi Hrest]; subst.
    destruct (exchange_pair_total th fx index i Ts g Hi Hindex Hfx Hnz)
      as (Ts1 & g1 & H1).
    cbn [PTSA.sweep_pairs]. rewrite H1. cbn [bind].
    pose proof (exchange_pair_Permutation _ _ _ _ _ _ _ _ H1) as Hperm.
    apply IH.
    + exact Hrest.
    + rewrite (Permutation_length Hperm). exact Hindex.
    + rewrite (Permutation_length Hperm). exact Hfx.
    + rewrite Hperm. exact Hnz.
Qed.

Lemma argsort_in_range Ts : Forall (fun sol => (sol < length Ts)%nat) (argsort Ts).
Proof.
  apply Forall_lookup. intros i sol H. exact (argsort_lookup_lt _ _ _ H).
Qed.

Lemma sweep_total (th : R) Ts fx g :
  length fx = length Ts ->
  Forall (fun t => t <> 0) Ts ->
  exists Ts' g', PTSA.sweep th Ts fx g = Ok (Ts', g').
Proof.
  intros Hfx Hnz. unfold PTSA.sweep. apply sweep_pairs_total.
  - apply Forall_forall. intros i Hi. apply elem_of_seq in Hi.
    rewrite argsort_length. lia.
  - apply argsort_in_range.
  - exact Hfx.
  - exact Hnz.
Qed.

Lemma sweep_rearranges (th : R) Ts fx g Ts' g' :
  PTSA.sweep th Ts fx g = Ok (Ts', g') ->
  Ts' ≡ₚ Ts /\ sorted Ts' = sorted Ts.
Proof.
  intros H. apply sweep_pairs_Permutation in H.
  split; [exact H | exact (sorted_Permutation _ _ H)].
Qed.

End Sweep.

Lemma map_on_fst {A B C : Type} (f : A -> C) (l1 l2 : list (A * B)) :
  l1.*1 = l2.*1 ->
  map (fun ab => f ab.1) l1 = map (fun ab => f ab.1) l2.
Proof.
  revert l2. induction l1 as [|a l1 IH]; intros [|b l2] H; simpl in *;
    try discriminate H; [reflexivity|].
  injection H as H1 H2. rewrite H1, (IH _ H2). reflexivity.
Qed.

(** ** The processes of a run *)

Section World.

Context {State : Type}.
Variable obj : State -> R.
Variable ptransition : PTSA.t State -> Rng -> State * Rng.
Variable marker_defined : bool.

Implicit Types (p : PTSA.t State) (g : Rng) (w : PTSA.world State).

Lemma never_worse_refl (pg : PTSA.t State * Rng) : never_worse pg pg.
Proof. split; [apply Rle_refl | auto]. Qed.

Lemma never_worse_trans (a b c : PTSA.t State * Rng) :
  never_worse a b -> never_worse b c -> never_worse a c.
Proof. intros [H1 I1] [H2 I2]. split; [lra | auto]. Qed.

Lemma worlds_trans w1 w2 w3 :
  Forall2 never_worse w1 w2 -> Forall2 never_worse w2 w3 ->
  Forall2 never_worse w1 w3.
Proof.
  intros H12. revert w3. induction H12 as [|a b l1 l2 Hab _ IH]; intros w3 H23.
  - inversion H23; subst. constructor.
  - inversion H23 as [|? c ? l3 Hbc Hrest]; subst.
    constructor; [exact (never_worse_trans _ _ _ Hab Hbc) | exact (IH _ Hrest)].
Qed.

Lemma panneals_never_worse p g p' g' : panneals p p' -> never_worse (p, g) (p', g').
Proof. intros ((_ & Hb & Hi) & _). split; assumption. Qed.

Lemma step_all_never_worse w w' :
  PTSA.step_all obj ptransition w = Ok w' -> Forall2 never_worse w w'.
Proof.
  revert w'. induction w as [|[p g] w IH]; simpl; intros w' H.
  - inversion H; subst. constructor.
  - apply bind_ok_inv in H as ([p1 g1] & Hstep & H).
    apply bind_ok_inv in H as (rest & Hrest & H).
    inversion H; subst. constructor; [|exact (IH _ Hrest)].
    apply panneals_never_worse. exact (pstep_panneals _ _ _ _ _ _ Hstep).
Qed.

Lemma gather_temperatures w :
  map (fun m => m.1.1) (PTSA.gather w) = temperatures w.
Proof. unfold PTSA.gather, temperatures. rewrite map_map. reflexivity. Qed.

Lemma gather_best_costs w :
  map (fun m => m.1.2) (PTSA.gather w) = best_costs w.
Proof. unfold PTSA.gather, best_costs. rewrite map_map. reflexivity. Qed.

(** The sweep leaves every object as it is; only the generator of rank 0
    advances. *)
Lemma exchange_inv w (data : list R) w' :
  PTSA.exchange w = Ok (data, w') ->
  data ≡ₚ temperatures w /\ w'.*1 = w.*1 /\ tail w'.*2 = tail w.*2.
Proof.
  destruct w as [|[p0 g0] rest]; simpl; intros H.
  - inversion H; subst. split; [reflexivity | split; reflexivity].
  - apply bind_ok_inv in H as ([data' g0'] & Hsweep & H).
    inversion H; subst. split; [|split; reflexivity].
    apply sweep_pairs_Permutation in Hsweep. rewrite Hsweep.
    rewrite <- gather_temperatures. reflexivity.
Qed.

(** After the scatter the temperatures are [data], and nothing else has
    changed. *)
Lemma scatter_inv (data : list R) w w' :
  PTSA.scatter data w = Ok w' ->
  temperatures w' = data
  /\ Forall2 (fun a b => retempered a.1 b.1 /\ b.2 = a.2) w w'.
Proof.
  revert w w'. induction data as [|T_new data IH]; intros [|[p g] w] w' H;
    simpl in H; try discriminate H.
  - inversion H; subst. split; [reflexivity | constructor].
  - apply bind_ok_inv in H as (rest & Hrest & H). inversion H; subst.
    destruct (IH _ _ Hrest) as [Ht Hf]. split.
    + unfold temperatures in *. simpl. rewrite Ht. reflexivity.
    + constructor; [|exact Hf]. split; [exists T_new|]; reflexivity.
Qed.

Lemma scatter_total (data : list R) w :
  length data = length w -> exists w', PTSA.scatter data w = Ok w'.
Proof.
  revert w. induction data as [|T_new data IH]; intros [|[p g] w] Hlen;
    simpl in Hlen; try discriminate Hlen.
  - exists []. reflexivity.
  - destruct (IH w ltac:(lia)) as [rest Hrest].
    simpl. rewrite Hrest. eexists. reflexivity.
Qed.

Lemma retempered_never_worse (a b : PTSA.t State * Rng) :
  retempered a.1 b.1 -> never_worse a b.
Proof. intros [T_new H]. unfold never_worse. rewrite H. simpl. split; [lra | auto]. Qed.

Lemma cool_down_never_worse (a : PTSA.t State * Rng) :
  never_worse a (PTSA.cool_down a.1, a.2).
Proof. unfold never_worse. simpl. split; [lra | auto]. Qed.

Lemma iteration_body_inv (it : nat) w w' :
  PTSA.iteration_body obj ptransition marker_defined it w = Ok w' ->
  exists w1 data w2 w3,
    PTSA.step_all obj ptransition w = Ok w1
    /\ PTSA.exchange w1 = Ok (data, w2)
    /\ PTSA.scatter data w2 = Ok w3
    /\ w' = map (fun pg => (PTSA.cool_down pg.1, pg.2)) w3.
Proof.
  unfold PTSA.iteration_body. intros H.
  apply bind_ok_inv in H as (w1 & H1 & H).
  apply bind_ok_inv in H as (u & _ & H).
  apply bind_ok_inv in H as ([data w2] & H2 & H).
  apply bind_ok_inv in H as (w3 & H3 & H).
  inversion H; subst. exists w1, data, w2, w3. auto.
Qed.

(** A pass of the loop that returns has completed its body. *)
Lemma iteration_inv (it : nat) w w' :
  PTSA.iteration obj ptransition marker_defined it w = Ok w' ->
  PTSA.iteration_body obj ptransition marker_defined it w = Ok w'.
Proof.
  unfold PTSA.iteration. intros H.
  apply bind_ok_inv in H as (w1 & H1 & H).
  apply bind_ok_inv in H as (u & _ & H).
  inversion H; subst. exact H1.
Qed.

Lemma iteration_body_never_worse (it : nat) w w' :
  PTSA.iteration_body obj ptransition marker_defined it w = Ok w' ->
  Forall2 never_worse w w'.
Proof.
  intros H.
  apply iteration_body_inv in H as (w1 & data & w2 & w3 & H1 & H2 & H3 & ->).
  apply (worlds_trans _ w1); [exact (step_all_never_worse _ _ H1)|].
  apply exchange_inv in H2 as (_ & Hobj & _).
  apply scatter_inv in H3 as (_ & Hsc).
  assert (H12 : Forall2 never_worse w1 w2).
  { clear -Hobj. revert w2 Hobj.
    induction w1 as [|a w1 IH]; intros [|b w2] Hobj; simpl in Hobj;
      try discriminate Hobj; constructor.
    - injection Hobj as Hab _. unfold never_worse. rewrite Hab.
      split; [apply Rle_refl | auto].
    - apply IH. injection Hobj as _ Hrest. exact Hrest. }
  apply (worlds_trans _ w2); [exact H12|].
  clear -Hsc. induction Hsc as [|a b l1 l2 [Hab _] _ IH]; simpl; constructor.
  - exact (never_worse_trans _ _ _ (retempered_never_worse _ _ Hab)
             (cool_down_never_worse b)).
  - exact IH.
Qed.

Lemma loop_never_worse (n it : nat) w w' :
  PTSA.loop obj ptransition marker_defined n it w = Ok w' ->
  Forall2 never_worse w w'.
Proof.
  revert it w. induction n as [|n IH]; simpl; intros it w H.
  - inversion H; subst. clear. induction w'; constructor; auto using never_worse_refl.
  - apply bind_ok_inv in H as (w1 & H1 & H2).
    exact (worlds_trans _ _ _
             (iteration_body_never_worse _ _ _ (iteration_inv _ _ _ H1))
             (IH _ _ H2)).
Qed.

(** The pickling at the end of a pass raises as soon as there is a rank. *)
Lemma save_all_raises w : w <> [] -> PTSA.save_all w = Raise NameError.
Proof. destruct w as [|[p g] w]; [contradiction | reflexivity]. Qed.

Lemma step_all_length w w' :
  PTSA.step_all obj ptransition w = Ok w' -> length w' = length w.
Proof.
  intros H. apply step_all_never_worse in H.
  symmetry. exact (Forall2_length _ _ _ H).
Qed.

(** No pass of the loop of [run] returns on a group with a rank. *)
Lemma iteration_raises (it : nat) w w' :
  w <> [] -> PTSA.iteration obj ptransition marker_defined it w <> Ok w'.
Proof.
  intros Hne H. unfold PTSA.iteration in H.
  apply bind_ok_inv in H as (w1 & H1 & H).
  apply iteration_body_never_worse in H1. apply Forall2_length in H1.
  rewrite save_all_raises in H; [discriminate H|].
  intros ->. destruct w; [contradiction | discriminate H1].
Qed.

Lemma iteration_fault (it : nat) w w' :
  w <> [] ->
  PTSA.iteration_body obj ptransition marker_defined it w = Ok w' ->
  PTSA.iteration obj ptransition marker_defined it w = Raise NameError.
Proof.
  intros Hne H. unfold PTSA.iteration. rewrite H. cbn [bind].
  rewrite save_all_raises; [reflexivity|].
  apply iteration_body_never_worse in H. apply Forall2_length in H.
  intros ->. destruct w; [contradiction | discriminate H].
Qed.

End World.

(** ** The body of an outer iteration returns *)

Section WorldTotal.

Context {State : Type}.
Variable obj : State -> R.
Variable ptransition : PTSA.t State -> Rng -> State * Rng.
Variable marker_defined : bool.

Implicit Types (p : PTSA.t State) (g : Rng) (w : PTSA.world State).

Lemma pstep_total p g :
  SA.T (PTSA.base p) <> 0 ->
  exists p' g', PTSA.step obj ptransition p g = Ok (p', g') /\ panneals p p'.
Proof.
  intros HT.
  destruct (ptrials_total obj ptransition
              (Z.to_nat (SA._reps (PTSA.base p))) p g HT) as (p' & g' & H).
  exists p', g'. split; [exact H | exact (pstep_panneals _ _ _ _ _ _ H)].
Qed.

Lemma step_all_total w :
  Forall (fun t => t <> 0) (temperatures w) ->
  exists w1,
    PTSA.step_all obj ptransition w = Ok w1
    /\ temperatures w1 = temperatures w /\ decays w1 = decays w.
Proof.
  induction w as [|[p g] w IH]; intros Hnz.
  - exists []. repeat split.
  - inversion Hnz as [|? ? HT Hrest]; subst.
    destruct (pstep_total p g HT) as (p' & g' & Hstep & ((Hp & _) & _)).
    destruct (IH Hrest) as (w1 & Hw1 & Ht & Hd).
    exists ((p', g') :: w1). cbn [PTSA.step_all]. rewrite Hstep. cbn [bind].
    rewrite Hw1. cbn [bind].
    destruct Hp as (HT' & _ & _ & Hd' & _).
    split; [reflexivity|]. unfold temperatures, decays in *. simpl.
    rewrite Ht, Hd, HT', Hd'. split; reflexivity.
Qed.

Lemma exchange_total w :
  Forall (fun t => t <> 0) (temperatures w) ->
  exists data w', PTSA.exchange w = Ok (data, w').
Proof.
  destruct w as [|[p0 g0] rest]; intros Hnz.
  - exists [], []. reflexivity.
  - unfold PTSA.exchange.
    rewrite gather_temperatures, gather_best_costs.
    destruct (sweep_total (PTSA.theta p0) (temperatures ((p0, g0) :: rest))
                (best_costs ((p0, g0) :: rest)) g0) as (data & g0' & Hsweep).
    + unfold temperatures, best_costs. rewrite !length_map. reflexivity.
    + exact Hnz.
    + rewrite Hsweep. eexists _, _. reflexivity.
Qed.

Lemma scatter_decays (data : list R) w w' :
  PTSA.scatter data w = Ok w' -> decays w' = decays w.
Proof.
  intros H. apply scatter_inv in H as (_ & Hf). unfold decays.
  induction Hf as [|a b l1 l2 [[T_new Hab] _] _ IH]; simpl.
  - reflexivity.
  - rewrite IH, Hab. reflexivity.
Qed.

(** From gather to scatter: every rank receives a temperature, and the
    temperatures received are a rearrangement of those gathered. *)
Lemma exchange_scatter_total w :
  Forall (fun t => t <> 0) (temperatures w) ->
  exists data w2 w3,
    PTSA.exchange w = Ok (data, w2)
    /\ PTSA.scatter data w2 = Ok w3
    /\ temperatures w3 ≡ₚ temperatures w
    /\ decays w3 = decays w.
Proof.
  intros Hnz. destruct (exchange_total w Hnz) as (data & w2 & Hex).
  destruct (exchange_inv _ _ _ Hex) as (Hperm & Hobj & _).
  assert (Hlen : length data = length w2).
  { rewrite (Permutation_length Hperm). unfold temperatures.
    rewrite length_map, <- (length_fmap fst w), <- Hobj, length_fmap. reflexivity. }
  destruct (scatter_total data w2 Hlen) as (w3 & Hsc).
  exists data, w2, w3. split; [exact Hex|]. split; [exact Hsc|].
  destruct (scatter_inv _ _ _ Hsc) as (Ht & _). rewrite Ht.
  split; [exact Hperm|].
  rewrite (scatter_decays _ _ _ Hsc).
  exact (map_on_fst (fun p => SA._decay (PTSA.base p)) _ _ Hobj).
Qed.

Lemma cool_down_temperatures w :
  Forall (fun t => t <> 0) (temperatures w) ->
  Forall (fun d => d <> 0) (decays w) ->
  Forall (fun t => t <> 0)
    (temperatures (map (fun pg => (PTSA.cool_down pg.1, pg.2)) w))
  /\ decays (map (fun pg => (PTSA.cool_down pg.1, pg.2)) w) = decays w.
Proof.
  unfold temperatures, decays. rewrite !map_map. simpl.
  intros Ht Hd. split; [|reflexivity].
  induction w as [|[p g] w IH]; simpl in *; constructor.
  - inversion Ht; inversion Hd; subst.
    apply Rmult_integral_contrapositive_currified; assumption.
  - inversion Ht; inversion Hd; subst. apply IH; assumption.
Qed.

Lemma step_all_verbose w w1 :
  PTSA.step_all obj ptransition w = Ok w1 ->
  reports marker_defined w -> reports marker_defined w1.
Proof.
  destruct w as [|[p g] w]; simpl; intros H.
  - inversion H; subst. auto.
  - apply bind_ok_inv in H as ([p1 g1] & Hs & H).
    apply bind_ok_inv in H as (rest & _ & H). inversion H; subst. simpl.
    apply pstep_panneals in Hs. destruct Hs as (((_ & _ & _ & _ & _ & _ & Hv & _) & _) & _).
    rewrite Hv. auto.
Qed.

Lemma log_progress_total (it : nat) w :
  reports marker_defined w -> PTSA.log_progress marker_defined it w = Ok tt.
Proof.
  destruct w as [|[p0 g0] rest]; [reflexivity|]. simpl. intros Hq.
  destruct (report_defined marker_defined (SA._verbose (PTSA.base p0)) it
              (PTSA.gather ((p0, g0) :: rest))) as (lines & Hl);
    [discriminate | exact Hq |].
  simpl in Hl. rewrite Hl. reflexivity.
Qed.

(** The body of a pass returns when no temperature is zero and rank 0 can
    log its rows. *)
Lemma iteration_body_total (it : nat) w :
  Forall (fun t => t <> 0) (temperatures w) ->
  reports marker_defined w ->
  exists w', PTSA.iteration_body obj ptransition marker_defined it w = Ok w'.
Proof.
  intros Ht Hq.
  destruct (step_all_total w Ht) as (w1 & H1 & Ht1 & Hd1).
  rewrite <- Ht1 in Ht.
  destruct (exchange_scatter_total w1 Ht) as (data & w2 & w3 & H2 & H3 & Ht3 & Hd3).
  eexists. unfold PTSA.iteration_body. rewrite H1. cbn [bind].
  rewrite (log_progress_total it w1 (step_all_verbose _ _ H1 Hq)). cbn [bind].
  rewrite H2. cbn [bind].
  rewrite H3. cbn [bind]. reflexivity.
Qed.

End WorldTotal.

(** ** The temperatures across a sweep *)

Section TemperatureMultiset.

Context {State : Type}.
Implicit Types (Ts fx : list R) (g : Rng) (w : PTSA.world State).

(** C3.  Whatever the number of replicas, the gathered temperatures and
    best costs and the draws, a sweep that returns hands back a
    rearrangement of the temperatures it was given: the sorted list after
    the sweep, before any decay, is the sorted list before it.  The same
    holds on the processes, between the temperatures gathered and those
    held after the scatter.  The sweep does return when no temperature is
    zero. *)
Theorem sweep_preserves_temperatures :
  (forall (th : R) Ts fx g Ts' g',
     PTSA.sweep th Ts fx g = Ok (Ts', g') ->
     Ts' ≡ₚ Ts /\ sorted Ts' = sorted Ts)
  /\ (forall (th : R) Ts fx g,
        length fx = length Ts -> Forall (fun t => t <> 0) Ts ->
        exists Ts' g',
          PTSA.sweep th Ts fx g = Ok (Ts', g')
          /\ Ts' ≡ₚ Ts /\ sorted Ts' = sorted Ts)
  /\ (forall w data w2 w3,
        PTSA.exchange w = Ok (data, w2) ->
        PTSA.scatter data w2 = Ok w3 ->
        temperatures w3 ≡ₚ temperatures w
        /\ sorted (temperatures w3) = sorted (temperatures w))
  /\ (forall w,
        Forall (fun t => t <> 0) (temperatures w) ->
        exists data w2 w3,
          PTSA.exchange w = Ok (data, w2)
          /\ PTSA.scatter data w2 = Ok w3
          /\ sorted (temperatures w3) = sorted (temperatures w)).
Proof.
  split; [|split; [|split]].
  - intros th Ts fx g Ts' g'. apply sweep_rearranges.
  - intros th Ts fx g Hfx Hnz.
    destruct (sweep_total th Ts fx g Hfx Hnz) as (Ts' & g' & H).
    exists Ts', g'. split; [exact H | exact (sweep_rearranges _ _ _ _ _ _ H)].
  - intros w data w2 w3 Hex Hsc.
    destruct (exchange_inv _ _ _ Hex) as (Hperm & _).
    destruct (scatter_inv _ _ _ Hsc) as (Ht & _).
    rewrite Ht. split; [exact Hperm | exact (sorted_Permutation _ _ Hperm)].
  - intros w Hnz.
    destruct (exchange_scatter_total w Hnz)
      as (data & w2 & w3 & Hex & Hsc & Hperm & _).
    exists data, w2, w3. split; [exact Hex|]. split; [exact Hsc|].
    exact (sorted_Permutation _ _ Hperm).
Qed.

End TemperatureMultiset.

(** ** The best cost over a run *)

Section BestCost.

Context {State : Type}.
Variable obj : State -> R.
Variable transition : SA.t State -> Rng -> State * Rng.
Variable ptransition : PTSA.t State -> Rng -> State * Rng.
Variable marker_defined : bool.

Implicit Types (s : SA.t State) (p : PTSA.t State) (g : Rng)
  (w : PTSA.world State).

Lemma run_loop_anneals fuel s g (k : nat) s' g' (k' : nat) :
  SA.run_loop obj transition fuel s g k = Some (Ok (s', g', k')) ->
  SA.best_y s' <= SA.best_y s
  /\ (SA.best_y s <= SA.y s -> SA.best_y s' <= SA.y s').
Proof.
  revert s g k. induction fuel as [|fuel IH]; intros s g k H; simpl in H;
    destruct (Rgt_dec (SA.T s) (SA.T_f s)); try discriminate H;
    try (inversion H; subst; split; [apply Rle_refl | auto]).
  destruct (SA.step obj transition s g) as [[s1 g1]|e] eqn:Hstep;
    [|discriminate H].
  apply step_anneals in Hstep as (_ & Hb & Hi).
  apply IH in H as [Hb' Hi']. simpl in Hb', Hi'. split; [lra | auto].
Qed.

Lemma exchange_best_costs w (data : list R) w' :
  PTSA.exchange w = Ok (data, w') -> best_costs w' = best_costs w.
Proof.
  intros H. apply exchange_inv in H as (_ & Hobj & _).
  exact (map_on_fst (fun p => SA.best_y (PTSA.base p)) _ _ Hobj).
Qed.

Lemma scatter_best_costs (data : list R) w w' :
  PTSA.scatter data w = Ok w' -> best_costs w' = best_costs w.
Proof.
  intros H. apply scatter_inv in H as (_ & Hf). unfold best_costs.
  induction Hf as [|a b l1 l2 [[T_new Hab] _] _ IH]; simpl.
  - reflexivity.
  - rewrite IH, Hab. reflexivity.
Qed.

Lemma cool_down_best_costs w :
  best_costs (map (fun pg => (PTSA.cool_down pg.1, pg.2)) w) = best_costs w.
Proof. unfold best_costs. rewrite map_map. reflexivity. Qed.

(** C7.  The best cost of a replica never grows: not in a trial, not in
    the cooling step, not over a whole [SA.run]; and for [PTSA] not in a
    trial, the exchange sweep, the scatter or the cooling step, hence not
    over the body of an outer iteration nor over any outer iterations that
    return, on any rank.  The body of an outer iteration does return when
    no temperature is zero and rank 0 can log its rows. *)
Theorem best_cost_never_increases :
  (forall s g s' g',
     SA.trial obj transition s g = Ok (s', g') -> SA.best_y s' <= SA.best_y s)
  /\ (forall s, SA.best_y (SA.cool_down s) = SA.best_y s)
  /\ (forall fuel s g k s' g' k',
        SA.run_loop obj transition fuel s g k = Some (Ok (s', g', k')) ->
        SA.best_y s' <= SA.best_y s)
  /\ (forall p g p' g',
        PTSA.trial obj ptransition p g = Ok (p', g') ->
        SA.best_y (PTSA.base p') <= SA.best_y (PTSA.base p))
  /\ (forall w data w',
        PTSA.exchange w = Ok (data, w') -> best_costs w' = best_costs w)
  /\ (forall data w w',
        PTSA.scatter data w = Ok w' -> best_costs w' = best_costs w)
  /\ (forall w,
        best_costs (map (fun pg => (PTSA.cool_down pg.1, pg.2)) w)
        = best_costs w)
  /\ (forall it w w',
        PTSA.iteration_body obj ptransition marker_defined it w = Ok w' ->
        Forall2 (fun a b =>
                   SA.best_y (PTSA.base b.1) <= SA.best_y (PTSA.base a.1))
          w w')
  /\ (forall n it w w',
        PTSA.loop obj ptransition marker_defined n it w = Ok w' ->
        Forall2 (fun a b =>
                   SA.best_y (PTSA.base b.1) <= SA.best_y (PTSA.base a.1))
          w w')
  /\ (forall it w,
        Forall (fun t => t <> 0) (temperatures w) ->
        reports marker_defined w ->
        exists w',
          PTSA.iteration_body obj ptransition marker_defined it w = Ok w'
          /\ Forall2 (fun a b =>
                        SA.best_y (PTSA.base b.1) <= SA.best_y (PTSA.base a.1))
               w w').
Proof.
  assert (Hweak : forall w w' : PTSA.world State,
    Forall2 never_worse w w' ->
    Forall2 (fun a b =>
               SA.best_y (PTSA.base b.1) <= SA.best_y (PTSA.base a.1)) w w').
  { intros w w' H.
    induction H as [|a b l1 l2 [Hab _] _ IH]; constructor; assumption. }
  repeat apply conj.
  - intros s g s' g' H. rewrite trial_unfold in H.
    exact (metropolis_best_le _ _ _ _ _ _ H).
  - reflexivity.
  - intros fuel s g k s' g' k' H.
    exact (proj1 (run_loop_anneals _ _ _ _ _ _ _ H)).
  - intros p g p' g' H. apply (ptrial_panneals obj ptransition) in H.
    destruct H as ((_ & Hb & _) & _). exact Hb.
  - apply exchange_best_costs.
  - apply scatter_best_costs.
  - apply cool_down_best_costs.
  - intros it w w' H. apply Hweak.
    exact (iteration_body_never_worse _ _ _ _ _ _ H).
  - intros n it w w' H. apply Hweak.
    exact (loop_never_worse _ _ _ _ _ _ _ H).
  - intros it w Ht Hq.
    destruct (iteration_body_total obj ptransition marker_defined it w Ht Hq)
      as (w' & H).
    exists w'. split; [exact H|]. apply Hweak.
    exact (iteration_body_never_worse _ _ _ _ _ _ H).
Qed.

End BestCost.

(** ** What a pair reads after earlier pairs have exchanged *)

Section Inputs.

Implicit Types (Ts fx : list R) (index : list nat) (g : Rng).

Lemma sweep_pairs_app (th : R) fx index (l1 l2 : list nat) (st : list R * Rng) :
  PTSA.sweep_pairs th fx index (l1 ++ l2) st =
  let* st' := PTSA.sweep_pairs th fx index l1 st in
  PTSA.sweep_pairs th fx index l2 st'.
Proof.
  revert st. induction l1 as [|i l1 IH]; intros st; cbn [PTSA.sweep_pairs app].
  - reflexivity.
  - destruct (PTSA.exchange_pair th fx index i st) as [st1|e]; cbn [bind].
    + apply IH.
    + reflexivity.
Qed.

Lemma sweep_upto_S (th : R) Ts fx g (j : nat) :
  PTSA.sweep_upto th Ts fx g (S j) =
  let* st := PTSA.sweep_upto th Ts fx g j in
  PTSA.exchange_pair th fx (argsort Ts) j st.
Proof.
  unfold PTSA.sweep_upto. rewrite seq_S, sweep_pairs_app. cbn [Nat.add].
  destruct (PTSA.sweep_pairs th fx (argsort Ts) (seq 0 j) (Ts, g)) as [st|e];
    cbn [bind]; [|reflexivity].
  cbn [PTSA.sweep_pairs].
  destruct (PTSA.exchange_pair th fx (argsort Ts) j st); reflexivity.
Qed.

Lemma sweep_is_sweep_upto (th : R) Ts fx g :
  PTSA.sweep th Ts fx g = PTSA.sweep_upto th Ts fx g (length Ts - 1).
Proof. reflexivity. Qed.

Lemma exchange_pair_length (th : R) fx index (i : nat) Ts g Ts' g' :
  PTSA.exchange_pair th fx index i (Ts, g) = Ok (Ts', g') ->
  length Ts' = length Ts.
Proof.
  intros H. exact (Permutation_length (exchange_pair_Permutation _ _ _ _ _ _ _ _ H)).
Qed.

(** The pairs before position [i] write only at the replicas found at
    positions [0 .. i] of the index. *)
Lemma sweep_upto_untouched (th : R) Ts fx g (i : nat) Ts_i g_i :
  PTSA.sweep_upto th Ts fx g i = Ok (Ts_i, g_i) ->
  length Ts_i = length Ts
  /\ forall (k sol : nat),
       (i < k)%nat -> argsort Ts !! k = Some sol -> Ts_i !! sol = Ts !! sol.
Proof.
  revert Ts_i g_i. induction i as [|j IH]; intros Ts_i g_i H.
  - unfold PTSA.sweep_upto in H. simpl in H. inversion H; subst. auto.
  - rewrite sweep_upto_S in H.
    apply bind_ok_inv in H as ([Ts_j g_j] & Hj & Hpair).
    destruct (IH _ _ Hj) as [Hlen Hsame].
    split; [rewrite (exchange_pair_length _ _ _ _ _ _ _ _ Hpair); exact Hlen|].
    intros k sol Hk Hsol.
    apply exchange_pair_inv in Hpair
      as (sol1 & sol2 & Hi1 & Hi2 & [-> | (t1 & t2 & Ht1 & Ht2 & ->)]).
    + apply (Hsame k); [lia | exact Hsol].
    + assert (sol <> sol1).
      { intros ->. pose proof (NoDup_lookup _ _ _ _ (argsort_NoDup Ts) Hsol Hi1). lia. }
      assert (sol <> sol2).
      { intros ->. pose proof (NoDup_lookup _ _ _ _ (argsort_NoDup Ts) Hsol Hi2). lia. }
      rewrite !list_lookup_insert_ne by auto.
      apply (Hsame k); [lia | exact Hsol].
Qed.

Lemma pair_inputs_defined Ts' fx index (i : nat) (n : nat) :
  length Ts' = n -> length fx = n ->
  Forall (fun sol => (sol < n)%nat) index ->
  (i + 1 < length index)%nat ->
  exists sol1 sol2 t1 f1 t2 f2,
    index !! i = Some sol1 /\ index !! (i + 1)%nat = Some sol2
    /\ Ts' !! sol1 = Some t1 /\ fx !! sol1 = Some f1
    /\ Ts' !! sol2 = Some t2 /\ fx !! sol2 = Some f2
    /\ PTSA.pair_inputs Ts' fx index i = Some (t1, f1, t2, f2).
Proof.
  intros HT Hfx Hindex Hi.
  destruct (lookup_lt_is_Some_2 index i ltac:(lia)) as [sol1 Hs1].
  destruct (lookup_lt_is_Some_2 index (i + 1) Hi) as [sol2 Hs2].
  pose proof (proj1 (Forall_lookup _ _) Hindex _ _ Hs1) as Hl1.
  pose proof (proj1 (Forall_lookup _ _) Hindex _ _ Hs2) as Hl2.
  simpl in Hl1, Hl2.
  destruct (lookup_lt_is_Some_2 Ts' sol1 ltac:(lia)) as [t1 Ht1].
  destruct (lookup_lt_is_Some_2 Ts' sol2 ltac:(lia)) as [t2 Ht2].
  destruct (lookup_lt_is_Some_2 fx sol1 ltac:(lia)) as [f1 Hf1].
  destruct (lookup_lt_is_Some_2 fx sol2 ltac:(lia)) as [f2 Hf2].
  exists sol1, sol2, t1, f1, t2, f2.
  unfold PTSA.pair_inputs. rewrite Hs1, Hs2, Ht1, Ht2, Hf1, Hf2. auto 10.
Qed.

End Inputs.

Section InputsClaim.

Implicit Types (Ts fx : list R) (g : Rng).

(** C1, as the code has it.  At every position [i] of the sweep the two
    best costs and the temperature of the upper replica are the gathered
    values.  The temperature of the lower replica is read from the list
    [T] that earlier pairs have written: it is the gathered value at
    position 0 and whenever the pair at [i-1] left the list as it was, and
    it is the lower temperature of the pair at [i-1] when that pair
    exchanged. *)
Theorem pair_inputs_in_sweep (th : R) Ts fx g (i : nat) Ts_i g_i :
  length fx = length Ts ->
  (i + 1 < length Ts)%nat ->
  PTSA.sweep_upto th Ts fx g i = Ok (Ts_i, g_i) ->
  exists t1 f1 t2 f2 t1',
    PTSA.pair_inputs Ts fx (argsort Ts) i = Some (t1, f1, t2, f2)
    /\ PTSA.pair_inputs Ts_i fx (argsort Ts) i = Some (t1', f1, t2, f2)
    /\ (i = 0%nat -> t1' = t1)
    /\ (forall j, i = S j ->
        exists Ts_j g_j a1 b1 a2 b2 sol1 sol2,
          PTSA.sweep_upto th Ts fx g j = Ok (Ts_j, g_j)
          /\ PTSA.pair_inputs Ts_j fx (argsort Ts) j = Some (a1, b1, a2, b2)
          /\ argsort Ts !! j = Some sol1 /\ argsort Ts !! i = Some sol2
          /\ ((Ts_i = Ts_j /\ t1' = t1)
              \/ (Ts_i = <[sol2 := a1]> (<[sol1 := a2]> Ts_j) /\ t1' = a1))).
Proof.
  intros Hfx Hi H.
  assert (Hidx : (i + 1 < length (argsort Ts))%nat)
    by (rewrite argsort_length; exact Hi).
  destruct (pair_inputs_defined Ts fx (argsort Ts) i (length Ts)
              eq_refl Hfx (argsort_in_range Ts) Hidx)
    as (s1 & s2 & t1 & f1 & t2 & f2 & Hs1 & Hs2 & Ht1 & Hf1 & Ht2 & Hf2 & Hin).
  destruct (sweep_upto_untouched _ _ _ _ _ _ _ H) as [Hlen_i Hsame_i].
  assert (Ht2_i : Ts_i !! s2 = Some t2).
  { rewrite (Hsame_i (i + 1)%nat s2 ltac:(lia) Hs2). exact Ht2. }
  destruct i as [|j].
  - unfold PTSA.sweep_upto in H. simpl in H. inversion H; subst.
    exists t1, f1, t2, f2, t1.
    split; [exact Hin|]. split; [exact Hin|]. split; [reflexivity|].
    intros j Hj. discriminate Hj.
  - rewrite sweep_upto_S in H.
    apply bind_ok_inv in H as ([Ts_j g_j] & Hj & Hpair).
    destruct (sweep_upto_untouched _ _ _ _ _ _ _ Hj) as [Hlen_j Hsame_j].
    assert (Hidx_j : (j + 1 < length (argsort Ts))%nat) by lia.
    destruct (pair_inputs_defined Ts_j fx (argsort Ts) j (length Ts)
                Hlen_j Hfx (argsort_in_range Ts) Hidx_j)
      as (r1 & r2 & a1 & b1 & a2 & b2
          & Hr1 & Hr2 & Ha1 & Hb1 & Ha2 & Hb2 & Hin_j).
    replace (j + 1)%nat with (S j) in Hr2 by lia.
    assert (r2 = s1) by congruence. subst r2.
    assert (Ht1_j : Ts_j !! s1 = Some t1).
    { rewrite (Hsame_j (S j) s1 ltac:(lia) Hs1). exact Ht1. }
    apply exchange_pair_inv in Hpair
      as (sol1 & sol2 & Hi1 & Hi2 & Hcases).
    replace (j + 1)%nat with (S j) in Hi2 by lia.
    assert (sol1 = r1) by congruence. assert (sol2 = s1) by congruence.
    subst sol1 sol2.
    destruct Hcases as [-> | (u1 & u2 & Hu1 & Hu2 & ->)].
    + exists t1, f1, t2, f2, t1.
      split; [exact Hin|]. split.
      { unfold PTSA.pair_inputs. rewrite Hs1, Hs2, Ht1_j, Hf1, Ht2_i, Hf2.
        reflexivity. }
      split; [intros Hz; discriminate Hz|].
      intros j' Hj'. injection Hj' as <-.
      exists Ts_j, g_j, a1, b1, a2, b2, r1, s1.
      split; [exact Hj|]. split; [exact Hin_j|].
      split; [exact Hr1|]. split; [exact Hs1|]. left. auto.
    + assert (u1 = a1) by congruence. assert (u2 = a2) by congruence.
      subst u1 u2.
      assert (Ha1_i : <[s1 := a1]> (<[r1 := a2]> Ts_j) !! s1 = Some a1).
      { apply list_lookup_insert_eq. rewrite length_insert.
        exact (lookup_lt_Some _ _ _ Ht1_j). }
      exists t1, f1, t2, f2, a1.
      split; [exact Hin|]. split.
      { unfold PTSA.pair_inputs. rewrite Hs1, Hs2, Ha1_i, Hf1, Ht2_i, Hf2.
        reflexivity. }
      split; [intros Hz; discriminate Hz|].
      intros j' Hj'. injection Hj' as <-.
      exists Ts_j, g_j, a1, b1, a2, b2, r1, s1.
      split; [exact Hj|]. split; [exact Hin_j|].
      split; [exact Hr1|]. split; [exact Hs1|]. right. auto.
Qed.

End InputsClaim.

(** ** A step returns *)

Section StepReturns.

Context {State : Type}.
Variable obj : State -> R.
Variable transition : SA.t State -> Rng -> State * Rng.

Implicit Types (s : SA.t State) (g : Rng).

Lemma step_total s g :
  SA.T s <> 0 ->
  exists s' g', SA.step obj transition s g = Ok (s', g') /\ anneals s s'.
Proof.
  intros HT. destruct (trials_total obj transition (Z.to_nat (SA._reps s)) s g HT)
    as (s' & g' & H).
  exists s', g'. split; [exact H | exact (step_anneals _ _ _ _ _ _ H)].
Qed.

End StepReturns.

(** ** A single replica *)

Section SingleReplica.

Context {State : Type}.
Variable obj : State -> R.
Variable transition : SA.t State -> Rng -> State * Rng.
Variable ptransition : PTSA.t State -> Rng -> State * Rng.
Variable marker_defined : bool.

Implicit Types (s : SA.t State) (p : PTSA.t State) (g : Rng).

Lemma sweep_single (th T1 fx1 : R) g : PTSA.sweep th [T1] [fx1] g = Ok ([T1], g).
Proof. reflexivity. Qed.

Lemma set_T_same s : SA.set_T s (SA.T s) = s.
Proof. destruct s; reflexivity. Qed.

Lemma set_base_same p : PTSA.set_base p (PTSA.base p) = p.
Proof. destruct p; reflexivity. Qed.

Lemma ptrials_base (n : nat) p g :
  proposals_agree transition ptransition ->
  PTSA.trials obj ptransition n p g =
  let* (s', g') := SA.trials obj transition n (PTSA.base p) g in
  Ok (PTSA.set_base p s', g').
Proof.
  intros Hsame. revert p g. induction n as [|n IH]; intros p g.
  - simpl. rewrite set_base_same. reflexivity.
  - cbn [PTSA.trials SA.trials]. rewrite ptrial_unfold, trial_unfold, Hsame.
    destruct (SA.metropolis _ _ _ _) as [[s1 g1]|e]; cbn [bind]; [|reflexivity].
    rewrite IH. reflexivity.
Qed.

Lemma pstep_base p g :
  proposals_agree transition ptransition ->
  PTSA.step obj ptransition p g =
  let* (s', g') := SA.step obj transition (PTSA.base p) g in
  Ok (PTSA.set_base p s', g').
Proof. intros Hsame. unfold PTSA.step, SA.step. apply ptrials_base. exact Hsame. Qed.

Lemma iteration_body_single (it : nat) p g :
  proposals_agree transition ptransition ->
  reports marker_defined [(p, g)] ->
  PTSA.iteration_body obj ptransition marker_defined it [(p, g)] =
  let* (s1, g1) := SA.step obj transition (PTSA.base p) g in
  Ok [(PTSA.set_base p (SA.cool_down s1), g1)].
Proof.
  intros Hsame Hq. unfold PTSA.iteration_body.
  destruct (PTSA.step_all obj ptransition [(p, g)]) as [w1|e] eqn:Hall.
  - cbn [bind].
    rewrite (log_progress_total marker_defined it w1
               (step_all_verbose obj ptransition marker_defined _ _ Hall Hq)).
    cbn [bind]. cbn [PTSA.step_all] in Hall.
    rewrite (pstep_base p g Hsame) in Hall.
    destruct (SA.step obj transition (PTSA.base p) g) as [[s1 g1]|e];
      cbn [bind] in *; [|discriminate Hall].
    injection Hall as <-.
    unfold PTSA.exchange, PTSA.gather. cbn [map fst snd PTSA.base PTSA.set_base].
    rewrite sweep_single. cbn [bind PTSA.scatter map fst snd PTSA.base PTSA.set_base].
    rewrite set_T_same. reflexivity.
  - cbn [bind]. cbn [PTSA.step_all] in Hall.
    rewrite (pstep_base p g Hsame) in Hall.
    destruct (SA.step obj transition (PTSA.base p) g) as [[s1 g1]|e'];
      cbn [bind] in *; [discriminate Hall|].
    injection Hall as <-. reflexivity.
Qed.

Lemma loop_raises (n it : nat) (w w' : PTSA.world State) :
  w <> [] -> (0 < n)%nat ->
  PTSA.loop obj ptransition marker_defined n it w <> Ok w'.
Proof.
  intros Hne Hn H. destruct n as [|n]; [lia|]. cbn [PTSA.loop] in H.
  apply bind_ok_inv in H as (w1 & H1 & _).
  exact (iteration_raises obj ptransition marker_defined it w w1 Hne H1).
Qed.

Lemma run_budget_total (n : nat) s g :
  SA.T s <> 0 -> SA._decay s <> 0 ->
  exists s' g', SA.run_budget obj transition n s g = Ok (s', g').
Proof.
  revert s g. induction n as [|n IH]; intros s g HT Hd.
  - exists s, g. reflexivity.
  - destruct (trials_total obj transition (Z.to_nat (SA._reps s)) s g HT)
      as (s1 & g1 & Hstep).
    pose proof (step_anneals obj transition s g s1 g1 Hstep)
      as ((HT1 & _ & _ & Hd1 & _) & _).
    cbn [SA.run_budget]. unfold SA.step. rewrite Hstep. cbn [bind].
    apply IH; unfold SA.cool_down; cbn [SA.set_T SA.T SA._decay];
      [rewrite HT1, Hd1 | rewrite Hd1; exact Hd].
    apply Rmult_integral_contrapositive_currified; assumption.
Qed.

(** C9, as the code has it.  With one replica the sweep has no pair to
    visit (the list of temperatures and the generator come back as they
    were), and the body of an outer iteration of [PTSA.run] is one [step]
    followed by one [cool_down], as in plain SA driven by a budget.  But
    every outer iteration ends with [save_var], which raises [NameError]:
    with a budget of at least one iteration [PTSA.run] never returns, where
    the budget-driven SA run does; it returns only when the budget is
    empty, and then the initial best state. *)
Theorem single_replica_run :
  (forall (th T1 fx1 : R) g,
     seq 0 (length [T1] - 1) = []
     /\ PTSA.sweep th [T1] [fx1] g = Ok ([T1], g))
  /\ (proposals_agree transition ptransition ->
      forall (it : nat) p g,
        reports marker_defined [(p, g)] ->
        PTSA.iteration_body obj ptransition marker_defined it [(p, g)] =
        let* (s1, g1) := SA.step obj transition (PTSA.base p) g in
        Ok [(PTSA.set_base p (SA.cool_down s1), g1)])
  /\ (forall p g results,
        (0 < SA._iters (PTSA.base p))%Z ->
        PTSA.run obj ptransition marker_defined [(p, g)] <> Ok results)
  /\ (proposals_agree transition ptransition ->
      forall p g,
        (0 < SA._iters (PTSA.base p))%Z ->
        reports marker_defined [(p, g)] ->
        SA.T (PTSA.base p) <> 0 -> SA._decay (PTSA.base p) <> 0 ->
        PTSA.run obj ptransition marker_defined [(p, g)] = Raise NameError
        /\ exists s' g',
             SA.run_budget obj transition
               (Z.to_nat (SA._iters (PTSA.base p))) (PTSA.base p) g
             = Ok (s', g'))
  /\ (forall p g,
        (SA._iters (PTSA.base p) <= 0)%Z ->
        PTSA.run obj ptransition marker_defined [(p, g)]
        = Ok [(SA.best_x (PTSA.base p), SA.best_y (PTSA.base p))]).
Proof.
  split; [|split; [|split; [|split]]].
  - intros. split; reflexivity.
  - intros Hsame it p g Hq. apply iteration_body_single; assumption.
  - intros p g results Hit H. unfold PTSA.run in H.
    cbn [imap fst snd PTSA.set_rank PTSA.base forallb] in H.
    rewrite Z.eqb_refl in H. cbn [andb] in H.
    apply bind_ok_inv in H as (w' & Hloop & _).
    revert Hloop. apply loop_raises; [discriminate | lia].
  - intros Hsame p g Hit Hq HT Hd. split.
    + unfold PTSA.run.
      cbn [imap fst snd PTSA.set_rank PTSA.base forallb].
      rewrite Z.eqb_refl. cbn [andb].
      destruct (Z.to_nat (SA._iters (PTSA.base p))) as [|n] eqn:Hn; [lia|].
      cbn [PTSA.loop].
      set (p0 := PTSA.set_rank p 0).
      destruct (iteration_body_total obj ptransition marker_defined 0
                  [(p0, g)]) as (w' & Hbody).
      { constructor; [exact HT | constructor]. }
      { exact Hq. }
      assert (Hne : [(p0, g)] <> []) by discriminate.
      rewrite (iteration_fault obj ptransition marker_defined 0 _ w' Hne Hbody).
      reflexivity.
    + apply run_budget_total; assumption.
  - intros p g Hit. unfold PTSA.run.
    cbn [imap fst snd PTSA.set_rank PTSA.base forallb].
    rewrite Z.eqb_refl. cbn [andb].
    replace (Z.to_nat (SA._iters (PTSA.base p))) with 0%nat by lia.
    reflexivity.
Qed.

End SingleReplica.

(** * Properties of the binary64 layer *)

(** ** Comparisons *)

Lemma above_floor_nonzero (T_f T : float) :
  (0 <=? T_f)%float = true -> (T_f <? T)%float = true ->
  (T =? 0)%float = false.
Proof.
  rewrite FloatAxioms.leb_spec, FloatAxioms.ltb_spec, FloatAxioms.eqb_spec.
  change (Prim2SF 0) with (S754_zero false).
  destruct (Prim2SF T_f) as [s|s| |s m e], (Prim2SF T) as [s'|s'| |s' m' e'];
    try destruct s; try destruct s'; cbn; intros; congruence.
Qed.

Lemma draw_not_negative (u : float) :
  (0 <=? u)%float = true -> (u <? 0)%float = false.
Proof.
  rewrite FloatAxioms.leb_spec, FloatAxioms.ltb_spec.
  change (Prim2SF 0) with (S754_zero false).
  destruct (Prim2SF u) as [s|s| |s m e]; try destruct s; cbn; intros;
    congruence.
Qed.

(** ** The schedule of [SA.run] *)

Section Schedule64.

Context {State : Type}.
Variable obj : State -> float.
Variable transition : SA64.t State -> B64.Rng -> State * B64.Rng.
Variable np_exp : float -> float.
Variable numpy_costs : bool.

Implicit Types (s : SA64.t State) (g : B64.Rng).

Lemma same_schedule_refl s : same_schedule s s.
Proof. repeat split. Qed.

Lemma same_schedule_trans s1 s2 s3 :
  same_schedule s1 s2 -> same_schedule s2 s3 -> same_schedule s1 s3.
Proof.
  intros (a1 & a2 & a3 & a4) (b1 & b2 & b3 & b4).
  repeat split; congruence.
Qed.

Lemma accept64_schedule s (x' : State) (y' : float) :
  same_schedule s (SA64.accept s x' y').
Proof. unfold SA64.accept. destruct (_ <? _)%float; repeat split. Qed.

Lemma metropolis64_schedule s (x' : State) (y' : float) g s' g' :
  SA64.metropolis np_exp numpy_costs s x' y' g = Ok (s', g') -> same_schedule s s'.
Proof.
  unfold SA64.metropolis. intros H.
  apply bind_ok_inv in H as ([acc g1] & _ & H).
  destruct acc; inversion H; subst;
    [apply accept64_schedule | apply same_schedule_refl].
Qed.

Lemma trials64_schedule (n : nat) s g s' g' :
  SA64.trials obj transition np_exp numpy_costs n s g = Ok (s', g') ->
  same_schedule s s'.
Proof.
  revert s g. induction n as [|n IH]; simpl; intros s g H.
  - inversion H; subst. apply same_schedule_refl.
  - apply bind_ok_inv in H as ([s1 g1] & H1 & H).
    unfold SA64.trial in H1. destruct (transition s g) as [x' g0].
    apply metropolis64_schedule in H1.
    exact (same_schedule_trans _ _ _ H1 (IH _ _ H)).
Qed.

Lemma accepts64_total s (df : float) g :
  numpy_costs = true \/ (SA64.T s =? 0)%float = false ->
  exists r, SA64.accepts np_exp numpy_costs s df g = Ok r.
Proof.
  intros Hsafe. unfold SA64.accepts, B64.quotient.
  destruct (df <? 0)%float; [eexists; reflexivity|].
  destruct Hsafe as [-> | ->]; [|destruct numpy_costs];
    cbn [bind]; eexists; reflexivity.
Qed.

Lemma trials64_total (n : nat) s g :
  numpy_costs = true \/ (SA64.T s =? 0)%float = false ->
  exists s' g', SA64.trials obj transition np_exp numpy_costs n s g = Ok (s', g').
Proof.
  revert s g. induction n as [|n IH]; intros s g Hsafe.
  - exists s, g. reflexivity.
  - cbn [SA64.trials].
    destruct (SA64.trial obj transition np_exp numpy_costs s g) as [[s1 g1]|e] eqn:H1.
    + cbn [bind]. apply IH.
      unfold SA64.trial in H1. destruct (transition s g) as [x' g0].
      apply metropolis64_schedule in H1 as (HT & _). rewrite HT. exact Hsafe.
    + exfalso. unfold SA64.trial in H1. destruct (transition s g) as [x' g0].
      unfold SA64.metropolis in H1.
      destruct (accepts64_total s (obj x' - SA64.y s)%float g0 Hsafe)
        as ([acc g1] & Hacc).
      rewrite Hacc in H1. cbn [bind] in H1. destruct acc; discriminate H1.
Qed.

Lemma step64_total s g :
  divides_safely numpy_costs (SA64.T_f s) ->
  (SA64.T_f s <? SA64.T s)%float = true ->
  exists s' g',
    SA64.step obj transition np_exp numpy_costs s g = Ok (s', g')
    /\ same_schedule s s'.
Proof.
  intros Hsafe Hgo.
  destruct (trials64_total (Z.to_nat (SA64._reps s)) s g) as (s' & g' & H).
  { destruct Hsafe as [Hn | Hf]; [left; exact Hn | right].
    exact (above_floor_nonzero _ _ Hf Hgo). }
  exists s', g'. split; [exact H | exact (trials64_schedule _ _ _ _ _ H)].
Qed.

(** If the [n]-th cooled temperature is the first that does not exceed
    [T_f], the loop makes exactly [n] passes, given at least that much
    fuel. *)
Lemma run_loop64_passes (n fuel : nat) s g (k : nat) :
  divides_safely numpy_costs (SA64.T_f s) ->
  (forall j : nat, (j < n)%nat ->
     (SA64.T_f s <? cooled j (SA64.T s) (SA64._decay s))%float = true) ->
  (SA64.T_f s <? cooled n (SA64.T s) (SA64._decay s))%float = false ->
  (n <= fuel)%nat ->
  exists s' g',
    SA64.run_loop obj transition np_exp numpy_costs fuel s g k
    = Some (Ok (s', g', (k + n)%nat))
    /\ SA64.T s' = cooled n (SA64.T s) (SA64._decay s)
    /\ SA64.T_f s' = SA64.T_f s.
Proof.
  revert fuel s g k.
  induction n as [|n IH]; intros fuel s g k Hsafe Hbefore Hat Hfuel.
  - exists s, g. simpl in Hat. rewrite Nat.add_0_r.
    split; [|split; reflexivity].
    destruct fuel; simpl; rewrite Hat; reflexivity.
  - destruct fuel as [|fuel]; [lia|].
    pose proof (Hbefore 0%nat ltac:(lia)) as Hgo. simpl in Hgo.
    destruct (step64_total s g Hsafe Hgo) as (s1 & g1 & Hstep & Hsame).
    destruct Hsame as (HT1 & HTf1 & Hd1 & _).
    cbn [SA64.run_loop]. rewrite Hgo, Hstep.
    destruct (IH fuel (SA64.cool_down s1) g1 (S k)) as (s' & g' & Hrun & HT' & HTf').
    + simpl. rewrite HTf1. exact Hsafe.
    + intros j Hj. simpl. rewrite HT1, Hd1, HTf1.
      exact (Hbefore (S j) ltac:(lia)).
    + simpl. rewrite HT1, Hd1, HTf1. exact Hat.
    + lia.
    + exists s', g'. replace (k + S n)%nat with (S k + n)%nat by lia.
      split; [exact Hrun|]. simpl in HT', HTf'.
      rewrite HT', HTf', HT1, Hd1, HTf1. split; reflexivity.
Qed.

(** If every cooled temperature exceeds [T_f], the loop never returns. *)
Lemma run_loop64_never (fuel : nat) s g (k : nat) :
  divides_safely numpy_costs (SA64.T_f s) ->
  (forall j : nat,
     (SA64.T_f s <? cooled j (SA64.T s) (SA64._decay s))%float = true) ->
  SA64.run_loop obj transition np_exp numpy_costs fuel s g k = None.
Proof.
  revert s g k. induction fuel as [|fuel IH]; intros s g k Hsafe Hall.
  - pose proof (Hall 0%nat) as Hgo. cbn [cooled] in Hgo.
    cbn [SA64.run_loop]. rewrite Hgo. reflexivity.
  - pose proof (Hall 0%nat) as Hgo. cbn [cooled] in Hgo.
    destruct (step64_total s g Hsafe Hgo) as (s1 & g1 & Hstep & Hsame).
    destruct Hsame as (HT1 & HTf1 & Hd1 & _).
    cbn [SA64.run_loop]. rewrite Hgo, Hstep. apply IH.
    + simpl. rewrite HTf1. exact Hsafe.
    + intros j. simpl. rewrite HT1, Hd1, HTf1. exact (Hall (S j)).
Qed.

End Schedule64.

(** ** Schedules that are checked by running them *)

Lemma stays_above_cooled (n : nat) (T_f T d : float) :
  stays_above n T_f T d = true ->
  forall j : nat, (j < n)%nat -> (T_f <? cooled j T d)%float = true.
Proof.
  revert T. induction n as [|n IH]; simpl; intros T H j Hj; [lia|].
  apply andb_prop in H as [H0 H].
  destruct j as [|j]; [exact H0|]. simpl. apply IH; [exact H | lia].
Qed.

Lemma cooled_add (a b : nat) (T d : float) :
  cooled (a + b) T d = cooled b (cooled a T d) d.
Proof. revert T. induction a as [|a IH]; simpl; intros T; auto. Qed.

Lemma cooled_fixed (n : nat) (T d : float) :
  (T * d)%float = T -> cooled n T d = T.
Proof. intros H. induction n as [|n IH]; simpl; [reflexivity|]. rewrite H. exact IH. Qed.

(** A schedule that stays above [T_f] for [n] coolings and is then at a
    temperature that cooling does not change stays above [T_f] for ever. *)
Lemma stays_above_for_ever (n : nat) (T_f T d : float) :
  stays_above (S n) T_f T d = true ->
  (cooled n T d * d)%float = cooled n T d ->
  forall j : nat, (T_f <? cooled j T d)%float = true.
Proof.
  intros Habove Hfix j.
  destruct (Nat.lt_ge_cases j (S n)) as [Hlt|Hge].
  - exact (stays_above_cooled _ _ _ _ Habove j Hlt).
  - replace j with (n + (j - n))%nat by lia.
    rewrite cooled_add, (cooled_fixed _ _ _ Hfix).
    exact (stays_above_cooled _ _ _ _ Habove n ltac:(lia)).
Qed.

(** ** The values of binary64 numbers *)

Lemma powerRZ_2_neg (p : positive) :
  powerRZ 2 (Z.neg p) = / IZR (2 ^ Z.pos p).
Proof. unfold powerRZ. f_equal. rewrite pow_IZR, positive_nat_Z. reflexivity. Qed.

Lemma to_R_finite (x : float) (s : bool) (m p : positive) :
  Prim2SF x = S754_finite s m (Z.neg p) ->
  B64.to_R x = (if s then -1 else 1) * (IZR (Z.pos m) / IZR (2 ^ Z.pos p)).
Proof.
  intros H. unfold B64.to_R. rewrite H, powerRZ_2_neg. unfold Rdiv.
  destruct s; ring.
Qed.

(** Rewrites [B64.to_R x] to the fraction that [x] is, given the sign, the
    mantissa and the exponent of [x]. *)
Ltac float_value x s m p :=
  rewrite (to_R_finite x s m p) by (vm_compute; reflexivity);
  let k := fresh "k" in
  set (k := (2 ^ Z.pos p)%Z); vm_compute in k; subst k; cbv beta iota.

Lemma one_value : B64.to_R 1 = 1.
Proof. float_value 1%float false 4503599627370496%positive 52%positive. lra. Qed.

Lemma hundred_value : B64.to_R 100 = 100.
Proof. float_value 100%float false 7036874417766400%positive 46%positive. lra. Qed.

Lemma nine_tenths_value :
  B64.to_R nine_tenths = 8106479329266893 / 9007199254740992.
Proof.
  float_value nine_tenths false 8106479329266893%positive 53%positive. lra.
Qed.

Lemma floor_29_value : B64.to_R floor_29 = 1 - / 536870912.
Proof.
  float_value floor_29 false 9007199237963776%positive 53%positive. lra.
Qed.

Lemma decay_30_value : B64.to_R decay_30 = 1 - / 1073741824.
Proof.
  float_value decay_30 false 9007199246352384%positive 53%positive. lra.
Qed.

Lemma below_one_value : B64.to_R below_one = 1 - / 9007199254740992.
Proof.
  float_value below_one false 9007199254740991%positive 53%positive. lra.
Qed.

Lemma tiniest_value : 0 < B64.to_R tiniest < 1.
Proof.
  float_value tiniest false 1%positive 1074%positive. lra.
Qed.

(** ** The exponential near zero, and the ceiling of a quotient of logarithms *)

Lemma exp_neg_bound (x : R) : 0 < x < 1 -> exp (- x) < 1 - x / 2.
Proof.
  intros [H0 H1]. rewrite exp_Ropp.
  pose proof (exp_ineq1 x ltac:(lra)) as He.
  assert (Hpos : 0 < exp x) by apply exp_pos.
  apply (Rmult_lt_reg_r (exp x)); [exact Hpos|].
  rewrite Rinv_l by lra. nra.
Qed.

Lemma ceil_log_eq (r d : R) (n : nat) :
  0 < r -> 0 < d < 1 -> d ^ S n <= r -> r < d ^ n ->
  Zceil (ln r / ln d) = Z.of_nat (S n).
Proof.
  intros Hr [Hd0 Hd1] Hle Hlt.
  assert (Hd : ln d < 0).
  { rewrite <- ln_1. apply ln_increasing; lra. }
  assert (Hn : INR n * ln d > ln r).
  { rewrite <- ln_pow by lra. apply ln_increasing; [lra | exact Hlt]. }
  assert (HS : INR (S n) * ln d <= ln r).
  { rewrite <- ln_pow by lra.
    destruct Hle as [Hle | Heq].
    - left. apply ln_increasing; [apply pow_lt; lra | exact Hle].
    - right. rewrite Heq. reflexivity. }
  apply Zceil_eq.
  set (q := ln r / ln d).
  assert (Hq : q * ln d = ln r) by (unfold q; field; lra).
  rewrite <- INR_IZR_INZ. rewrite S_INR in *.
  replace (IZR (Z.of_nat (S n) - 1)) with (INR n).
  2:{ rewrite minus_IZR, <- INR_IZR_INZ, S_INR. lra. }
  split; nra.
Qed.

(** The formula of the specification at the values of the binary64
    numbers [100], [1] and [0.9]. *)
Lemma hundred_to_one64 :
  Zceil (ln (B64.to_R 1 / B64.to_R 100) / ln (B64.to_R nine_tenths)) = 44%Z.
Proof.
  rewrite nine_tenths_value, hundred_value, one_value.
  apply (ceil_log_eq _ _ 43); simpl; lra.
Qed.

(** The same formula at [T_i = 1], [T_f = 1 - 2^-29], [d = 1 - 2^-30]. *)
Lemma slow_formula :
  Zceil (ln (B64.to_R floor_29 / B64.to_R 1) / ln (B64.to_R decay_30)) = 3%Z.
Proof.
  rewrite floor_29_value, decay_30_value, one_value.
  apply (ceil_log_eq _ _ 2); simpl; lra.
Qed.

(** ** The pass count of [SA.run] *)

Section Termination.

Context {State : Type}.
Variable obj : State -> float.
Variable transition : SA64.t State -> B64.Rng -> State * B64.Rng.
Variable np_exp : float -> float.
Variable numpy_costs : bool.

Implicit Types (s : SA64.t State) (g : B64.Rng).

(** C8, as the code has it.  [SA.run] makes one pass per rounded product
    [T * d] until the temperature no longer exceeds [T_f].  If the [n]-th
    cooled temperature is the first that does not exceed [T_f], the loop
    makes exactly [n] passes and [run] returns [(best_x, best_y)]; if every
    cooled temperature exceeds [T_f], [run] never returns.  For
    [T_i = 100], [T_f = 1], [d = 0.9] the loop makes 44 passes, which is
    the ceiling [ceil(ln(T_f/T_i)/ln d)] of the specification. *)
Theorem sa_run_terminates :
  (forall s g (n : nat),
     divides_safely numpy_costs (SA64.T_f s) ->
     (forall j : nat, (j < n)%nat ->
        (SA64.T_f s <? cooled j (SA64.T s) (SA64._decay s))%float = true) ->
     (SA64.T_f s <? cooled n (SA64.T s) (SA64._decay s))%float = false ->
     forall fuel : nat, (n <= fuel)%nat ->
     exists s' g',
       SA64.run_loop obj transition np_exp numpy_costs fuel s g 0
       = Some (Ok (s', g', n))
       /\ SA64.run obj transition np_exp numpy_costs fuel s g
          = Some (Ok (SA64.best_x s', SA64.best_y s'))
       /\ SA64.T s' = cooled n (SA64.T s) (SA64._decay s)
       /\ (SA64.T_f s <? SA64.T s')%float = false)
  /\ (forall s g,
        divides_safely numpy_costs (SA64.T_f s) ->
        (forall j : nat,
           (SA64.T_f s <? cooled j (SA64.T s) (SA64._decay s))%float = true) ->
        forall fuel : nat,
          SA64.run obj transition np_exp numpy_costs fuel s g = None)
  /\ (forall (x0 : State) (reps iters verbose : Z) g (fuel : nat),
        (44 <= fuel)%nat ->
        exists s' g',
          SA64.run_loop obj transition np_exp numpy_costs fuel
            (SA64.init obj x0 100 1 nine_tenths reps iters verbose) g 0
          = Some (Ok (s', g', 44%nat)))
  /\ Zceil (ln (B64.to_R 1 / B64.to_R 100) / ln (B64.to_R nine_tenths))
     = 44%Z.
Proof.
  split; [|split; [|split]].
  - intros s g n Hsafe Hbefore Hat fuel Hfuel.
    destruct (run_loop64_passes obj transition np_exp numpy_costs n fuel s g 0
                Hsafe Hbefore Hat Hfuel) as (s' & g' & Hrun & HT' & HTf').
    exists s', g'. simpl in Hrun. split; [exact Hrun|].
    split; [unfold SA64.run; rewrite Hrun; reflexivity|].
    split; [exact HT'|]. rewrite HT'. exact Hat.
  - intros s g Hsafe Hall fuel. unfold SA64.run.
    rewrite (run_loop64_never obj transition np_exp numpy_costs fuel s g 0 Hsafe Hall).
    reflexivity.
  - intros x0 reps iters verbose g fuel Hfuel.
    destruct (run_loop64_passes obj transition np_exp numpy_costs 44 fuel
                (SA64.init obj x0 100 1 nine_tenths reps iters verbose) g 0)
      as (s' & g' & Hrun & _).
    + right. reflexivity.
    + apply stays_above_cooled. vm_compute. reflexivity.
    + vm_compute. reflexivity.
    + exact Hfuel.
    + exists s', g'. exact Hrun.
  - exact hundred_to_one64.
Qed.

End Termination.

(** ** The exchange of a pair *)

Lemma quotient_eval (numpy_costs : bool) (a b : float) :
  numpy_costs = true \/ (b =? 0)%float = false ->
  B64.quotient numpy_costs a b = Ok (a / b)%float.
Proof.
  unfold B64.quotient. intros [-> | ->]; [reflexivity|].
  destruct numpy_costs; reflexivity.
Qed.

Lemma exponent_eval (numpy_costs : bool) (Ts fx : list float)
  (sol1 sol2 : nat) (T1 fx1 T2 fx2 : float) :
  Ts !! sol1 = Some T1 -> fx !! sol1 = Some fx1 ->
  Ts !! sol2 = Some T2 -> fx !! sol2 = Some fx2 ->
  numpy_costs = true \/ ((T1 =? 0)%float = false /\ (T2 =? 0)%float = false) ->
  PTSA64.exponent numpy_costs Ts fx sol1 sol2
  = Ok (- fx2 / T1 - fx1 / T2 + fx2 / T2 + fx1 / T1)%float.
Proof.
  intros Ht1 Hf1 Ht2 Hf2 Hsafe. unfold PTSA64.exponent.
  rewrite (getitem_Some _ _ _ Hf2), (getitem_Some _ _ _ Ht1). cbn [bind].
  rewrite quotient_eval by tauto. cbn [bind].
  rewrite (getitem_Some _ _ _ Hf1), (getitem_Some _ _ _ Ht2). cbn [bind].
  rewrite !quotient_eval by tauto. reflexivity.
Qed.

Lemma exchange_pair64_eval (np_exp : float -> float) (numpy_costs : bool)
  (th : float) (fx : list float) (index : list nat) (i : nat)
  (Ts : list float) (g : B64.Rng) (sol1 sol2 : nat) (T1 fx1 T2 fx2 : float) :
  index !! i = Some sol1 -> index !! (i + 1)%nat = Some sol2 ->
  Ts !! sol1 = Some T1 -> fx !! sol1 = Some fx1 ->
  Ts !! sol2 = Some T2 -> fx !! sol2 = Some fx2 ->
  numpy_costs = true \/ ((T1 =? 0)%float = false /\ (T2 =? 0)%float = false) ->
  (th <? B64.stream g (B64.cursor g))%float = true ->
  PTSA64.exchange_pair np_exp numpy_costs th fx index i (Ts, g)
  = Ok (if (B64.stream g (S (B64.cursor g))
            <? np_exp (- fx2 / T1 - fx1 / T2 + fx2 / T2 + fx1 / T1))%float
        then <[sol2 := T1]> (<[sol1 := T2]> Ts) else Ts,
        B64.mkRng (B64.stream g) (S (S (B64.cursor g)))).
Proof.
  intros Hi1 Hi2 Ht1 Hf1 Ht2 Hf2 Hsafe Hgo. unfold PTSA64.exchange_pair.
  rewrite (getitem_Some _ _ _ Hi1), (getitem_Some _ _ _ Hi2). cbn [bind].
  unfold B64.rand. cbn [B64.stream B64.cursor]. rewrite Hgo.
  rewrite (exponent_eval numpy_costs Ts fx sol1 sol2 T1 fx1 T2 fx2)
    by assumption.
  cbn [bind].
  destruct (B64.stream g (S (B64.cursor g)) <? np_exp _)%float; [|reflexivity].
  rewrite (getitem_Some _ _ _ Ht2), (getitem_Some _ _ _ Ht1). reflexivity.
Qed.

Section ExchangeRule.

Context {State : Type}.

(** C6, as the code has it.  For a pair that is not skipped (the first
    draw exceeds [theta]) the rate is [np.exp] of the binary64 number
    [-fx2/T1 - fx1/T2 + fx2/T2 + fx1/T1], and the two temperatures are
    exchanged in the list iff the next draw is below the rate; costs and
    states are not touched by the sweep.  With [T1 = 1], [T2 = 2],
    [fx1 = 5], [fx2 = 3] the exponent is exactly 1, so the rate is
    [np.exp(1.0)]. *)
Theorem exchange_acceptance :
  (forall (np_exp : float -> float) (numpy_costs : bool) (th : float)
     (fx : list float) (index : list nat) (i : nat) (Ts : list float)
     (g : B64.Rng) (sol1 sol2 : nat) (T1 fx1 T2 fx2 : float),
     index !! i = Some sol1 -> index !! (i + 1)%nat = Some sol2 ->
     Ts !! sol1 = Some T1 -> fx !! sol1 = Some fx1 ->
     Ts !! sol2 = Some T2 -> fx !! sol2 = Some fx2 ->
     numpy_costs = true
     \/ ((T1 =? 0)%float = false /\ (T2 =? 0)%float = false) ->
     (th <? B64.stream g (B64.cursor g))%float = true ->
     let e := (- fx2 / T1 - fx1 / T2 + fx2 / T2 + fx1 / T1)%float in
     let rate := np_exp e in
     let v := B64.stream g (S (B64.cursor g)) in
     PTSA64.exponent numpy_costs Ts fx sol1 sol2 = Ok e
     /\ (exists Ts',
           PTSA64.exchange_pair np_exp numpy_costs th fx index i (Ts, g)
           = Ok (Ts', B64.mkRng (B64.stream g) (S (S (B64.cursor g))))
           /\ ((v <? rate)%float = true ->
               Ts' = <[sol2 := T1]> (<[sol1 := T2]> Ts))
           /\ ((v <? rate)%float = false -> Ts' = Ts))
     /\ (sol1 <> sol2 ->
         <[sol2 := T1]> (<[sol1 := T2]> Ts) !! sol1 = Some T2
         /\ <[sol2 := T1]> (<[sol1 := T2]> Ts) !! sol2 = Some T1))
  /\ PTSA64.exponent false [1; 2]%float [5; 3]%float 0 1 = Ok 1%float
  /\ (forall (w : PTSA.world State) data w',
        PTSA.exchange w = Ok (data, w') -> w'.*1 = w.*1).
Proof.
  split; [|split].
  - intros np_exp numpy_costs th fx index i Ts g sol1 sol2 T1 fx1 T2 fx2
      Hi1 Hi2 Ht1 Hf1 Ht2 Hf2 Hsafe Hgo e rate v.
    pose proof (exchange_pair64_eval np_exp numpy_costs th fx index i Ts g
                  sol1 sol2 T1 fx1 T2 fx2 Hi1 Hi2 Ht1 Hf1 Ht2 Hf2 Hsafe Hgo)
      as Hpair.
    fold e in Hpair. fold rate v in Hpair.
    split; [exact (exponent_eval _ _ _ _ _ _ _ _ _ Ht1 Hf1 Ht2 Hf2 Hsafe)|].
    split.
    + eexists. split; [exact Hpair|].
      destruct (v <? rate)%float; split; intros H;
        solve [reflexivity | discriminate H].
    + intros Hne.
      assert (Hl1 : (sol1 < length Ts)%nat) by exact (lookup_lt_Some _ _ _ Ht1).
      assert (Hl2 : (sol2 < length Ts)%nat) by exact (lookup_lt_Some _ _ _ Ht2).
      split.
      * rewrite list_lookup_insert_ne by auto.
        apply list_lookup_insert_eq. exact Hl1.
      * apply list_lookup_insert_eq. rewrite length_insert. exact Hl2.
  - vm_compute. reflexivity.
  - intros w data w' H. exact (proj1 (proj2 (exchange_inv _ _ _ H))).
Qed.

End ExchangeRule.

(** ** The quotient by a zero temperature *)



Section Unguarded.

Context {State : Type}.
Variable obj : State -> R.
Variable transition : SA.t State -> Rng -> State * Rng.
Variable ptransition : PTSA.t State -> Rng -> State * Rng.


End Unguarded.

(** ** The table of exponentials *)


Lemma minus_2_51_value : B64.to_R minus_2_51 = - / 2251799813685248.
Proof.
  float_value minus_2_51 true 4503599627370496%positive 103%positive. lra.
Qed.

Lemma rate_2_51_value : B64.to_R rate_2_51 = 1 - / 2251799813685248.
Proof.
  float_value rate_2_51 false 9007199254740988%positive 53%positive. lra.
Qed.

(** The entry of the table at [-2^-51] is the exponential rounded to the
    nearest binary64 number: it lies within [2^-102] of it, and the
    binary64 numbers just below 1 are [2^-53] apart. *)
Lemma exp_table_rounds :
  exp_table minus_2_51 = rate_2_51
  /\ B64.to_R rate_2_51 < exp (B64.to_R minus_2_51)
     < B64.to_R rate_2_51 + / 2251799813685248 * / 2251799813685248.
Proof.
  split; [vm_compute; reflexivity|].
  rewrite minus_2_51_value, rate_2_51_value.
  set (y := / 2251799813685248).
  assert (Hy : 0 < y < 1) by (unfold y; lra).
  split.
  - pose proof (exp_ineq1 (- y) ltac:(lra)). lra.
  - rewrite exp_Ropp.
    pose proof (exp_ineq1 y ltac:(lra)) as He.
    assert (Hpos : 0 < exp y) by apply exp_pos.
    apply (Rmult_lt_reg_r (exp y)); [exact Hpos|].
    rewrite Rinv_l by lra. nra.
Qed.

(** ** The trial statements on the concrete problem *)


Lemma warm_walk_trial :
  exists s' g',
    SA.trial cost_id walk warm quarter = Ok (s', g')
    /\ SA.y s' = 3 / 4 /\ SA.best_y s' = 3 / 4.
Proof.
  rewrite trial_unfold.
  assert (Hd : cost_id (walk warm quarter).1 - SA.y warm < 0).
  { concrete. lra. }
  rewrite metropolis_accepted by exact Hd.
  eexists _, _. split; [reflexivity|].
  destruct (accept_fields warm (walk warm quarter).1
              (cost_id (walk warm quarter).1)) as (_ & Hy & Hb & _).
  rewrite Hy. rewrite (proj2 (Hb ltac:(concrete; lra))).
  concrete. lra.
Qed.

Lemma pwarm_walk_trial :
  exists p' g', PTSA.trial cost_id pwalk pwarm quarter = Ok (p', g').
Proof.
  rewrite ptrial_unfold.
  assert (Hd : cost_id (pwalk pwarm quarter).1 - SA.y (PTSA.base pwarm) < 0).
  { concrete. lra. }
  rewrite metropolis_accepted by exact Hd.
  eexists _, _. reflexivity.
Qed.


Lemma best_le_current_witness :
  SA.best_y warm <= SA.y warm
  /\ exists s' g',
       SA.trial cost_id walk warm quarter = Ok (s', g')
       /\ SA.best_y s' <= SA.y s'.
Proof.
  assert (Hinv : SA.best_y warm <= SA.y warm) by (concrete; lra).
  split; [exact Hinv|].
  destruct warm_walk_trial as (s' & g' & Htrial & _).
  exists s', g'. split; [exact Htrial|].
  exact (proj1 (proj2 (proj2 (best_le_current cost_id walk pwalk)))
           warm quarter s' g' Hinv Htrial).
Defined.




(** ** The sweep on three replicas *)

Lemma exp_ge_1 (q : R) : 0 <= q -> 1 <= exp q.
Proof.
  intros [Hq | <-].
  - pose proof (exp_ineq1 q ltac:(lra)). lra.
  - rewrite exp_0. lra.
Qed.

Lemma argsort_ascending : argsort [1; 2; 3] = [0; 1; 2]%nat.
Proof.
  unfold argsort. simpl.
  repeat (let Hle := fresh "Hle" in
          destruct (Rle_dec _ _) as [Hle|Hle]; unfold key in Hle;
          simpl in Hle; try lra; simpl).
  reflexivity.
Qed.

(** Temperatures [1; 2; 3], best costs [5; 3; 1], [theta = 0] and every draw
    [1/2]: the first pair is attempted, its rate is [exp 1], it exchanges. *)
Lemma first_pair_exchanges :
  PTSA.sweep_upto 0 [1; 2; 3] [5; 3; 1] half 1
  = Ok ([2; 1; 3], mkRng (stream half) 2).
Proof.
  rewrite sweep_upto_S. unfold PTSA.sweep_upto. cbn [seq PTSA.sweep_pairs bind].
  rewrite argsort_ascending.
  rewrite (exchange_pair_eval 0 [5; 3; 1] [0; 1; 2]%nat 0 [1; 2; 3] half
             0 1 1 5 2 3) by (reflexivity || lra).
  simpl.
  destruct (Rgt_dec (1 / 2) 0) as [_|Hn]; [|lra].
  destruct (Rgt_dec _ (1 / 2)) as [_|Hn]; [reflexivity|].
  elim Hn. pose proof (exp_ge_1 (- (3) / 1 - 5 / 2 + 3 / 2 + 5 / 1) ltac:(lra)).
  lra.
Qed.

(** C1 fails on the code: after the first pair has exchanged, the second
    pair reads temperature 1 for its lower replica, where the gathered
    list has 2. *)
Lemma second_pair_reads_exchanged_temperature :
  PTSA.pair_inputs [2; 1; 3] [5; 3; 1] (argsort [1; 2; 3]) 1 = Some (1, 3, 3, 1)
  /\ PTSA.pair_inputs [1; 2; 3] [5; 3; 1] (argsort [1; 2; 3]) 1 = Some (2, 3, 3, 1)
  /\ ~ uses_gathered_inputs 0 [1; 2; 3] [5; 3; 1] half 1.
Proof.
  rewrite argsort_ascending.
  split; [reflexivity|]. split; [reflexivity|].
  intros Hclaim. specialize (Hclaim _ _ first_pair_exchanges).
  rewrite argsort_ascending in Hclaim. unfold PTSA.pair_inputs in Hclaim.
  simpl in Hclaim. injection Hclaim as Heq. lra.
Qed.

Lemma pair_inputs_in_sweep_witness :
  exists t1 f1 t2 f2 t1',
    PTSA.pair_inputs [1; 2; 3] [5; 3; 1] (argsort [1; 2; 3]) 1
    = Some (t1, f1, t2, f2)
    /\ PTSA.pair_inputs [2; 1; 3] [5; 3; 1] (argsort [1; 2; 3]) 1
       = Some (t1', f1, t2, f2).
Proof.
  destruct (pair_inputs_in_sweep 0 [1; 2; 3] [5; 3; 1] half 1 [2; 1; 3]
              (mkRng (stream half) 2) eq_refl ltac:(simpl; lia)
              first_pair_exchanges)
    as (t1 & f1 & t2 & f2 & t1' & Hgathered & Hread & _).
  exists t1, f1, t2, f2, t1'. split; assumption.
Defined.

Lemma sweep_preserves_temperatures_witness :
  exists Ts' g',
    PTSA.sweep 0 [1; 2; 3] [5; 3; 1] half = Ok (Ts', g')
    /\ Ts' ≡ₚ [1; 2; 3] /\ sorted Ts' = sorted [1; 2; 3].
Proof.
  apply (proj1 (proj2 (@sweep_preserves_temperatures R)) 0 [1; 2; 3] [5; 3; 1] half).
  - reflexivity.
  - repeat constructor; lra.
Defined.

Lemma exchange_acceptance_witness :
  exists Ts',
    PTSA64.exchange_pair exp_table false 0 [5; 3]%float [0; 1]%nat 0
      ([1; 2]%float, halves)
    = Ok (Ts', B64.mkRng (B64.stream halves) 2)
    /\ Ts' = [2; 1]%float.
Proof.
  destruct (proj1 (@exchange_acceptance R) exp_table false 0%float
              [5; 3]%float [0; 1]%nat 0%nat [1; 2]%float halves 0%nat 1%nat
              1%float 5%float 2%float 3%float
              eq_refl eq_refl eq_refl eq_refl eq_refl eq_refl
              (or_intror (conj eq_refl eq_refl)) eq_refl)
    as (_ & (Ts' & Hpair & Hyes & _) & _).
  exists Ts'. split; [exact Hpair|].
  rewrite Hyes; reflexivity.
Defined.

(** The exact exponential of [-2^-51] is below [1 - 2^-52]. *)
Lemma tiny_rate_below_draw : exp (B64.to_R minus_2_51) < B64.to_R below_one.
Proof.
  rewrite minus_2_51_value, below_one_value.
  pose proof (exp_neg_bound (/ 2251799813685248) ltac:(lra)). lra.
Qed.

(** C6 fails on the code at equal costs: with temperatures 0.1 and 1.1 and
    both best costs 0.3, the four rounded quotients leave the exponent
    [-2^-51]; the rate [np.exp(-2^-51)] is [1 - 2^-51], below 1, and when
    the second draw is [1 - 2^-53] the attempted pair is not exchanged. *)
Lemma equal_costs_may_not_exchange :
  B64.uniform high_draws
  /\ PTSA64.exponent false [one_tenth; eleven_tenths]
       [three_tenths; three_tenths] 0 1 = Ok minus_2_51
  /\ (exp_table minus_2_51 = rate_2_51
      /\ B64.to_R rate_2_51 < exp (B64.to_R minus_2_51)
         < B64.to_R rate_2_51 + / 2251799813685248 * / 2251799813685248)
  /\ exp (B64.to_R minus_2_51) < B64.to_R below_one < 1
  /\ PTSA64.exchange_pair exp_table false 0 [three_tenths; three_tenths]
       [0; 1]%nat 0 ([one_tenth; eleven_tenths], high_draws)
     = Ok ([one_tenth; eleven_tenths], B64.mkRng (B64.stream high_draws) 2).
Proof.
  split; [|split; [|split; [|split]]].
  - intros [|n]; split; vm_compute; reflexivity.
  - vm_compute. reflexivity.
  - exact exp_table_rounds.
  - split; [exact tiny_rate_below_draw | rewrite below_one_value; lra].
  - vm_compute. reflexivity.
Qed.
(** ** The run statements on the concrete problem *)

Lemma best_cost_never_increases_witness :
  exists w',
    PTSA.iteration_body cost_id pwalk false 0 two_ranks = Ok w'
    /\ Forall2 (fun a b =>
                  SA.best_y (PTSA.base b.1) <= SA.best_y (PTSA.base a.1))
         two_ranks w'.
Proof.
  refine (proj2 (proj2 (proj2 (proj2 (proj2 (proj2 (proj2 (proj2 (proj2
            (best_cost_never_increases cost_id walk pwalk false)))))))))
            0%nat two_ranks _ _).
  - unfold two_ranks, temperatures. concrete.
    constructor; [lra | constructor; [unfold pcool; concrete; lra | constructor]].
  - left. discriminate.
Defined.

Lemma single_replica_run_witness :
  PTSA.run cost_id pwalk false [(pwarm, quarter)] = Raise NameError
  /\ exists s' g', SA.run_budget cost_id walk 2 warm quarter = Ok (s', g').
Proof.
  refine (proj1 (proj2 (proj2 (proj2 (single_replica_run cost_id walk pwalk false))))
            (fun p g => eq_refl) pwarm quarter _ _ _ _).
  - reflexivity.
  - left. discriminate.
  - concrete. lra.
  - concrete. lra.
Defined.

Lemma sa_run_terminates_witness :
  exists s' g',
    SA64.run_loop cost64 slide exp_table false 44 warm64 halves 0
    = Some (Ok (s', g', 44%nat))
    /\ SA64.run cost64 slide exp_table false 44 warm64 halves
       = Some (Ok (SA64.best_x s', SA64.best_y s'))
    /\ SA64.T s' = cooled 44 100 nine_tenths
    /\ (1 <? SA64.T s')%float = false.
Proof.
  apply (proj1 (sa_run_terminates cost64 slide exp_table false) warm64 halves 44%nat).
  - right. reflexivity.
  - apply stays_above_cooled. vm_compute. reflexivity.
  - vm_compute. reflexivity.
  - apply le_n.
Defined.

(** C8 fails on the code.  With [T_i = 1], [T_f = 1 - 2^-29] and
    [d = 1 - 2^-30] the second rounded product already equals [T_f], so
    the loop makes 2 passes where the ceiling is 3.  With [T_i = 1],
    [T_f = 2^-1074] and [d = 0.9] the rounded products stop decreasing
    above [T_f], and [run] never returns. *)
Lemma rounded_cooling_misses_the_ceiling :
  (0 < B64.to_R floor_29 < B64.to_R 1 /\ 0 < B64.to_R decay_30 < 1)
  /\ (forall fuel : nat, (2 <= fuel)%nat ->
      exists s' g',
        SA64.run_loop cost64 slide exp_table false fuel slow64 halves 0
        = Some (Ok (s', g', 2%nat)))
  /\ Zceil (ln (B64.to_R floor_29 / B64.to_R 1) / ln (B64.to_R decay_30))
     = 3%Z
  /\ (0 < B64.to_R tiniest < B64.to_R 1 /\ 0 < B64.to_R nine_tenths < 1)
  /\ (forall fuel : nat,
        SA64.run cost64 slide exp_table false fuel stuck64 halves = None).
Proof.
  split; [|split; [|split; [|split]]].
  - rewrite floor_29_value, decay_30_value, one_value. lra.
  - intros fuel Hfuel.
    destruct (run_loop64_passes cost64 slide exp_table false 2 fuel slow64 halves 0)
      as (s' & g' & Hrun & _).
    + right. reflexivity.
    + apply stays_above_cooled. vm_compute. reflexivity.
    + vm_compute. reflexivity.
    + exact Hfuel.
    + exists s', g'. exact Hrun.
  - exact slow_formula.
  - rewrite nine_tenths_value, one_value. pose proof tiniest_value. lra.
  - intros fuel. unfold SA64.run.
    rewrite (run_loop64_never cost64 slide exp_table false fuel stuck64 halves 0);
      [reflexivity | right; reflexivity |].
    apply (stays_above_for_ever (71 * 100)); vm_compute; reflexivity.
Qed.

(** * Further properties of the annealers *)

(** ** Cached costs *)

Section CachedCosts.

Context {State : Type}.
Variable obj : State -> R.
Variable transition : SA.t State -> Rng -> State * Rng.
Variable ptransition : PTSA.t State -> Rng -> State * Rng.
Variable marker_defined : bool.

Implicit Types (s : SA.t State) (p : PTSA.t State) (g : Rng)
  (w : PTSA.world State).

Lemma metropolis_consistent s (x' : State) g s' g' :
  consistent obj s ->
  SA.metropolis s x' (obj x') g = Ok (s', g') ->
  consistent obj s'.
Proof.
  intros [Hy Hb] H.
  destruct (metropolis_inv _ _ _ _ _ _ H) as [-> | [[_ ->] | [_ ->]]];
    split; simpl; auto.
Qed.

Lemma trials_consistent (n : nat) s g s' g' :
  consistent obj s ->
  SA.trials obj transition n s g = Ok (s', g') ->
  consistent obj s'.
Proof.
  revert s g. induction n as [|n IH]; simpl; intros s g Hc H.
  - inversion H; subst. exact Hc.
  - apply bind_ok_inv in H as [[s1 g1] [H1 H2]].
    rewrite trial_unfold in H1.
    exact (IH _ _ (metropolis_consistent _ _ _ _ _ Hc H1) H2).
Qed.

Lemma ptrials_consistent (n : nat) p g p' g' :
  consistent obj (PTSA.base p) ->
  PTSA.trials obj ptransition n p g = Ok (p', g') ->
  consistent obj (PTSA.base p').
Proof.
  revert p g. induction n as [|n IH]; simpl; intros p g Hc H.
  - inversion H; subst. exact Hc.
  - apply bind_ok_inv in H as [[p1 g1] [H1 H2]].
    apply ptrial_inv in H1 as (s1 & Hm & ->).
    apply (IH (PTSA.set_base p s1) g1); [|exact H2].
    exact (metropolis_consistent _ _ _ _ _ Hc Hm).
Qed.

Lemma run_loop_consistent (fuel : nat) s g (k : nat) s' g' (k' : nat) :
  consistent obj s ->
  SA.run_loop obj transition fuel s g k = Some (Ok (s', g', k')) ->
  consistent obj s'.
Proof.
  revert s g k. induction fuel as [|fuel IH]; intros s g k Hc H; simpl in H;
    destruct (Rgt_dec (SA.T s) (SA.T_f s)); try discriminate H;
    try (inversion H; subst; exact Hc).
  destruct (SA.step obj transition s g) as [[s1 g1]|e] eqn:Hstep;
    [|discriminate H].
  apply (trials_consistent _ _ _ _ _ Hc) in Hstep.
  apply IH in H; [exact H|]. exact Hstep.
Qed.

(** Whatever the body of an outer iteration keeps on every object when a
    step or a new temperature is applied, it keeps on every rank. *)
Lemma iteration_body_preserves (P : PTSA.t State -> Prop) (it : nat) w w' :
  (forall p g p' g',
     P p -> PTSA.step obj ptransition p g = Ok (p', g') -> P p') ->
  (forall p T_new, P p -> P (PTSA.set_base p (SA.set_T (PTSA.base p) T_new))) ->
  Forall (fun pg => P pg.1) w ->
  PTSA.iteration_body obj ptransition marker_defined it w = Ok w' ->
  Forall (fun pg => P pg.1) w'.
Proof.
  intros Hstep Hset HP H.
  apply iteration_body_inv in H as (w1 & data & w2 & w3 & H1 & H2 & H3 & ->).
  assert (HP1 : Forall (fun pg => P pg.1) w1).
  { clear -Hstep HP H1. revert w1 H1.
    induction w as [|[p g] w IH]; simpl; intros w1 H1.
    - inversion H1; subst. constructor.
    - apply bind_ok_inv in H1 as ([p1 g1] & Hs & H1).
      apply bind_ok_inv in H1 as (rest & Hrest & H1).
      inversion H1; subst. inversion HP as [|? ? Hp HPw]; subst.
      constructor; [exact (Hstep _ _ _ _ Hp Hs) | exact (IH HPw _ Hrest)]. }
  apply exchange_inv in H2 as (_ & Hobj & _).
  assert (HP2 : Forall (fun pg => P pg.1) w2).
  { clear -HP1 Hobj. revert w2 Hobj.
    induction HP1 as [|a w1 Ha _ IH]; intros [|b w2] Hobj; simpl in Hobj;
      try discriminate Hobj; constructor.
    - injection Hobj as Hab _. rewrite Hab. exact Ha.
    - apply IH. injection Hobj as _ Hrest. exact Hrest. }
  apply scatter_inv in H3 as (_ & Hsc).
  clear -Hset HP2 Hsc.
  induction Hsc as [|a b l1 l2 [[T_new Hab] _] _ IH]; simpl; constructor.
  - cbn [fst snd]. rewrite Hab. inversion HP2; subst.
    unfold PTSA.cool_down, SA.cool_down.
    apply Hset. apply Hset. assumption.
  - apply IH. inversion HP2; assumption.
Qed.

Lemma loop_preserves (P : PTSA.t State -> Prop) (n it : nat) w w' :
  (forall p g p' g',
     P p -> PTSA.step obj ptransition p g = Ok (p', g') -> P p') ->
  (forall p T_new, P p -> P (PTSA.set_base p (SA.set_T (PTSA.base p) T_new))) ->
  Forall (fun pg => P pg.1) w ->
  PTSA.loop obj ptransition marker_defined n it w = Ok w' ->
  Forall (fun pg => P pg.1) w'.
Proof.
  intros Hstep Hset. revert it w.
  induction n as [|n IH]; simpl; intros it w HP H.
  - inversion H; subst. exact HP.
  - apply bind_ok_inv in H as (w1 & H1 & H2).
    apply iteration_inv in H1.
    exact (IH _ _ (iteration_body_preserves P _ _ _ Hstep Hset HP H1) H2).
Qed.

(** X1.  The cached costs never go stale: after construction [y] is the
    cost of [x] and [best_y] the cost of [best_x]; every step keeps this;
    so what [SA.run] returns is a state together with its own cost, which
    is at most the cost of [x0]; and every rank of a [PTSA] run keeps it
    over any number of outer iterations, and over the body of one. *)
Theorem cached_costs_are_current :
  (forall x0 T_i T_f d reps iters verbose,
     consistent obj (SA.init obj x0 T_i T_f d reps iters verbose))
  /\ (forall s g s' g',
        consistent obj s ->
        SA.step obj transition s g = Ok (s', g') -> consistent obj s')
  /\ (forall x0 T_i T_f d reps iters verbose (fuel : nat) g best cost,
        SA.run obj transition fuel
          (SA.init obj x0 T_i T_f d reps iters verbose) g
        = Some (Ok (best, cost)) ->
        cost = obj best /\ cost <= obj x0)
  /\ (forall p g p' g',
        consistent obj (PTSA.base p) ->
        PTSA.step obj ptransition p g = Ok (p', g') ->
        consistent obj (PTSA.base p'))
  /\ (forall (n it : nat) w w',
        Forall (fun pg => consistent obj (PTSA.base pg.1)) w ->
        PTSA.loop obj ptransition marker_defined n it w = Ok w' ->
        Forall (fun pg => consistent obj (PTSA.base pg.1)) w')
  /\ (forall (it : nat) w w',
        Forall (fun pg => consistent obj (PTSA.base pg.1)) w ->
        PTSA.iteration_body obj ptransition marker_defined it w = Ok w' ->
        Forall (fun pg => consistent obj (PTSA.base pg.1)) w').
Proof.
  assert (Hinit : forall x0 T_i T_f d reps iters verbose,
    consistent obj (SA.init obj x0 T_i T_f d reps iters verbose)).
  { intros. split; reflexivity. }
  split; [exact Hinit|]. split; [|split; [|split; [|split]]].
  - intros s g s' g' Hc H. exact (trials_consistent _ _ _ _ _ Hc H).
  - intros x0 T_i T_f d reps iters verbose fuel g best cost H.
    unfold SA.run in H.
    destruct (SA.run_loop _ _ _ _ _ _) as [[[[s' g'] k']|e]|] eqn:Hrun;
      try discriminate H.
    inversion H; subst.
    destruct (run_loop_consistent _ _ _ _ _ _ _
                (Hinit x0 T_i T_f d reps iters verbose) Hrun) as [_ Hb].
    split; [exact Hb|].
    exact (proj1 (run_loop_anneals _ _ _ _ _ _ _ _ _ Hrun)).
  - intros p g p' g' Hc H. exact (ptrials_consistent _ _ _ _ _ Hc H).
  - intros n it w w' Hc H.
    apply (loop_preserves (fun p => consistent obj (PTSA.base p)) n it w w');
      try assumption.
    + intros p g p' g' Hp Hs. exact (ptrials_consistent _ _ _ _ _ Hp Hs).
    + intros p T_new Hp. exact Hp.
  - intros it w w' Hc H.
    apply (iteration_body_preserves
             (fun p => consistent obj (PTSA.base p)) it w w');
      try assumption.
    + intros p g p' g' Hp Hs. exact (ptrials_consistent _ _ _ _ _ Hp Hs).
    + intros p T_new Hp. exact Hp.
Qed.

End CachedCosts.

Lemma cached_costs_are_current_witness :
  exists s' g',
    SA.step cost_id walk warm quarter = Ok (s', g') /\ consistent cost_id s'.
Proof.
  destruct (step_total cost_id walk warm quarter ltac:(concrete; lra))
    as (s' & g' & Hstep & _).
  exists s', g'. split; [exact Hstep|].
  apply (proj1 (proj2 (cached_costs_are_current cost_id walk pwalk false))
           warm quarter s' g'); [|exact Hstep].
  split; reflexivity.
Defined.

(** ** [SA.run] at the edges of the cooling schedule *)

Section RunEdges.

Context {State : Type}.
Variable obj : State -> R.
Variable transition : SA.t State -> Rng -> State * Rng.

Implicit Types (s : SA.t State) (g : Rng).

Lemma run_loop_never_returns (fuel : nat) s g (k : nat) :
  SA.T s > SA.T_f s -> 0 < SA.T s -> 1 <= SA._decay s ->
  SA.run_loop obj transition fuel s g k = None.
Proof.
  revert s g k. induction fuel as [|fuel IH]; intros s g k Hgo Hpos Hd;
    cbn [SA.run_loop]; destruct (Rgt_dec (SA.T s) (SA.T_f s)); try contradiction.
  - reflexivity.
  - destruct (step_total obj transition s g ltac:(lra))
      as (s1 & g1 & Hstep & ((HT & _ & HTf & Hd1 & _) & _)).
    rewrite Hstep. apply IH; simpl; rewrite ?HT, ?HTf, ?Hd1; nra.
Qed.

(** X2.  [SA.run] has no bound on its loop other than the temperature:
    constructed with a positive [T_i] above [T_f] and a decay of 1 or more
    it never returns, whatever the number of passes allowed; constructed
    with [T_i <= T_f] it returns [(x0, obj x0)] at once, without a trial. *)
Theorem sa_run_needs_cooling :
  (forall x0 T_i T_f d reps iters verbose g,
     T_i > T_f -> 0 < T_i -> 1 <= d ->
     forall fuel : nat,
       SA.run obj transition fuel
         (SA.init obj x0 T_i T_f d reps iters verbose) g = None)
  /\ (forall x0 T_i T_f d reps iters verbose g,
        T_i <= T_f ->
        forall fuel : nat,
          SA.run_loop obj transition fuel
            (SA.init obj x0 T_i T_f d reps iters verbose) g 0
          = Some (Ok (SA.init obj x0 T_i T_f d reps iters verbose, g, 0%nat))
          /\ SA.run obj transition fuel
               (SA.init obj x0 T_i T_f d reps iters verbose) g
             = Some (Ok (x0, obj x0))).
Proof.
  split.
  - intros x0 T_i T_f d reps iters verbose g Hgo Hpos Hd fuel.
    unfold SA.run. rewrite run_loop_never_returns; [reflexivity | | |];
      simpl; assumption.
  - intros x0 T_i T_f d reps iters verbose g Hstop fuel.
    assert (Hloop : SA.run_loop obj transition fuel
              (SA.init obj x0 T_i T_f d reps iters verbose) g 0
            = Some (Ok (SA.init obj x0 T_i T_f d reps iters verbose, g, 0%nat))).
    { destruct fuel; cbn [SA.run_loop];
        destruct (Rgt_dec _ _) as [Hgt|_]; try reflexivity;
        simpl in Hgt; lra. }
    split; [exact Hloop|]. unfold SA.run. rewrite Hloop. reflexivity.
Qed.

End RunEdges.

Lemma sa_run_needs_cooling_witness :
  SA.run cost_id walk 1000 (SA.init cost_id 1 100 1 1 3 2 0) quarter = None
  /\ SA.run cost_id walk 0 (SA.init cost_id 1 1 100 (9 / 10) 3 2 0) quarter
     = Some (Ok (1, cost_id 1)).
Proof.
  split.
  - apply (proj1 (sa_run_needs_cooling cost_id walk)); lra.
  - apply (proj2 (sa_run_needs_cooling cost_id walk)). lra.
Defined.

(** ** Temperatures over an outer iteration of [PTSA.run] *)

Section TemperatureSchedule.

Context {State : Type}.
Variable obj : State -> R.
Variable ptransition : PTSA.t State -> Rng -> State * Rng.
Variable marker_defined : bool.

Implicit Types (p : PTSA.t State) (g : Rng) (w : PTSA.world State).






End TemperatureSchedule.


(** ** Draws and skipped pairs in the exchange sweep *)

Section SweepDraws.

Implicit Types (Ts fx : list R) (index : list nat) (g : Rng).

Lemma advanced_trans g1 g2 g3 (lo1 hi1 lo2 hi2 : nat) :
  advanced g1 g2 lo1 hi1 -> advanced g2 g3 lo2 hi2 ->
  advanced g1 g3 (lo1 + lo2) (hi1 + hi2).
Proof.
  intros (Hs1 & Hl1 & Hh1) (Hs2 & Hl2 & Hh2).
  split; [congruence|]. split; lia.
Qed.

Lemma exchange_pair_draws (th : R) fx index (i : nat) Ts g Ts' g' :
  PTSA.exchange_pair th fx index i (Ts, g) = Ok (Ts', g') ->
  advanced g g' 1 2.
Proof.
  unfold PTSA.exchange_pair. intros H.
  apply bind_ok_inv in H as (sol1 & _ & H).
  apply bind_ok_inv in H as (sol2 & _ & H).
  simpl in H. destruct (Rgt_dec _ th).
  - apply bind_ok_inv in H as (rate & _ & H).
    destruct (Rgt_dec rate _).
    + apply bind_ok_inv in H as (t2 & _ & H).
      apply bind_ok_inv in H as (t1 & _ & H).
      inversion H; subst. split; [reflexivity|]. simpl. lia.
    + inversion H; subst. split; [reflexivity|]. simpl. lia.
  - inversion H; subst. split; [reflexivity|]. simpl. lia.
Qed.

Lemma sweep_pairs_draws (th : R) fx index (positions : list nat) Ts g Ts' g' :
  PTSA.sweep_pairs th fx index positions (Ts, g) = Ok (Ts', g') ->
  advanced g g' (length positions) (2 * length positions).
Proof.
  revert Ts g. induction positions as [|i rest IH]; simpl; intros Ts g H.
  - inversion H; subst. split; [reflexivity|]. lia.
  - apply bind_ok_inv in H as ([Ts1 g1] & H1 & H2).
    pose proof (advanced_trans _ _ _ _ _ _ _
                  (exchange_pair_draws _ _ _ _ _ _ _ _ H1) (IH _ _ H2)) as Ha.
    destruct Ha as (Hs & Hl & Hh). split; [exact Hs|]. split; lia.
Qed.

Lemma exchange_pair_skipped (th : R) fx index (i : nat) Ts g :
  1 <= th -> uniform g -> (i + 1 < length index)%nat ->
  PTSA.exchange_pair th fx index i (Ts, g)
  = Ok (Ts, mkRng (stream g) (S (cursor g))).
Proof.
  intros Hth Hu Hi. unfold PTSA.exchange_pair.
  destruct (lookup_lt_is_Some_2 index i ltac:(lia)) as [sol1 Hs1].
  destruct (lookup_lt_is_Some_2 index (i + 1) Hi) as [sol2 Hs2].
  rewrite (getitem_Some _ _ _ Hs1), (getitem_Some _ _ _ Hs2). simpl.
  destruct (Rgt_dec _ th) as [Hgt|_]; [|reflexivity].
  destruct (Hu (cursor g)). lra.
Qed.

Lemma sweep_pairs_skipped (th : R) fx index (positions : list nat) Ts g :
  1 <= th -> uniform g ->
  Forall (fun i => (i + 1 < length index)%nat) positions ->
  PTSA.sweep_pairs th fx index positions (Ts, g)
  = Ok (Ts, mkRng (stream g) (cursor g + length positions)).
Proof.
  intros Hth. revert g. induction positions as [|i rest IH]; intros g Hu Hpos.
  - simpl. rewrite Nat.add_0_r. destruct g; reflexivity.
  - inversion Hpos as [|? ? Hi Hrest]; subst.
    cbn [PTSA.sweep_pairs].
    rewrite (exchange_pair_skipped th fx index i Ts g Hth Hu Hi). cbn [bind].
    rewrite IH; [|exact Hu|exact Hrest].
    simpl. do 2 f_equal. f_equal. lia.
Qed.

(** X4.  With [theta >= 1] no pair is ever attempted: every draw of
    rank 0 lies below 1, so the sweep returns the temperatures as gathered,
    divides nothing (it cannot fault, even on a zero temperature) and uses
    exactly one draw per adjacent pair. *)
Theorem sweep_with_theta_one (th : R) Ts fx g :
  1 <= th -> uniform g ->
  PTSA.sweep th Ts fx g
  = Ok (Ts, mkRng (stream g) (cursor g + (length Ts - 1))).
Proof.
  intros Hth Hu. unfold PTSA.sweep.
  rewrite sweep_pairs_skipped; [|exact Hth|exact Hu|].
  - rewrite length_seq. reflexivity.
  - apply Forall_forall. intros i Hi. apply elem_of_seq in Hi.
    rewrite argsort_length. lia.
Qed.

(** X5.  The sweep reads the generator of rank 0 and never replaces it:
    the stream is the same afterwards and the cursor has moved by at least
    one and at most two draws per adjacent pair. *)
Theorem sweep_draw_count (th : R) Ts fx g Ts' g' :
  PTSA.sweep th Ts fx g = Ok (Ts', g') ->
  advanced g g' (length Ts - 1) (2 * (length Ts - 1)).
Proof.
  intros H. apply sweep_pairs_draws in H. rewrite length_seq in H. exact H.
Qed.

End SweepDraws.

Lemma uniform_half : uniform half.
Proof. intros n. simpl. lra. Qed.

Lemma sweep_with_theta_one_witness :
  PTSA.sweep 1 [1; 2; 3] [5; 3; 1] half = Ok ([1; 2; 3], mkRng (stream half) 2).
Proof.
  exact (sweep_with_theta_one 1 [1; 2; 3] [5; 3; 1] half (Rle_refl 1) uniform_half).
Defined.

Lemma three_rank_sweep :
  exists Ts' g', PTSA.sweep 0 [1; 2; 3] [5; 3; 1] half = Ok (Ts', g').
Proof. apply sweep_total; [reflexivity | repeat constructor; lra]. Qed.

Lemma sweep_draw_count_witness :
  exists Ts' g',
    PTSA.sweep 0 [1; 2; 3] [5; 3; 1] half = Ok (Ts', g')
    /\ advanced half g' 2 4.
Proof.
  destruct three_rank_sweep as (Ts' & g' & H).
  exists Ts', g'. split; [exact H|].
  exact (sweep_draw_count 0 [1; 2; 3] [5; 3; 1] half Ts' g' H).
Defined.

(** ** Proposals that are always accepted *)

Section AlwaysAccepted.

Context {State : Type}.
Variable obj : State -> R.
Variable transition : SA.t State -> Rng -> State * Rng.
Variable ptransition : PTSA.t State -> Rng -> State * Rng.

Implicit Types (s : SA.t State) (p : PTSA.t State) (g : Rng).






End AlwaysAccepted.




(** ** The order of the temperatures a pair reads *)

Section ExchangeDirection.

Implicit Types (Ts fx : list R) (index : list nat) (g : Rng).

Lemma Sorted_adjacent {A : Type} (Rel : A -> A -> Prop) (l : list A)
  (i : nat) (a b : A) :
  Sorted Rel l -> l !! i = Some a -> l !! S i = Some b -> Rel a b.
Proof.
  intros Hs. revert i. induction Hs as [|x l Hs IH Hhd]; intros i Ha Hb.
  - discriminate Ha.
  - destruct i as [|i]; simpl in Ha, Hb.
    + injection Ha as ->. destruct Hhd as [|y l' Hxy]; [discriminate Hb|].
      simpl in Hb. injection Hb as ->. exact Hxy.
    + exact (IH i Ha Hb).
Qed.

Lemma key_lookup Ts (sol : nat) (t : R) : Ts !! sol = Some t -> key Ts sol = t.
Proof. intros H. unfold key. rewrite H. reflexivity. Qed.

(** What the lower replica of position [i] holds when the loop gets there
    is at most what it held when gathered. *)
Lemma lower_reading (th : R) Ts fx g (i : nat) Ts_i g_i :
  PTSA.sweep_upto th Ts fx g i = Ok (Ts_i, g_i) ->
  (i < length Ts)%nat ->
  exists sol t,
    argsort Ts !! i = Some sol /\ Ts_i !! sol = Some t /\ t <= key Ts sol.
Proof.
  revert Ts_i g_i. induction i as [|j IH]; intros Ts_i g_i H Hi.
  - unfold PTSA.sweep_upto in H. simpl in H. inversion H; subst.
    destruct (lookup_lt_is_Some_2 (argsort Ts_i) 0
                ltac:(rewrite argsort_length; lia)) as [sol Hsol].
    destruct (lookup_lt_is_Some_2 Ts_i sol (argsort_lookup_lt _ _ _ Hsol))
      as [t Ht].
    exists sol, t. rewrite (key_lookup _ _ _ Ht).
    split; [exact Hsol|]. split; [exact Ht | apply Rle_refl].
  - rewrite sweep_upto_S in H.
    apply bind_ok_inv in H as ([Ts_j g_j] & Hj & Hpair).
    destruct (IH _ _ Hj ltac:(lia)) as (r1 & a1 & Hr1 & Ha1 & Hle1).
    destruct (sweep_upto_untouched _ _ _ _ _ _ _ Hj) as [Hlen_j Hsame_j].
    apply exchange_pair_inv in Hpair as (sol1 & sol2 & Hi1 & Hi2 & Hcases).
    replace (j + 1)%nat with (S j) in Hi2 by lia.
    assert (sol1 = r1) by congruence. subst sol1.
    destruct (lookup_lt_is_Some_2 Ts sol2 (argsort_lookup_lt _ _ _ Hi2))
      as [t2 Ht2].
    assert (Ht2_j : Ts_j !! sol2 = Some t2).
    { rewrite (Hsame_j (S j) sol2 ltac:(lia) Hi2). exact Ht2. }
    exists sol2. destruct Hcases as [-> | (u1 & u2 & Hu1 & Hu2 & ->)].
    + exists t2. rewrite (key_lookup _ _ _ Ht2).
      split; [exact Hi2|]. split; [exact Ht2_j | apply Rle_refl].
    + assert (u1 = a1) by congruence. subst u1.
      exists a1. split; [exact Hi2|]. split.
      * apply list_lookup_insert_eq. rewrite length_insert.
        exact (lookup_lt_Some _ _ _ Ht2_j).
      * pose proof (Sorted_adjacent _ _ _ _ _ (argsort_Sorted Ts) Hi1 Hi2).
        simpl in *. lra.
Qed.

(** X9.  Although earlier pairs rewrite the list, the sweep always
    compares a lower temperature with a higher one: at every position the
    temperature read for the lower replica is at most the one read for the
    upper replica, and it is positive when all gathered temperatures
    are. *)
Theorem sweep_reads_ordered_temperatures (th : R) Ts fx g (i : nat) Ts_i g_i :
  length fx = length Ts ->
  (i + 1 < length Ts)%nat ->
  PTSA.sweep_upto th Ts fx g i = Ok (Ts_i, g_i) ->
  exists t1 f1 t2 f2,
    PTSA.pair_inputs Ts_i fx (argsort Ts) i = Some (t1, f1, t2, f2)
    /\ t1 <= t2
    /\ (Forall (fun t => 0 < t) Ts -> 0 < t1).
Proof.
  intros Hfx Hi H.
  destruct (lower_reading _ _ _ _ _ _ _ H ltac:(lia))
    as (sol1 & t1 & Hs1 & Ht1 & Hle).
  destruct (sweep_upto_untouched _ _ _ _ _ _ _ H) as [Hlen Hsame].
  destruct (lookup_lt_is_Some_2 (argsort Ts) (i + 1)
              ltac:(rewrite argsort_length; lia)) as [sol2 Hs2].
  destruct (lookup_lt_is_Some_2 Ts sol2 (argsort_lookup_lt _ _ _ Hs2))
    as [t2 Ht2].
  assert (Ht2_i : Ts_i !! sol2 = Some t2).
  { rewrite (Hsame (i + 1)%nat sol2 ltac:(lia) Hs2). exact Ht2. }
  destruct (lookup_lt_is_Some_2 fx sol1
              ltac:(rewrite Hfx; exact (argsort_lookup_lt _ _ _ Hs1)))
    as [f1 Hf1].
  destruct (lookup_lt_is_Some_2 fx sol2
              ltac:(rewrite Hfx; exact (argsort_lookup_lt _ _ _ Hs2)))
    as [f2 Hf2].
  exists t1, f1, t2, f2. split; [|split].
  - unfold PTSA.pair_inputs. rewrite Hs1, Hs2, Ht1, Hf1, Ht2_i, Hf2. reflexivity.
  - replace (i + 1)%nat with (S i) in Hs2 by lia.
    pose proof (Sorted_adjacent _ _ _ _ _ (argsort_Sorted Ts) Hs1 Hs2) as Hadj.
    simpl in Hadj. rewrite (key_lookup _ _ _ Ht2) in Hadj. lra.
  - intros Hpos.
    assert (Hperm : Ts_i ≡ₚ Ts) by exact (sweep_pairs_Permutation _ _ _ _ _ _ _ _ H).
    rewrite <- Hperm in Hpos.
    exact (proj1 (Forall_lookup _ _) Hpos _ _ Ht1).
Qed.

End ExchangeDirection.

Lemma sweep_reads_ordered_temperatures_witness :
  exists t1 f1 t2 f2,
    PTSA.pair_inputs [2; 1; 3] [5; 3; 1] (argsort [1; 2; 3]) 1
    = Some (t1, f1, t2, f2)
    /\ t1 <= t2.
Proof.
  destruct (sweep_reads_ordered_temperatures 0 [1; 2; 3] [5; 3; 1] half 1
              [2; 1; 3] (mkRng (stream half) 2) eq_refl ltac:(simpl; lia)
              first_pair_exchanges)
    as (t1 & f1 & t2 & f2 & Hin & Hle & _).
  exists t1, f1, t2, f2. split; assumption.
Defined.
(** ** What rank 0 logs *)

Section ProgressRows.

Variable marker_defined : bool.

Implicit Types (l : list R) (msg : list (R * R * nat)).

(** X10.  At verbosity 0 rank 0 logs, after the three title lines, one row
    per outer iteration: the rank, temperature and best cost of one
    replica, unmarked, and that replica's best cost is the least of all
    gathered best costs (the first such replica in rank order).  With at
    least one message the report is always produced. *)
Theorem report_at_verbosity_zero (it : nat) msg :
  (forall lines,
     Progress.report marker_defined 0 it msg = Some lines ->
     exists (best_rank : nat) (T loss : R) (rank : nat),
       msg !! best_rank = Some (T, loss, rank)
       /\ lines = [Progress.Rule 41; Progress.Titles; Progress.Rule 41;
                   Progress.Row rank (it + 1) T loss false]
       /\ (forall j m, msg !! j = Some m -> loss <= m.1.2)
       /\ (forall j m, (j < best_rank)%nat -> msg !! j = Some m -> loss < m.1.2))
  /\ (msg <> [] ->
      exists lines, Progress.report marker_defined 0 it msg = Some lines).
Proof.
  split.
  - intros lines H.
    destruct (report_best_rank _ _ _ _ _ H)
      as (best_rank & [[T loss] rank] & Hbest & Hm & Hall & Hfirst).
    exists best_rank, T, loss, rank. split; [exact Hm|].
    unfold Progress.report in H. rewrite Hbest, Hm in H. simpl in H.
    injection H as <-. auto.
  - intros Hne. apply report_defined; [exact Hne|]. left. discriminate.
Qed.

(** X11.  At verbosity 1 rank 0 logs, after the three title lines, one row
    per rank in rank order, each with that rank's temperature and best
    cost, and exactly the row of the first replica with the least best cost
    carries the marker; this is so where numpy multiplies a numpy bool by a
    string, and where it does not the report raises at the first row.  At
    any verbosity other than 0 and 1 only the title lines are logged. *)
Theorem report_at_verbosity_one (it : nat) msg :
  (forall lines,
     Progress.report marker_defined 1 it msg = Some lines ->
     marker_defined = true
     /\ exists best_rank : nat,
       length lines = (3 + length msg)%nat
       /\ take 3 lines = [Progress.Rule 41; Progress.Titles; Progress.Rule 41]
       /\ (forall i T loss rank,
             msg !! i = Some (T, loss, rank) ->
             lines !! (3 + i)%nat
             = Some (Progress.Row rank (it + 1) T loss (Nat.eqb i best_rank)))
       /\ (exists m, msg !! best_rank = Some m
             /\ (forall j m', msg !! j = Some m' -> m.1.2 <= m'.1.2)
             /\ (forall j m',
                   (j < best_rank)%nat -> msg !! j = Some m' -> m.1.2 < m'.1.2)))
  /\ (marker_defined = true -> msg <> [] ->
      exists lines, Progress.report marker_defined 1 it msg = Some lines)
  /\ (marker_defined = false -> Progress.report marker_defined 1 it msg = None)
  /\ (forall (verbose : Z) lines,
        verbose <> 0%Z -> verbose <> 1%Z ->
        Progress.report marker_defined verbose it msg = Some lines ->
        lines = [Progress.Rule 41; Progress.Titles; Progress.Rule 41]).
Proof.
  split; [|split; [|split]].
  - intros lines H.
    destruct (report_best_rank _ _ _ _ _ H)
      as (best_rank & m & Hbest & Hm & Hall & Hfirst).
    unfold Progress.report in H. rewrite Hbest in H. simpl in H.
    destruct marker_defined; [|discriminate H].
    split; [reflexivity|].
    exists best_rank. injection H as <-.
    split; [simpl; rewrite length_imap; reflexivity|].
    split; [reflexivity|]. split.
    + intros i T loss rank Hi. simpl.
      rewrite list_lookup_imap, Hi. reflexivity.
    + exists m. auto.
  - intros Hm Hne. apply report_defined; [exact Hne|]. right. exact Hm.
  - intros ->. unfold Progress.report.
    destruct (Progress.argmin _); reflexivity.
  - intros verbose lines H0 H1 H. unfold Progress.report in H.
    destruct (Progress.argmin _); [|discriminate H].
    destruct (Z.eqb_spec verbose 1); [contradiction|].
    destruct (Z.eqb_spec verbose 0); [contradiction|].
    injection H as <-. reflexivity.
Qed.

End ProgressRows.

Lemma report_at_verbosity_zero_witness :
  exists lines,
    Progress.report false 0 4 [(1, 5, 0%nat); (2, 3, 1%nat)] = Some lines.
Proof.
  apply (proj2 (report_at_verbosity_zero false 4 [(1, 5, 0%nat); (2, 3, 1%nat)])).
  discriminate.
Defined.

Lemma report_at_verbosity_one_witness :
  (exists lines,
     Progress.report true 1 4 [(1, 5, 0%nat); (2, 3, 1%nat)] = Some lines)
  /\ Progress.report false 1 4 [(1, 5, 0%nat); (2, 3, 1%nat)] = None.
Proof.
  split.
  - apply (proj1 (proj2 (report_at_verbosity_one true 4
                           [(1, 5, 0%nat); (2, 3, 1%nat)])));
      [reflexivity | discriminate].
  - apply (proj1 (proj2 (proj2 (report_at_verbosity_one false 4
                                  [(1, 5, 0%nat); (2, 3, 1%nat)])))).
    reflexivity.
Defined.

(** ** Reading the log back: [process_output] *)

Section Fields.

Context {Char : Type} `{EqDecision Char}.
Variable is_space : Char -> bool.
Variable bar : Char.

Implicit Types (s line : list Char).

#[local] Abbreviation split := (ProcessOutput.split bar).
#[local] Abbreviation strip := (ProcessOutput.strip is_space).
#[local] Abbreviation lstrip := (ProcessOutput.lstrip is_space).

Lemma split_length s : length (split s) = S (bars bar s).
Proof.
  unfold bars. induction s as [|c s IH]; simpl; [reflexivity|].
  rewrite filter_cons. destruct (decide (c = bar)) as [->|Hne]; simpl.
  - rewrite IH. reflexivity.
  - destruct (split s) as [|field fields] eqn:Hs; simpl in *; [discriminate IH|].
    exact IH.
Qed.

Lemma split_no_bar s : bar ∉ s -> split s = [s].
Proof.
  induction s as [|c s IH]; simpl; intros Hnot; [reflexivity|].
  apply not_elem_of_cons in Hnot as [Hc Hs].
  destruct (decide (c = bar)) as [->|_]; [contradiction|].
  rewrite (IH Hs). reflexivity.
Qed.

Lemma split_app_bar (a s : list Char) :
  bar ∉ a -> split (a ++ bar :: s) = a :: split s.
Proof.
  induction a as [|c a IH]; simpl; intros Hnot.
  - destruct (decide (bar = bar)); [reflexivity | contradiction].
  - apply not_elem_of_cons in Hnot as [Hc Ha].
    destruct (decide (c = bar)) as [->|_]; [contradiction|].
    rewrite (IH Ha). reflexivity.
Qed.

Lemma lstrip_spaces (pre s : list Char) :
  Forall (fun c => is_space c = true) pre -> lstrip (pre ++ s) = lstrip s.
Proof.
  induction 1 as [|c pre Hc _ IH]; simpl; [reflexivity|].
  rewrite Hc. exact IH.
Qed.

Lemma lstrip_solid (c : Char) s : is_space c = false -> lstrip (c :: s) = c :: s.
Proof. intros Hc. simpl. rewrite Hc. reflexivity. Qed.

(** White space around a text that begins and ends with other characters
    is removed, and nothing else. *)
Lemma strip_padded (pre post middle : list Char) (first last : Char) :
  Forall (fun c => is_space c = true) pre ->
  Forall (fun c => is_space c = true) post ->
  is_space first = false -> is_space last = false ->
  strip (pre ++ (first :: middle ++ [last]) ++ post)
  = first :: middle ++ [last].
Proof.
  intros Hpre Hpost Hfirst Hlast. unfold ProcessOutput.strip.
  rewrite (lstrip_spaces pre _ Hpre).
  change ((first :: middle ++ [last]) ++ post)
    with (first :: (middle ++ [last]) ++ post).
  rewrite (lstrip_solid first _ Hfirst).
  replace (first :: (middle ++ [last]) ++ post)
    with ((first :: middle) ++ last :: post)
    by (simpl; rewrite <- app_assoc; reflexivity).
  rewrite reverse_app, reverse_cons.
  rewrite <- app_assoc. simpl.
  rewrite (lstrip_spaces (reverse post)).
  - rewrite (lstrip_solid last _ Hlast).
    rewrite reverse_cons, reverse_involutive. reflexivity.
  - apply Forall_reverse. exact Hpost.
Qed.

(** X12.  The cell [process_output] stores for a row is [info[3]]: the
    text between the third bar and the fourth bar or the end of the line,
    without the white space around it.  A line has such a field exactly
    when it holds three bars or more; whatever follows the number in that
    field, such as the marker of the best rank, stays in the cell. *)
Theorem cell_of_a_row :
  (forall line, is_Some (fourth_field is_space bar line) <-> (3 <= bars bar line)%nat)
  /\ (forall f0 f1 f2 f3 : list Char,
        bar ∉ f0 -> bar ∉ f1 -> bar ∉ f2 -> bar ∉ f3 ->
        fourth_field is_space bar (f0 ++ bar :: f1 ++ bar :: f2 ++ bar :: f3)
        = Some (strip f3)
        /\ forall more,
             fourth_field is_space bar
               (f0 ++ bar :: f1 ++ bar :: f2 ++ bar :: f3 ++ bar :: more)
             = Some (strip f3))
  /\ (forall (pre post middle : list Char) (first last : Char),
        Forall (fun c => is_space c = true) pre ->
        Forall (fun c => is_space c = true) post ->
        is_space first = false -> is_space last = false ->
        strip (pre ++ (first :: middle ++ [last]) ++ post)
        = first :: middle ++ [last]).
Proof.
  split; [|split].
  - intros line. unfold fourth_field.
    rewrite lookup_lt_is_Some, length_map, split_length. lia.
  - intros f0 f1 f2 f3 H0 H1 H2 H3. unfold fourth_field. split.
    + rewrite !split_app_bar by assumption. rewrite split_no_bar by assumption.
      reflexivity.
    + intros more. rewrite !split_app_bar by assumption. reflexivity.
  - exact strip_padded.
Qed.

End Fields.

Section Table.

Context {Char : Type} `{EqDecision Char}.
Variable is_space : Char -> bool.
Variable bar : Char.

Implicit Types (line : list Char) (f rest : list (list Char))
  (df : ProcessOutput.frame (Char := Char)).

#[local] Abbreviation cell := (fourth_field is_space bar).
#[local] Abbreviation read_rows := (ProcessOutput.read_rows is_space bar).
#[local] Abbreviation process_loop := (ProcessOutput.process_loop is_space bar).

Lemma existsb_label_absent df (label : nat) :
  Forall (fun row => row.1 <> label) df ->
  existsb (fun row => Nat.eqb row.1 label) df = false.
Proof.
  induction 1 as [|row df Hrow _ IH]; simpl; [reflexivity|].
  rewrite IH. apply Nat.eqb_neq in Hrow. rewrite Hrow. reflexivity.
Qed.

Lemma loc_set_new (SIZE : nat) df (label col : nat) (v : list Char) :
  Forall (fun row => row.1 <> label) df ->
  ProcessOutput.loc_set SIZE df label col v
  = df ++ [(label, <[col := Some v]> (replicate SIZE None))].
Proof.
  intros Hdf. unfold ProcessOutput.loc_set.
  rewrite (existsb_label_absent _ _ Hdf). reflexivity.
Qed.

Lemma loc_set_last (SIZE : nat) df (label col : nat) (v : list Char)
  (cells : list (option (list Char))) :
  Forall (fun row => row.1 <> label) df ->
  ProcessOutput.loc_set SIZE (df ++ [(label, cells)]) label col v
  = df ++ [(label, <[col := Some v]> cells)].
Proof.
  intros Hdf. unfold ProcessOutput.loc_set.
  rewrite existsb_app. simpl. rewrite Nat.eqb_refl, !orb_true_r.
  rewrite map_app. simpl. rewrite Nat.eqb_refl. f_equal.
  clear -Hdf. induction Hdf as [|row df Hrow _ IH]; simpl; [reflexivity|].
  apply Nat.eqb_neq in Hrow. rewrite Hrow, IH. reflexivity.
Qed.

Lemma getitem_cell line (c : list Char) :
  cell line = Some c ->
  getitem (map (ProcessOutput.strip is_space) (ProcessOutput.split bar line)) 3
  = Ok c.
Proof. intros Hc. apply getitem_Some. exact Hc. Qed.

(** Filling the rest of a row that has been started. *)
Lemma read_rows_fill (SIZE : nat) (rows : list (list Char))
  (done : list (option (list Char))) (iter : nat) rest df :
  Forall (fun line => is_Some (cell line)) rows ->
  Forall (fun row => row.1 <> iter) df ->
  read_rows SIZE (length rows) (length done) iter (rows ++ rest)
    (df ++ [(iter, done ++ replicate (length rows) None)])
  = Ok (rest, df ++ [(iter, done ++ map cell rows)]).
Proof.
  intros Hrows Hdf. revert done.
  induction Hrows as [|line rows [c Hc] _ IH]; intros done.
  - simpl. rewrite !app_nil_r. reflexivity.
  - cbn [length app ProcessOutput.read_rows ProcessOutput.readline].
    rewrite (getitem_cell _ _ Hc). cbn [bind].
    rewrite (loc_set_last SIZE df iter (length done) c _ Hdf).
    cbn [replicate].
    replace (<[length done := Some c]> (done ++ None :: replicate (length rows) None))
      with ((done ++ [Some c]) ++ replicate (length rows) None).
    + replace (S (length done)) with (length (done ++ [Some c]))
        by (rewrite length_app; simpl; lia).
      rewrite IH. rewrite <- app_assoc. simpl. rewrite Hc. reflexivity.
    + rewrite <- app_assoc. simpl.
      rewrite insert_app_r_alt by lia. rewrite Nat.sub_diag. reflexivity.
Qed.

(** Reading one record of [SIZE > 0] rows appends one row to the table. *)
Lemma read_rows_record (rows : list (list Char)) (iter : nat) rest df :
  rows <> [] ->
  Forall (fun line => is_Some (cell line)) rows ->
  Forall (fun row => row.1 <> iter) df ->
  read_rows (length rows) (length rows) 0 iter (rows ++ rest) df
  = Ok (rest, df ++ [(iter, map cell rows)]).
Proof.
  intros Hne Hrows Hdf. destruct rows as [|line rows]; [contradiction|].
  inversion Hrows as [|? ? [c Hc] Hrest]; subst.
  cbn [length app ProcessOutput.read_rows ProcessOutput.readline].
  rewrite (getitem_cell _ _ Hc). cbn [bind].
  rewrite (loc_set_new _ df iter 0 c Hdf). cbn [replicate].
  change (<[0%nat := Some c]> (None :: replicate (length rows) None))
    with ([Some c] ++ replicate (length rows) None).
  change 1%nat with (length [Some c]).
  rewrite (read_rows_fill _ rows [Some c] iter rest df Hrest Hdf).
  simpl. rewrite Hc. reflexivity.
Qed.

(** A file that ends before the rows of a record are complete. *)
Lemma read_rows_short (SIZE n i iter : nat) f df :
  (length f < n)%nat -> read_rows SIZE n i iter f df = Raise IndexError.
Proof.
  revert i f df. induction n as [|n IH]; intros i f df Hlen; [lia|].
  destruct f as [|line f]; cbn [ProcessOutput.read_rows ProcessOutput.readline].
  - reflexivity.
  - unfold getitem at 1.
    destruct (map _ _ !! 3%nat) as [c|]; cbn [bind]; [|reflexivity].
    apply IH. simpl in Hlen. lia.
Qed.

End Table.

Section Records.

Context {Char : Type} `{EqDecision Char}.
Variable is_space : Char -> bool.
Variable bar : Char.

Implicit Types (line : list Char) (f tail : list (list Char))
  (df : ProcessOutput.frame (Char := Char))
  (blocks : list (list Char * list Char * list Char * list (list Char))).

#[local] Abbreviation cell := (fourth_field is_space bar).
#[local] Abbreviation read_rows := (ProcessOutput.read_rows is_space bar).
#[local] Abbreviation process_loop := (ProcessOutput.process_loop is_space bar).
#[local] Abbreviation process_output := (ProcessOutput.process_output is_space bar).

Lemma records_length blocks :
  (3 * length blocks <= length (concat (map block_lines blocks)))%nat.
Proof.
  induction blocks as [|[[[h1 h2] h3] rows] blocks IH]; simpl; [lia|].
  rewrite length_app. lia.
Qed.

(** A row without a fourth field stops the reading of its record. *)
Lemma read_rows_bad (SIZE : nat) (rows : list (list Char)) (i iter : nat)
  tail df :
  Exists (fun line => cell line = None) rows ->
  read_rows SIZE (length rows) i iter (rows ++ tail) df = Raise IndexError.
Proof.
  intros Hbad. revert i df.
  induction Hbad as [line rows Hline | line rows _ IH]; intros i df;
    cbn [length app ProcessOutput.read_rows ProcessOutput.readline].
  - unfold getitem at 1. unfold fourth_field in Hline. rewrite Hline. reflexivity.
  - unfold getitem at 1.
    destruct (map _ _ !! 3%nat) as [c|]; cbn [bind]; [|reflexivity].
    apply IH.
Qed.

(** The loop over whole records, followed by whatever is left. *)
Lemma process_loop_records (SIZE : nat) blocks (fuel iter : nat) df tail :
  (0 < SIZE)%nat ->
  Forall (readable is_space bar SIZE) blocks ->
  Forall (fun row => (row.1 <= iter)%nat) df ->
  (length (concat (map block_lines blocks) ++ tail) < fuel)%nat ->
  process_loop fuel SIZE (concat (map block_lines blocks) ++ tail) iter df
  = process_loop (fuel - length blocks) SIZE tail (iter + length blocks)
      (df ++ imap (fun k b => (S (iter + k), map cell b.2)) blocks).
Proof.
  intros Hsize Hblocks. revert fuel iter df.
  induction Hblocks as [|[[[h1 h2] h3] rows] blocks (Hh1 & Hlen & Hrows) _ IH];
    intros fuel iter df Hdf Hfuel.
  - simpl. rewrite Nat.sub_0_r, Nat.add_0_r, app_nil_r. reflexivity.
  - simpl in Hh1, Hlen, Hrows.
    destruct fuel as [|fuel]; [lia|].
    cbn [map concat block_lines fst snd app] in *.
    rewrite <- app_assoc.
    cbn [ProcessOutput.process_loop ProcessOutput.readline].
    destruct h1 as [|c h1]; [contradiction|].
    subst SIZE.
    rewrite (read_rows_record is_space bar rows (S iter) _ df).
    + cbn [bind]. rewrite IH.
      * cbn [length]. rewrite Nat.sub_succ. f_equal; [lia|].
        rewrite <- app_assoc. f_equal. cbn [imap app]. f_equal.
        -- rewrite Nat.add_0_r. reflexivity.
        -- apply imap_ext. intros k b _. simpl. do 2 f_equal. lia.
      * apply Forall_app. split.
        -- eapply Forall_impl; [exact Hdf|]. simpl. intros row Hrow. lia.
        -- repeat constructor.
      * simpl in Hfuel. rewrite !length_app in Hfuel.
        rewrite length_app. lia.
    + intros ->. simpl in Hsize. lia.
    + exact Hrows.
    + eapply Forall_impl; [exact Hdf|]. simpl. intros row Hrow. lia.
Qed.

Lemma process_loop_end (fuel SIZE iter : nat) df :
  process_loop fuel SIZE [] iter df = Ok df.
Proof. destruct fuel; reflexivity. Qed.

Lemma process_loop_no_columns (fuel iter : nat) f :
  process_loop fuel 0 f iter [] = Ok [].
Proof.
  revert iter f. induction fuel as [|fuel IH]; intros iter f; [reflexivity|].
  cbn [ProcessOutput.process_loop].
  destruct f as [|[|c line] f]; cbn [ProcessOutput.readline]; try reflexivity.
  destruct f as [|l2 f]; cbn [ProcessOutput.readline];
    [cbn [ProcessOutput.read_rows bind]; apply IH|].
  destruct f as [|l3 f]; cbn [ProcessOutput.readline];
    cbn [ProcessOutput.read_rows bind]; apply IH.
Qed.

(** X13.  On a log made of whole records (three title lines, the first of
    them not empty, then [SIZE] rows with three bars or more each)
    [process_output] builds a table with one row per record, labelled 1, 2,
    ... in the order of the file, whose cell in column [Rank i] is the
    fourth field of the [i]-th row of that record. *)
Theorem process_output_reads_records (SIZE : nat) blocks :
  (0 < SIZE)%nat ->
  Forall (readable is_space bar SIZE) blocks ->
  process_output (Z.of_nat SIZE) (concat (map block_lines blocks))
  = Ok (imap (fun k b => (S k, map cell b.2)) blocks).
Proof.
  intros Hsize Hblocks. unfold ProcessOutput.process_output.
  rewrite Nat2Z.id.
  rewrite <- (app_nil_r (concat (map block_lines blocks))) at 2.
  rewrite (process_loop_records SIZE blocks _ 0 [] [] Hsize Hblocks).
  - rewrite process_loop_end. reflexivity.
  - constructor.
  - rewrite app_nil_r. lia.
Qed.

(** X14.  [process_output] raises [IndexError] when the log stops inside a
    record (after a first title line, fewer than [2 + SIZE] further lines)
    and when a row of a record holds fewer than three bars; with no column
    ([SIZE <= 0]) it returns the empty table for every log. *)
Theorem process_output_faults :
  (forall (SIZE : nat) blocks (h1 : list Char) (more : list (list Char)),
     (0 < SIZE)%nat ->
     Forall (readable is_space bar SIZE) blocks ->
     h1 <> [] -> (length more < 2 + SIZE)%nat ->
     process_output (Z.of_nat SIZE)
       (concat (map block_lines blocks) ++ h1 :: more)
     = Raise IndexError)
  /\ (forall (SIZE : nat) blocks (h1 h2 h3 : list Char)
        (rows tail : list (list Char)),
        (0 < SIZE)%nat ->
        Forall (readable is_space bar SIZE) blocks ->
        h1 <> [] -> length rows = SIZE ->
        Exists (fun line => cell line = None) rows ->
        process_output (Z.of_nat SIZE)
          (concat (map block_lines blocks) ++ h1 :: h2 :: h3 :: rows ++ tail)
        = Raise IndexError)
  /\ (forall (SIZE : Z) f, (SIZE <= 0)%Z -> process_output SIZE f = Ok []).
Proof.
  split; [|split].
  - intros SIZE blocks h1 more Hsize Hblocks Hh1 Hmore.
    unfold ProcessOutput.process_output. rewrite Nat2Z.id.
    rewrite (process_loop_records SIZE blocks _ 0 [] _ Hsize Hblocks);
      [|constructor|lia].
    pose proof (records_length blocks) as Hlen.
    rewrite length_app. cbn [length].
    match goal with
    | |- ProcessOutput.process_loop _ _ (?n - _)%nat _ _ _ _ = _ =>
        replace (n - length blocks)%nat
          with (S (n - S (length blocks)))%nat by lia
    end.
    cbn [ProcessOutput.process_loop ProcessOutput.readline].
    destruct h1 as [|c h1]; [contradiction|].
    destruct more as [|l2 [|l3 more]]; cbn [ProcessOutput.readline];
      rewrite read_rows_short; try reflexivity; simpl in *; lia.
  - intros SIZE blocks h1 h2 h3 rows tail Hsize Hblocks Hh1 Hrows Hbad.
    unfold ProcessOutput.process_output. rewrite Nat2Z.id.
    rewrite (process_loop_records SIZE blocks _ 0 [] _ Hsize Hblocks);
      [|constructor|lia].
    pose proof (records_length blocks) as Hlen.
    rewrite length_app. cbn [length].
    match goal with
    | |- ProcessOutput.process_loop _ _ (?n - _)%nat _ _ _ _ = _ =>
        replace (n - length blocks)%nat
          with (S (n - S (length blocks)))%nat by lia
    end.
    cbn [ProcessOutput.process_loop ProcessOutput.readline].
    destruct h1 as [|c h1]; [contradiction|].
    subst SIZE. rewrite (read_rows_bad _ rows _ _ tail _ Hbad). reflexivity.
  - intros SIZE f Hsize. unfold ProcessOutput.process_output.
    replace (Z.to_nat SIZE) with 0%nat by lia.
    apply process_loop_no_columns.
Qed.

End Records.

(** ** The parser on a log of two ranks *)

Lemma example_record_readable :
  readable blank_or_newline 124%nat 2 example_record.
Proof.
  split; [discriminate|]. split; [reflexivity|].
  repeat constructor; vm_compute; eexists; reflexivity.
Qed.

Lemma cell_of_a_row_witness :
  fourth_field blank_or_newline 124%nat marked_row = Some [53; 32; 42; 42]%nat.
Proof.
  change marked_row
    with ([48] ++ 124 :: [49] ++ 124 :: [50] ++ 124 :: [32; 53; 32; 42; 42; 10])%nat.
  rewrite (proj1 (proj1 (proj2 (cell_of_a_row blank_or_newline 124%nat))
                    [48]%nat [49]%nat [50]%nat [32; 53; 32; 42; 42; 10]%nat
                    ltac:(apply (bool_decide_unpack _); vm_compute; exact I)
                    ltac:(apply (bool_decide_unpack _); vm_compute; exact I)
                    ltac:(apply (bool_decide_unpack _); vm_compute; exact I)
                    ltac:(apply (bool_decide_unpack _); vm_compute; exact I))).
  reflexivity.
Defined.

Lemma process_output_reads_records_witness :
  ProcessOutput.process_output blank_or_newline 124%nat 2
    (concat (map block_lines [example_record; example_record]))
  = Ok [(1%nat, [Some [53; 32; 42; 42]%nat; Some [55]%nat]);
        (2%nat, [Some [53; 32; 42; 42]%nat; Some [55]%nat])].
Proof.
  exact (eq_trans
           (process_output_reads_records blank_or_newline 124%nat 2
              [example_record; example_record] ltac:(lia)
              ltac:(repeat (constructor; [exact example_record_readable|]);
                      constructor))
           eq_refl).
Defined.

Lemma process_output_faults_witness :
  ProcessOutput.process_output blank_or_newline 124%nat 2
    (concat (map block_lines [example_record]) ++ [rule_line; titles_line])
  = Raise IndexError.
Proof.
  apply (proj1 (process_output_faults blank_or_newline 124%nat) 2%nat
           [example_record] rule_line [titles_line]).
  - lia.
  - constructor; [exact example_record_readable | constructor].
  - discriminate.
  - simpl. lia.
Defined.

(** ** What [PTSA.run] returns *)

Section RunResults.

Context {State : Type}.
Variable obj : State -> R.
Variable transition : SA.t State -> Rng -> State * Rng.
Variable ptransition : PTSA.t State -> Rng -> State * Rng.
Variable marker_defined : bool.

Implicit Types (s : SA.t State) (p : PTSA.t State) (g : Rng)
  (w : PTSA.world State).

Lemma imap_bases (f : nat -> PTSA.t State * Rng -> PTSA.t State * Rng) w :
  (forall r pg, PTSA.base (f r pg).1 = PTSA.base pg.1) ->
  Forall2 (fun pg pg' => PTSA.base pg'.1 = PTSA.base pg.1) w (imap f w).
Proof.
  revert f. induction w as [|pg w IH]; intros f Hf; simpl; constructor.
  - apply Hf.
  - apply IH. intros r pg'. apply Hf.
Qed.

Lemma ranked_bases w :
  Forall2 (fun pg pg' => PTSA.base pg'.1 = PTSA.base pg.1) w
    (imap (fun r pg => (PTSA.set_rank pg.1 r, pg.2)) w).
Proof. apply imap_bases. reflexivity. Qed.

Lemma ranked_map {A : Type} (h : SA.t State -> A) w :
  map (fun pg => h (PTSA.base pg.1))
    (imap (fun r pg => (PTSA.set_rank pg.1 r, pg.2)) w)
  = map (fun pg => h (PTSA.base pg.1)) w.
Proof.
  pose proof (ranked_bases w) as H.
  induction H as [|a b l1 l2 Hab _ IH]; simpl; [reflexivity|].
  rewrite Hab, IH. reflexivity.
Qed.

Lemma ranked_reports w :
  reports marker_defined w ->
  reports marker_defined (imap (fun r pg => (PTSA.set_rank pg.1 r, pg.2)) w).
Proof. destruct w as [|[p0 g0] rest]; simpl; auto. Qed.

Lemma agree_forallb (iters : Z) w :
  Forall (fun pg => SA._iters (PTSA.base pg.1) = iters) w ->
  forallb (fun pg => Z.eqb (SA._iters (PTSA.base pg.1)) iters) w = true.
Proof.
  induction 1 as [|pg w Hpg _ IH]; simpl; [reflexivity|].
  rewrite IH, Hpg, Z.eqb_refl. reflexivity.
Qed.

Lemma ranked_agree (iters : Z) w :
  Forall (fun pg => SA._iters (PTSA.base pg.1) = iters) w ->
  Forall (fun pg => SA._iters (PTSA.base pg.1) = iters)
    (imap (fun r pg => (PTSA.set_rank pg.1 r, pg.2)) w).
Proof.
  intros H. pose proof (ranked_bases w) as Hr.
  induction Hr as [|a b l1 l2 Hab _ IH]; constructor; inversion H; subst.
  - rewrite Hab. reflexivity.
  - apply IH. assumption.
Qed.

(** X15.  On a group with at least one rank, [PTSA.run] returns only when
    the budget [_iters] is empty, and then one pair per rank in rank order,
    the best state and cost each object already had.  With a budget of at
    least one iteration it never returns: the first outer iteration ends in
    the [NameError] of [save_var] (when all ranks agree on the budget, no
    temperature is zero and rank 0 can log its rows, so that nothing
    raises before). *)
Theorem ptsa_run_results p0 g0 (rest : PTSA.world State) :
  let w := (p0, g0) :: rest in
  let iters := SA._iters (PTSA.base p0) in
  ((0 < iters)%Z ->
   forall results, PTSA.run obj ptransition marker_defined w <> Ok results)
  /\ ((0 < iters)%Z ->
      Forall (fun pg => SA._iters (PTSA.base pg.1) = iters) w ->
      Forall (fun t => t <> 0) (temperatures w) ->
      reports marker_defined w ->
      PTSA.run obj ptransition marker_defined w = Raise NameError)
  /\ ((iters <= 0)%Z ->
      Forall (fun pg => SA._iters (PTSA.base pg.1) = iters) w ->
      PTSA.run obj ptransition marker_defined w
      = Ok (map (fun pg => (SA.best_x (PTSA.base pg.1),
                            SA.best_y (PTSA.base pg.1))) w)).
Proof.
  intros w iters.
  set (w0 := imap (fun r pg => (PTSA.set_rank pg.1 r, pg.2)) w).
  assert (Hrun : PTSA.run obj ptransition marker_defined w =
    if forallb (fun pg => Z.eqb (SA._iters (PTSA.base pg.1)) iters) w0 then
      let* w' := PTSA.loop obj ptransition marker_defined (Z.to_nat iters) 0 w0 in
      Ok (map (fun pg => (SA.best_x (PTSA.base pg.1),
                          SA.best_y (PTSA.base pg.1))) w')
    else Raise CollectiveMismatch) by reflexivity.
  assert (Hne : w0 <> []) by discriminate.
  split; [|split].
  - intros Hit results H. rewrite Hrun in H.
    destruct (forallb _ _); [|discriminate H].
    apply bind_ok_inv in H as (w' & Hloop & _).
    revert Hloop. apply loop_raises; [exact Hne | lia].
  - intros Hit Hagree Ht Hq. rewrite Hrun.
    rewrite (agree_forallb iters w0 (ranked_agree iters w Hagree)).
    destruct (Z.to_nat iters) as [|n] eqn:Hn; [lia|].
    cbn [PTSA.loop].
    destruct (iteration_body_total obj ptransition marker_defined 0 w0)
      as (w' & Hbody).
    { unfold temperatures, w0. rewrite (ranked_map SA.T w). exact Ht. }
    { apply ranked_reports. exact Hq. }
    rewrite (iteration_fault obj ptransition marker_defined 0 _ w' Hne Hbody).
    reflexivity.
  - intros Hit Hagree. rewrite Hrun.
    rewrite (agree_forallb iters w0 (ranked_agree iters w Hagree)).
    replace (Z.to_nat iters) with 0%nat by lia.
    cbn [PTSA.loop bind]. unfold w0.
    rewrite (ranked_map (fun s => (SA.best_x s, SA.best_y s)) w).
    reflexivity.
Qed.

(** X16.  [PTSA.step] repeats the body of [SA.step]: on an object whose
    proposals read only the inherited attributes it gives the state and
    the generator that the inherited [step] gives, with [theta] and the
    rank kept. *)
Theorem ptsa_step_is_sa_step p g :
  proposals_agree transition ptransition ->
  PTSA.step obj ptransition p g =
  let* (s', g') := SA.step obj transition (PTSA.base p) g in
  Ok (PTSA.set_base p s', g').
Proof. apply pstep_base. Qed.

End RunResults.

Lemma ptsa_run_results_witness :
  PTSA.run cost_id pwalk false two_ranks = Raise NameError.
Proof.
  refine (proj1 (proj2 (ptsa_run_results cost_id pwalk false pwarm quarter
                          [(pcool, half)])) _ _ _ _).
  - reflexivity.
  - repeat constructor.
  - repeat constructor; simpl; lra.
  - left. discriminate.
Defined.

Lemma ptsa_step_is_sa_step_witness :
  PTSA.step cost_id pwalk pwarm quarter =
  let* (s', g') := SA.step cost_id walk warm quarter in
  Ok (PTSA.set_base pwarm s', g').
Proof.
  exact (ptsa_step_is_sa_step cost_id walk pwalk pwarm quarter
           (fun p g => eq_refl)).
Defined.
